(** * Gecode kernel: spaces, variable implementations, handles, search dispatch

    A shallow embedding of [gecode/kernel/core.hpp] and of the
    branch-and-bound dispatch of the search module.

    Conventions of the embedding:
    - a pointer is its address, a [Z]; [NULL] is [0];
    - [unsigned int] and [size_t] values are [Z] with the wrap-around of
      the C++ arithmetic written out ([u32], [usize]);
    - an operation whose C++ behaviour is undefined (a failed [assert],
      [GECODE_NEVER], an access outside an allocated array) yields [None];
    - virtual member functions and the members of the configuration class
      [VIC] are parameters. *)

From Stdlib Require Import ZArith Lia Bool.
From stdpp Require Import base option numbers list gmap.

Local Open Scope Z_scope.

(** ** Machine parameters *)

(** The size of a pointer in bytes; [size_t] has the same width. *)
Class Platform := {
  ptr_bytes : Z;
  ptr_bytes_ok : ptr_bytes = 4 ∨ ptr_bytes = 8
}.

Definition u32 (x : Z) : Z := x mod 2 ^ 32.

Definition usize `{Platform} (x : Z) : Z := x mod 2 ^ (8 * ptr_bytes).

Definition NULL : Z := 0.

(** ** Generic modification events, propagation conditions, statuses *)

Definition ME_GEN_FAILED : Z := -1.
Definition ME_GEN_NONE : Z := 0.
Definition ME_GEN_ASSIGNED : Z := 1.

Definition PC_GEN_NONE : Z := -1.
Definition PC_GEN_ASSIGNED : Z := 0.

(** [enum ExecStatus]: [ES_OK] and [ES_NOFIX] are the same value. *)
Definition ExecStatus := Z.
Definition __ES_SUBSUMED : ExecStatus := -2.
Definition ES_FAILED : ExecStatus := -1.
Definition ES_NOFIX : ExecStatus := 0.
Definition ES_OK : ExecStatus := 0.
Definition ES_FIX : ExecStatus := 1.
Definition __ES_PARTIAL : ExecStatus := 2.

Definition PC_MAX : Z := 7.

(** ** The memory manager of a space

    [MemoryManager] is declared outside [core.hpp]; the kernel uses its
    [alloc], [reuse] and [subscriptions] members only, which are taken as
    an interface. *)

Class MemoryManagerOps (M : Type) := {
  mm_alloc : M → Z → Z * M;
  mm_reuse : M → Z → Z → M;
  mm_subscriptions : M → Z
}.

(** Modelled from the spec: the slab allocator of the memory manager
    ([MemoryManager::alloc], [MemoryManager::reuse]), which is not part of
    [core.hpp]. Allocation hands out consecutive addresses; memory given
    back is kept for reuse within the space and recorded with the address
    and the size of the request. *)
Record LogMM := mkLogMM {
  lm_next : Z;
  lm_subscriptions : Z;
  lm_reused : list (Z * Z)
}.

#[export] Instance LogMM_ops : MemoryManagerOps LogMM := {
  mm_alloc m s := (lm_next m, mkLogMM (lm_next m + s) (lm_subscriptions m) (lm_reused m));
  mm_reuse m p s := mkLogMM (lm_next m) (lm_subscriptions m) (lm_reused m ++ [(p, s)]);
  mm_subscriptions m := lm_subscriptions m
}.

#[export] Instance LP64 : Platform := {| ptr_bytes := 8; ptr_bytes_ok := or_intror eq_refl |}.

(** ** Spaces (the members used during propagation) *)

Record Space (M : Type) := mkSpace {
  mm : M;                    (* memory manager *)
  bytes : Z → Z;             (* contents of the space heap, per address *)
  a_actors : list Z;         (* chain of actors that are not queued *)
  b_status : Z;              (* branching used by status *)
  queue_base : Z;            (* &pc.p.queue[0] *)
  active : Z;                (* pc.p.active *)
  queue : list (list Z);     (* pc.p.queue[0 .. PC_MAX], head to tail *)
  n_sub : Z;                 (* pc.p.n_sub *)
  med : gmap Z Z;            (* u.med of the propagators of the space *)
  l_prev : gmap Z Z;         (* _prev of the actor links of the space *)
  l_next : gmap Z Z          (* _next of the advisors of the space *)
}.

Arguments mkSpace {M}.
Arguments mm {M}.
Arguments bytes {M}.
Arguments a_actors {M}.
Arguments b_status {M}.
Arguments queue_base {M}.
Arguments active {M}.
Arguments queue {M}.
Arguments n_sub {M}.
Arguments med {M}.
Arguments l_prev {M}.
Arguments l_next {M}.

Section SpaceOps.
Context `{Platform} {M : Type} `{MemoryManagerOps M}.

Definition set_mm (home : Space M) (m : M) : Space M :=
  mkSpace m (bytes home) (a_actors home) (b_status home) (queue_base home)
    (active home) (queue home) (n_sub home) (med home) (l_prev home) (l_next home).

Definition set_bytes (home : Space M) (b : Z → Z) : Space M :=
  mkSpace (mm home) b (a_actors home) (b_status home) (queue_base home)
    (active home) (queue home) (n_sub home) (med home) (l_prev home) (l_next home).

Definition set_active (home : Space M) (a : Z) : Space M :=
  mkSpace (mm home) (bytes home) (a_actors home) (b_status home)
    (queue_base home) a (queue home) (n_sub home) (med home) (l_prev home) (l_next home).

Definition set_n_sub (home : Space M) (n : Z) : Space M :=
  mkSpace (mm home) (bytes home) (a_actors home) (b_status home)
    (queue_base home) (active home) (queue home) n (med home) (l_prev home) (l_next home).

Definition set_med (home : Space M) (m : gmap Z Z) : Space M :=
  mkSpace (mm home) (bytes home) (a_actors home) (b_status home)
    (queue_base home) (active home) (queue home) (n_sub home) m (l_prev home) (l_next home).

Definition set_chains (home : Space M) (a : list Z) (q : list (list Z)) : Space M :=
  mkSpace (mm home) (bytes home) a (b_status home)
    (queue_base home) (active home) q (n_sub home) (med home) (l_prev home) (l_next home).

Definition set_l_prev (home : Space M) (l : gmap Z Z) : Space M :=
  mkSpace (mm home) (bytes home) (a_actors home) (b_status home)
    (queue_base home) (active home) (queue home) (n_sub home) (med home) l (l_next home).

Definition set_l_next (home : Space M) (l : gmap Z Z) : Space M :=
  mkSpace (mm home) (bytes home) (a_actors home) (b_status home)
    (queue_base home) (active home) (queue home) (n_sub home) (med home) (l_prev home) l.

(** [sizeof(ActorLink)]: two pointers. *)
Definition sizeof_ActorLink : Z := 2 * ptr_bytes.

(** [&pc.p.queue[c]] *)
Definition queue_addr (home : Space M) (c : Z) : Z :=
    queue_base home + c * sizeof_ActorLink.

(** [Space::fail] *)
Definition fail (home : Space M) : Space M := set_active home NULL.

(** [Space::failed] *)
Definition failed (home : Space M) : bool := active home =? NULL.

(** [Space::stable] *)
Definition stable (home : Space M) : bool := active home <? queue_addr home 0.

(** [Space::ralloc] *)
Definition ralloc (home : Space M) (s : Z) : Z * Space M :=
    let '(p, m) := mm_alloc (mm home) s in (p, set_mm home m).

(** [Space::rfree] *)
Definition rfree (home : Space M) (p s : Z) : Space M :=
    set_mm home (mm_reuse (mm home) p s).

(** [memcpy(p,b,n)] on the space heap. *)
Definition memcpy (mem : Z → Z) (p b n : Z) : Z → Z :=
    fun a => if (p <=? a) && (a <? p + n) then mem (b + (a - p)) else mem a.

(** [Space::rrealloc] *)
Definition rrealloc (home : Space M) (b n m : Z) : Z * Space M :=
    if n <? m then
      let '(p, home1) := ralloc home m in
      let home2 := set_bytes home1 (memcpy (bytes home1) p b n) in
      (p, rfree home2 b n)
    else
      (b, rfree home (b + m) (usize (m - n))).

End SpaceOps.

(** ** Marked pointers *)

(** Modelled from the spec: [Support::mark], [Support::unmark] and
    [Support::marked] of the support library, which tag a pointer in its
    low bit. *)
Definition mark (p : Z) : Z := Z.lor p 1.

Definition unmark (p : Z) : Z := Z.ldiff p 1.

Definition marked (p : Z) : bool := Z.testbit p 0.

(** ** Variable implementations *)

(** The variable implementation configuration [VIC]. [med_update] gives
    the updated delta and whether it changed. *)
Class VarImpConf := {
  idx_c : Z;
  idx_d : Z;
  pc_max : Z;
  free_bits : Z;
  med_fst : Z;
  med_mask : Z;
  me_combine : Z → Z → Z;
  med_update : Z → Z → Z * bool
}.

(** [VarImp<VIC>]. [slots] is the array of subscribed actors that [base]
    was allocated for; actors are identified by the address of their
    [ActorLink]. [u] is the union as a sequence of 32-bit words: the words
    [0 .. pc_max] are [u.idx], and [u.next] lies over the first word (the
    first two words where a pointer has eight bytes). *)
Record VarImp := mkVarImp {
  base : Z;
  slots : list Z;
  entries : Z;
  free_and_bits : Z;
  u : list Z
}.

Record Delta := mkDelta { d_me : Z }.

Section VarImpOps.
Context `{Platform} `{VarImpConf} {M : Type} `{MemoryManagerOps M}.
(** [Propagator::cost] (virtual). *)
Variable cost : Z → Space M → Z → Z.

Definition set_base (x : VarImp) (b : Z) : VarImp :=
  mkVarImp b (slots x) (entries x) (free_and_bits x) (u x).

Definition set_slots (x : VarImp) (l : list Z) : VarImp :=
  mkVarImp (base x) l (entries x) (free_and_bits x) (u x).

Definition set_entries (x : VarImp) (e : Z) : VarImp :=
  mkVarImp (base x) (slots x) e (free_and_bits x) (u x).

Definition set_free_and_bits (x : VarImp) (f : Z) : VarImp :=
  mkVarImp (base x) (slots x) (entries x) f (u x).

Definition set_u (x : VarImp) (w : list Z) : VarImp :=
  mkVarImp (base x) (slots x) (entries x) (free_and_bits x) w.

(** Number of 32-bit words of the union [u]. *)
Definition u_words : Z := Z.max (pc_max + 1) (ptr_bytes / 4).

(** [base[i]] read and written; [i] is the offset from [base]. *)
Definition load (x : VarImp) (i : Z) : option Z :=
  if 0 <=? i then slots x !! Z.to_nat i else None.

Definition store (x : VarImp) (i v : Z) : option VarImp :=
  if (0 <=? i) && (i <? Z.of_nat (length (slots x)))
  then Some (set_slots x (<[Z.to_nat i := v]> (slots x)))
  else None.

(** [VarImp::actor]: the result is the offset of the pointer from [base]. *)
Definition actor (x : VarImp) (pc : Z) : option Z :=
  if (0 <=? pc) && (pc <? pc_max + 2)
  then (if pc =? 0 then Some 0 else u x !! Z.to_nat (pc - 1))
  else None.

(** [VarImp::actorNonZero] *)
Definition actorNonZero (x : VarImp) (pc : Z) : option Z :=
  if (0 <? pc) && (pc <? pc_max + 2) then u x !! Z.to_nat (pc - 1) else None.

(** [VarImp::idx], read and written. *)
Definition idx (x : VarImp) (pc : Z) : option Z :=
  if (0 <? pc) && (pc <? pc_max + 2) then u x !! Z.to_nat (pc - 1) else None.

Definition set_idx (x : VarImp) (pc v : Z) : option VarImp :=
  if (0 <? pc) && (pc <? pc_max + 2) && (pc - 1 <? Z.of_nat (length (u x)))
  then Some (set_u x (<[Z.to_nat (pc - 1) := v]> (u x)))
  else None.

(** [VarImp::copied] *)
Definition copied (x : VarImp) : bool := marked (base x).

(** [VarImp::forward] *)
Definition forward (x : VarImp) : option Z :=
  if copied x then Some (unmark (base x)) else None.

(** [u.next] read and written through the union (least significant word
    first). *)
Definition get_next (x : VarImp) : option Z :=
  w0 ← u x !! 0%nat;
  if ptr_bytes =? 8 then w1 ← u x !! 1%nat; Some (w0 + 2 ^ 32 * w1)
  else Some w0.

Definition set_next (x : VarImp) (p : Z) : VarImp :=
  let w := <[0%nat := p mod 2 ^ 32]> (u x) in
  set_u x (if ptr_bytes =? 8 then <[1%nat := (p / 2 ^ 32) mod 2 ^ 32]> w else w).

(** [VarImp::next] *)
Definition next (x : VarImp) : option Z :=
  if copied x then get_next x else None.

(** [VarImp::degree] *)
Definition degree (x : VarImp) : option Z :=
  if copied x then None else Some (entries x).

(** [Space::alloc<ActorLink*>(n)]: the objects are value-initialised. *)
Definition alloc_ptrs (home : Space M) (n : Z) : (Z * list Z) * Space M :=
  let '(p, home1) := ralloc home (usize (ptr_bytes * n)) in
  ((p, replicate (Z.to_nat n) NULL), home1).

(** [Space::free<ActorLink*>(b,n)] *)
Definition free_ptrs (home : Space M) (b n : Z) : Space M :=
  rfree home b (usize (n * ptr_bytes)).

(** [VarImp::resize] *)
Definition resize (home : Space M) (x : VarImp) : option (Space M * VarImp) :=
  if base x =? NULL then
    if Z.shiftr (free_and_bits x) free_bits =? 0 then
      let fb := u32 (free_and_bits x + Z.shiftl 4 free_bits) in
      let '((b, arr), home1) := alloc_ptrs home 4 in
      Some (home1, mkVarImp b arr (entries x) fb (u x))
    else None
  else
    n ← degree x;
    let s := mm_subscriptions (mm home) in
    let m :=
      if (s <=? base x) && (base x <? s + n_sub home * ptr_bytes)
      then u32 (n + 4) else Z.shiftr (u32 ((n + 1) * 3)) 1 in
    let '((prop, arr), home1) := alloc_ptrs home m in
    let fb := u32 (free_and_bits x + Z.shiftl (u32 (m - n)) free_bits) in
    if (n <=? Z.of_nat (length (slots x))) && (n <=? m) then
      let arr1 := take (Z.to_nat n) (slots x) ++ drop (Z.to_nat n) arr in
      let home2 := free_ptrs home1 (base x) n in
      Some (home2, mkVarImp prop arr1 (entries x) fb (u x))
    else None.

(** [ActorLink::unlink] of a propagator: it leaves the chain it is in. *)
Definition unlink (home : Space M) (p : Z) : Space M :=
  set_chains home (filter (λ a, a ≠ p) (a_actors home))
    (map (filter (λ a, a ≠ p)) (queue home)).

(** [Space::enqueue] *)
Definition enqueue (home : Space M) (p : Z) : option (Space M) :=
  let home1 := unlink home p in
  let c := cost p home1 (default 0 (med home1 !! p)) in
  if (0 <=? c) && (c <=? PC_MAX) then
    q ← queue home1 !! Z.to_nat c;
    let home2 := set_chains home1 (a_actors home1) (<[Z.to_nat c := q ++ [p]]> (queue home1)) in
    Some (if queue_addr home2 c >? active home2
          then set_active home2 (queue_addr home2 c) else home2)
  else None.

(** [VarImp::schedule(home,p,me)] *)
Definition schedule (home : Space M) (p me : Z) : option (Space M) :=
  let '(m, changed) := med_update (default 0 (med home !! p)) me in
  let home1 := set_med home (<[p := m]> (med home)) in
  if changed then enqueue home1 p else Some home1.

(** What scheduling the propagator [p] with the event [me] shows on the
    members of a space. The delta of [p] is the one that [med_update] gives
    for [me]. If that changed the delta, [p] has left the chain it was in
    and is the last of the queue for its cost (the cost is asked for once
    [p] has left its chain), with the order of the other actors kept, and
    [active] is not below that queue. If it did not, the chains and
    [active] are as before. Nothing else changes. *)
Record scheduled (home : Space M) (p me : Z) (home1 : Space M) : Prop := {
  sch_med :
    med home1 = <[p := (med_update (default 0 (med home !! p)) me).1]> (med home);
  sch_same :
    (med_update (default 0 (med home !! p)) me).2 = false →
    a_actors home1 = a_actors home ∧ queue home1 = queue home ∧
    active home1 = active home;
  sch_queued :
    (med_update (default 0 (med home !! p)) me).2 = true →
    let m := (med_update (default 0 (med home !! p)) me).1 in
    let c := cost p (unlink (set_med home (<[p := m]> (med home))) p) m in
    a_actors home1 = filter (λ a, a ≠ p) (a_actors home) ∧
    length (queue home1) = length (queue home) ∧
    (∀ (k : nat) q, queue home !! k = Some q →
       queue home1 !! k =
         Some (filter (λ a, a ≠ p) q ++ (if decide (k = Z.to_nat c) then [p] else []))) ∧
    active home1 = Z.max (active home) (queue_addr home c);
  sch_frame :
    mm home1 = mm home ∧ bytes home1 = bytes home ∧
    b_status home1 = b_status home ∧ queue_base home1 = queue_base home ∧
    n_sub home1 = n_sub home ∧
    l_prev home1 = l_prev home ∧ l_next home1 = l_next home
}.

(** One round of the loop of [enter]:
    [*actorNonZero(j+1) = *actorNonZero(j); idx(j+1)++]. *)
Definition shift_up (x : VarImp) (j : Z) : option VarImp :=
  s ← actorNonZero x j;
  v ← load x s;
  d ← actorNonZero x (j + 1);
  x1 ← store x d v;
  i ← idx x1 (j + 1);
  set_idx x1 (j + 1) (u32 (i + 1)).

(** [for (j = pc+n; j > pc; j--)] *)
Fixpoint enter_loop (n : nat) (pc : Z) (x : VarImp) : option VarImp :=
  match n with
  | O => Some x
  | S n' => x1 ← shift_up x (pc + Z.of_nat (S n')); enter_loop n' pc x1
  end.

(** The start of both [enter]: count the subscription, make room. *)
Definition make_room (home : Space M) (x : VarImp) : option (Space M * VarImp) :=
  let home1 := set_n_sub home (u32 (n_sub home + 1)) in
  '(home2, x1) ← (if Z.shiftr (free_and_bits x) free_bits =? 0
                   then resize home1 x else Some (home1, x));
  Some (home2, set_free_and_bits x1 (u32 (free_and_bits x1 - Z.shiftl 1 free_bits))).

(** [VarImp::enter(home,p,pc)] for a propagator. *)
Definition enter (home : Space M) (x : VarImp) (p pc : Z) : option (Space M * VarImp) :=
  if pc <=? pc_max then
    '(home1, x1) ← make_room home x;
    a ← actorNonZero x1 (pc_max + 1);
    v ← load x1 a;
    x2 ← store x1 (entries x1) v;
    let x3 := set_entries x2 (u32 (entries x2 + 1)) in
    x4 ← enter_loop (Z.to_nat (pc_max - pc)) pc x3;
    s ← actor x4 pc;
    w ← load x4 s;
    d ← actorNonZero x4 (pc + 1);
    x5 ← store x4 d w;
    i ← idx x5 (pc + 1);
    x6 ← set_idx x5 (pc + 1) (u32 (i + 1));
    t ← actor x6 pc;
    x7 ← store x6 t p;
    Some (home1, x7)
  else None.

(** [VarImp::enter(home,a)] for an advisor. *)
Definition enter_advisor (home : Space M) (x : VarImp) (a : Z) : option (Space M * VarImp) :=
  '(home1, x1) ← make_room home x;
  s ← actorNonZero x1 (pc_max + 1);
  v ← load x1 s;
  x2 ← store x1 (entries x1) v;
  let x3 := set_entries x2 (u32 (entries x2 + 1)) in
  t ← actorNonZero x3 (pc_max + 1);
  x4 ← store x3 t a;
  Some (home1, x4).

(** [VarImp::subscribe] for a propagator. *)
Definition subscribe (home : Space M) (x : VarImp) (p pc : Z)
    (assigned : bool) (me : Z) (sched : bool) : option (Space M * VarImp) :=
  if assigned then
    if sched then home1 ← schedule home p ME_GEN_ASSIGNED; Some (home1, x)
    else Some (home, x)
  else
    '(home1, x1) ← enter home x p pc;
    if sched && negb (pc =? PC_GEN_ASSIGNED)
    then home2 ← schedule home1 p me; Some (home2, x1)
    else Some (home1, x1).

(** [VarImp::subscribe] for an advisor. *)
Definition subscribe_advisor (home : Space M) (x : VarImp) (a : Z)
    (assigned : bool) : option (Space M * VarImp) :=
  if negb assigned then enter_advisor home x a else Some (home, x).

(** [while ( *f != a) f++]: the offset of the first slot from [f] on that
    holds [a]. *)
Fixpoint scan (a : Z) (l : list Z) (f : Z) : option Z :=
  match l with
  | [] => None
  | v :: l' => if v =? a then Some f else scan a l' (f + 1)
  end.

Definition find_actor (x : VarImp) (start a : Z) : option Z :=
  if 0 <=? start then scan a (drop (Z.to_nat start) (slots x)) start else None.

(** One round of the loop of [remove]:
    [*(actorNonZero(j)-1) = *(actorNonZero(j+1)-1); idx(j)--]. *)
Definition shift_down (x : VarImp) (j : Z) : option VarImp :=
  s ← actorNonZero x (j + 1);
  v ← load x (s - 1);
  d ← actorNonZero x j;
  x1 ← store x (d - 1) v;
  i ← idx x1 j;
  set_idx x1 j (u32 (i - 1)).

(** [for (; n rounds; j++)] *)
Fixpoint remove_loop (n : nat) (j : Z) (x : VarImp) : option VarImp :=
  match n with
  | O => Some x
  | S n' => x1 ← shift_down x j; remove_loop n' (j + 1) x1
  end.

(** [VarImp::remove(home,p,pc)] for a propagator. *)
Definition remove (home : Space M) (x : VarImp) (p pc : Z) : option (Space M * VarImp) :=
  if pc <=? pc_max then
    s ← actor x pc;
    f ← find_actor x s p;
    e ← actorNonZero x (pc + 1);
    v ← load x (e - 1);
    x1 ← store x f v;
    x2 ← remove_loop (Z.to_nat (pc_max - pc)) (pc + 1) x1;
    d ← actorNonZero x2 (pc_max + 1);
    w ← load x2 (u32 (entries x2 - 1));
    x3 ← store x2 (d - 1) w;
    i ← idx x3 (pc_max + 1);
    x4 ← set_idx x3 (pc_max + 1) (u32 (i - 1));
    let x5 := set_entries x4 (u32 (entries x4 - 1)) in
    let x6 := set_free_and_bits x5 (u32 (free_and_bits x5 + Z.shiftl 1 free_bits)) in
    Some (set_n_sub home (u32 (n_sub home - 1)), x6)
  else None.

(** [VarImp::remove(home,a)] for an advisor. *)
Definition remove_advisor (home : Space M) (x : VarImp) (a : Z) : option (Space M * VarImp) :=
  s ← actorNonZero x (pc_max + 1);
  f ← find_actor x s a;
  let x1 := set_entries x (u32 (entries x - 1)) in
  v ← load x1 (entries x1);
  x2 ← store x1 f v;
  let x3 := set_free_and_bits x2 (u32 (free_and_bits x2 + Z.shiftl 1 free_bits)) in
  Some (set_n_sub home (u32 (n_sub home - 1)), x3).

(** [VarImp::cancel] for a propagator and for an advisor. *)
Definition cancel (home : Space M) (x : VarImp) (p pc : Z) (assigned : bool)
    : option (Space M * VarImp) :=
  if negb assigned then remove home x p pc else Some (home, x).

Definition cancel_advisor (home : Space M) (x : VarImp) (a : Z) (assigned : bool)
    : option (Space M * VarImp) :=
  if negb assigned then remove_advisor home x a else Some (home, x).

End VarImpOps.

(** ** Advisors *)

Section AdvisorOps.
Context `{Platform} `{VarImpConf} {M : Type} `{MemoryManagerOps M}.
Variable cost : Z → Space M → Z → Z.

(** [Advisor::disposed] *)
Definition disposed (home : Space M) (a : Z) : option bool :=
  v ← l_prev home !! a; Some (v =? NULL).

(** [Advisor::propagator] *)
Definition propagator (home : Space M) (a : Z) : option Z :=
  v ← l_prev home !! a; if v =? NULL then None else Some v.

(** [Advisor::dispose] *)
Definition Advisor_dispose (home : Space M) (a : Z) : option (Space M) :=
  v ← l_prev home !! a;
  if v =? NULL then None else
  let home1 := set_l_prev home (<[a := NULL]> (l_prev home)) in
  n ← l_next home1 !! a;
  if n =? NULL then Some home1 else
  nd ← disposed home1 n;
  if (nd : bool) then nn ← l_next home1 !! n; Some (set_l_next home1 (<[a := nn]> (l_next home1)))
  else Some home1.

(** [ES_SUBSUMED_FIX] and [ES_SUBSUMED_NOFIX]; [dispose] is the dispose
    member of the advisor class [A]. *)
Definition ES_SUBSUMED_FIX {W : Type} (dispose : Z → W → option W) (a : Z) (w : W)
    : option (ExecStatus * W) :=
  w1 ← dispose a w; Some (ES_FIX, w1).

Definition ES_SUBSUMED_NOFIX {W : Type} (dispose : Z → W → option W) (a : Z) (w : W)
    : option (ExecStatus * W) :=
  w1 ← dispose a w; Some (ES_NOFIX, w1).

(** [Propagator::advise] (virtual): run for propagator [p] and advisor [a]
    on the space and the variable implementation being modified. *)
Variable Propagator_advise :
  Z → Z → Delta → Space M * VarImp → option (ExecStatus * (Space M * VarImp)).

(** The [do ... while (++la < le)] loop of [advise]. *)
Fixpoint advise_loop (fuel : nat) (la le me : Z) (d : Delta) (w : Space M * VarImp)
    : option (bool * (Space M * VarImp)) :=
  match fuel with
  | O => None
  | S fuel' =>
    a ← load w.2 la;
    dis ← disposed w.1 a;
    if (dis : bool) then None else
    p ← propagator w.1 a;
    '(st, w1) ← Propagator_advise p a d w;
    if st =? ES_FIX then
      if la + 1 <? le then advise_loop fuel' (la + 1) le me d w1 else Some (true, w1)
    else if st =? ES_FAILED then Some (false, w1)
    else if st =? ES_NOFIX then
      home2 ← schedule cost w1.1 p me;
      if la + 1 <? le then advise_loop fuel' (la + 1) le me d (home2, w1.2)
      else Some (true, (home2, w1.2))
    else None
  end.

(** [VarImp::advise] *)
Definition advise (home : Space M) (x : VarImp) (me : Z)
    : option (bool * (Space M * VarImp)) :=
  la ← actorNonZero x (pc_max + 1);
  let le := entries x in
  if la =? le then Some (true, (home, x))
  else advise_loop (Z.to_nat (Z.max 1 (le - la))) la le me (mkDelta me) (home, x).

(** The advise protocol in the words of the specification, as a relation
    between the state [w] before and the result [r]: the advisors are taken
    one after the other, in the order of the list, and for each the advise
    function of its propagator is invoked on the advisor and the delta;
    [ES_FAILED] ends the iteration with failure, [ES_FIX] does nothing,
    after [ES_NOFIX] the propagator of the advisor is scheduled with
    [me]. *)
Fixpoint advise_spec (advisors : list Z) (me : Z) (d : Delta) (w : Space M * VarImp)
    (r : bool * (Space M * VarImp)) : Prop :=
  match advisors with
  | [] => r = (true, w)
  | a :: rest =>
    ∃ p st w1,
      propagator w.1 a = Some p ∧
      Propagator_advise p a d w = Some (st, w1) ∧
      ((st = ES_FIX ∧ advise_spec rest me d w1 r) ∨
       (st = ES_FAILED ∧ r = (false, w1)) ∨
       (st = ES_NOFIX ∧
        ∃ home2, scheduled cost w1.1 p me home2 ∧ advise_spec rest me d (home2, w1.2) r))
  end.

End AdvisorOps.

(** What an advise function does, following the contract of
    [Propagator::advise]: one of the three plain statuses, or the result of
    [ES_SUBSUMED_FIX] or [ES_SUBSUMED_NOFIX]. [cancels] tells whether the
    dispose member of the advisor class cancels the subscription of the
    advisor with the variable before it calls [Advisor::dispose]. *)
Inductive Reaction :=
| RFix
| RNofix
| RFailed
| RSubsumedFix (cancels : bool)
| RSubsumedNofix (cancels : bool).

Section Reactions.
Context `{Platform} `{VarImpConf} {M : Type} `{MemoryManagerOps M}.
(** What the advise function of the propagator [p] does when it is invoked
    on the advisor [a] with the delta [d]. *)
Variable react : Z → Z → Delta → Reaction.

Definition A_dispose (cancels : bool) (a : Z) (w : Space M * VarImp)
    : option (Space M * VarImp) :=
  w1 ← (if cancels then cancel_advisor w.1 w.2 a false else Some w);
  home2 ← Advisor_dispose w1.1 a;
  Some (home2, w1.2).

Definition advise_by (p a : Z) (d : Delta) (w : Space M * VarImp)
    : option (ExecStatus * (Space M * VarImp)) :=
  match react p a d with
  | RFix => Some (ES_FIX, w)
  | RNofix => Some (ES_NOFIX, w)
  | RFailed => Some (ES_FAILED, w)
  | RSubsumedFix c => ES_SUBSUMED_FIX (A_dispose c) a w
  | RSubsumedNofix c => ES_SUBSUMED_NOFIX (A_dispose c) a w
  end.

End Reactions.

(** ** Cloning of variable implementations *)

(** The update lists of a space during copying ([pc.c]). *)
Record CloneRegs := mkCloneRegs {
  vars_u : list Z;
  vars_noidx : Z
}.

Section Cloning.
Context `{Platform} `{VarImpConf}.

(** [for (pc = from; n rounds; pc++) idx(pc) = x.idx(pc)] *)
Fixpoint copy_idx (n : nat) (pc : Z) (x c : VarImp) : option VarImp :=
  match n with
  | O => Some c
  | S n' => v ← idx x pc; c1 ← set_idx c pc v; copy_idx n' (pc + 1) x c1
  end.

(** [VarImp::VarImp(Space& home, bool, VarImp& x)]: the object is built at
    address [this] over memory whose union holds the words [raw]; [x_addr]
    is the address of [x]. The result is the clone, the original, and the
    update lists. *)
Definition VarImp_copy (this : Z) (raw : list Z) (regs : CloneRegs)
    (x_addr : Z) (x : VarImp) : option (VarImp * VarImp * CloneRegs) :=
  let fb := Z.land (free_and_bits x) (Z.shiftl 1 free_bits - 1) in
  noidx ← (if base x =? NULL
           then n ← degree x; if n =? 0 then Some true else None
           else Some false);
  c ← copy_idx (Z.to_nat (pc_max + 1)) 1 x
         (mkVarImp (base x) (slots x) (entries x) fb raw);
  let x1 := set_base x (mark this) in
  if (noidx : bool) then
    Some (c, set_next x1 (vars_noidx regs), mkCloneRegs (vars_u regs) x_addr)
  else
    if 0 <=? idx_c then
      r ← vars_u regs !! Z.to_nat idx_c;
      Some (c, set_next x1 r,
            mkCloneRegs (<[Z.to_nat idx_c := x_addr]> (vars_u regs)) (vars_noidx regs))
    else None.

(** The copying part of [update]: [t[i] = f[i]->prev()], four, two and one
    at a time. *)
Fixpoint update_slots (links : gmap Z Z) (f : list Z) : option (list Z) :=
  match f with
  | f0 :: f1 :: f2 :: f3 :: r =>
    t0 ← links !! f0; t1 ← links !! f1; t2 ← links !! f2; t3 ← links !! f3;
    t ← update_slots links r;
    Some (t0 :: t1 :: t2 :: t3 :: t)
  | [f0; f1; f2] =>
    t0 ← links !! f0; t1 ← links !! f1; t2 ← links !! f2; Some [t0; t1; t2]
  | [f0; f1] =>
    t0 ← links !! f0; t1 ← links !! f1; Some [t0; t1]
  | [f0] => t0 ← links !! f0; Some [t0]
  | [] => Some []
  end.

(** [VarImp::update(x,sub)], run on the clone [c]; [links] gives [_prev] of
    the actors of the original space. The result is the clone, the
    original, and [sub]. *)
Definition update (links : gmap Z Z) (c x : VarImp) (sub : Z)
    : option (VarImp * VarImp * Z) :=
  let x1 := set_base x (base c) in
  w0 ← u c !! 0%nat;
  let x2 := set_u x1 (<[0%nat := w0]> (u x1)) in
  x3 ← (if (0 <? pc_max) && (4 <? ptr_bytes)
        then w1 ← u c !! 1%nat; Some (set_u x2 (<[1%nat := w1]> (u x2)))
        else Some x2);
  n ← degree x3;
  if n <=? Z.of_nat (length (slots x3)) then
    t ← update_slots links (take (Z.to_nat n) (slots x3));
    Some (mkVarImp sub t (entries c) (free_and_bits c) (u c), x3, sub + n * ptr_bytes)
  else None.

End Cloning.

(** ** Shared handles *)

Module SharedHandle.

(** [SharedHandle::Object] with the members of [CopiedHandle::Object].
    No constructor writes [next]: it is [None] until [update] writes it. *)
Record Object := mkObject {
  use_cnt : Z;
  fwd : Z;
  next : option Z
}.

(** The shared objects on the heap and the handles that are alive, both by
    address; a handle is its member [o]. [copied] is [pc.c.copied] of the
    space being copied. *)
Record Heap := mkHeap {
  objects : gmap Z Object;
  handles : gmap Z Z;
  copied : Z
}.

Definition set_objects (hp : Heap) (m : gmap Z Object) : Heap :=
  mkHeap m (handles hp) (copied hp).

(** [CopiedHandle::object(n)] *)
Definition put_object (hp : Heap) (h n : Z) : Heap :=
  mkHeap (objects hp) (<[h := n]> (handles hp)) (copied hp).

(** [SharedHandle::subscribe] *)
Definition subscribe (hp : Heap) (h : Z) : option Heap :=
  o ← handles hp !! h;
  if o =? NULL then Some hp else
  ob ← objects hp !! o;
  Some (set_objects hp (<[o := mkObject (u32 (use_cnt ob + 1)) (fwd ob) (next ob)]> (objects hp))).

(** [SharedHandle::cancel] *)
Definition cancel (hp : Heap) (h : Z) : option Heap :=
  o ← handles hp !! h;
  hp1 ← (if o =? NULL then Some hp else
         ob ← objects hp !! o;
         let c := u32 (use_cnt ob - 1) in
         if c =? 0 then Some (set_objects hp (delete o (objects hp)))
         else Some (set_objects hp (<[o := mkObject c (fwd ob) (next ob)]> (objects hp))));
  Some (put_object hp1 h NULL).

(** [new] of a shared object at address [o]: the constructors
    [CopiedHandle::Object::Object] and [SharedHandle::Object::Object] set
    [fwd] and [use_cnt]. *)
Definition new_object (hp : Heap) (o : Z) : option Heap :=
  if (o =? NULL) || bool_decide (is_Some (objects hp !! o)) then None
  else Some (set_objects hp (<[o := mkObject 0 NULL None]> (objects hp))).

(** [SharedHandle::SharedHandle(void)] at address [h]. *)
Definition construct (hp : Heap) (h : Z) : option Heap :=
  if bool_decide (is_Some (handles hp !! h)) then None
  else Some (put_object hp h NULL).

(** [SharedHandle::SharedHandle(Object* so)] at address [h]. *)
Definition construct_from (hp : Heap) (h so : Z) : option Heap :=
  if bool_decide (is_Some (handles hp !! h)) then None
  else subscribe (put_object hp h so) h.

(** [SharedHandle::SharedHandle(const SharedHandle& sh)] at address [h]. *)
Definition copy_construct (hp : Heap) (h sh : Z) : option Heap :=
  if bool_decide (is_Some (handles hp !! h)) then None
  else o ← handles hp !! sh; subscribe (put_object hp h o) h.

(** [SharedHandle::operator =] *)
Definition assign (hp : Heap) (h sh : Z) : option Heap :=
  _ ← handles hp !! h;
  _ ← handles hp !! sh;
  if negb (sh =? h) then
    hp1 ← cancel hp h;
    o ← handles hp1 !! sh;
    subscribe (put_object hp1 h o) h
  else Some hp.

Section Copying.
(** [Object::copy] (pure virtual), called on the object at an address: it
    gives the address of the copy and the heap that holds the copy. *)
Variable Object_copy : Heap → Z → option (Z * Heap).

(** [CopiedHandle::update]: the handle at [h] is set first, and [sh.o] is
    read again for the writes that follow. *)
Definition copied_update (hp : Heap) (h sh : Z) : option Heap :=
  o ← handles hp !! sh;
  if o =? NULL then Some (put_object hp h NULL) else
  ob ← objects hp !! o;
  if negb (fwd ob =? NULL) then Some (put_object hp h (fwd ob)) else
  '(n, hp1) ← Object_copy hp o;
  let hp2 := put_object hp1 h n in
  o2 ← handles hp2 !! sh;
  ob2 ← objects hp2 !! o2;
  Some (mkHeap (<[o2 := mkObject (use_cnt ob2) n (Some (copied hp2))]> (objects hp2))
          (handles hp2) o2).

(** [SharedHandle::update] *)
Definition update (hp : Heap) (h : Z) (share : bool) (sh : Z) : option Heap :=
  _ ← handles hp !! h;
  o ← handles hp !! sh;
  if o =? NULL then Some (put_object hp h NULL)
  else if share then subscribe (put_object hp h o) h
  else hp1 ← copied_update hp h sh; subscribe hp1 h.

(** [SharedHandle::~SharedHandle] *)
Definition destroy (hp : Heap) (h : Z) : option Heap :=
  hp1 ← cancel hp h;
  Some (mkHeap (objects hp1) (delete h (handles hp1)) (copied hp1)).

Inductive Op :=
| NewObject (o : Z)
| Construct (h : Z)
| ConstructFrom (h so : Z)
| CopyConstruct (h sh : Z)
| Assign (h sh : Z)
| Update (h : Z) (share : bool) (sh : Z)
| Destroy (h : Z).

Definition step (hp : Heap) (op : Op) : option Heap :=
  match op with
  | NewObject o => new_object hp o
  | Construct h => construct hp h
  | ConstructFrom h so => construct_from hp h so
  | CopyConstruct h sh => copy_construct hp h sh
  | Assign h sh => assign hp h sh
  | Update h share sh => update hp h share sh
  | Destroy h => destroy hp h
  end.

Fixpoint run (hp : Heap) (ops : list Op) : option Heap :=
  match ops with
  | [] => Some hp
  | op :: rest => hp1 ← step hp op; run hp1 rest
  end.

(** The number of live handles that refer to the object at [o]. *)
Definition referring (hp : Heap) (o : Z) : nat :=
  size (filter (λ kv : Z * Z, kv.2 = o) (handles hp)).

(** The number of live handles other than the one at [h] that refer to the
    object at [o]. *)
Definition others (hs : gmap Z Z) (h o : Z) : nat :=
  size (filter (λ kv : Z * Z, kv.2 = o) (delete h hs)).

(** The use counter of every live object is the number of handles that
    refer to it, and no handle refers to a deleted object. *)
Definition counted (hp : Heap) : Prop :=
  (∀ o ob, objects hp !! o = Some ob → o ≠ NULL ∧ use_cnt ob = Z.of_nat (referring hp o)) ∧
  (∀ h o, handles hp !! h = Some o → o ≠ NULL → is_Some (objects hp !! o)).

(** An operation as the kernel uses it, on a heap whose use counters
    cannot wrap: fewer than [2^32 - 1] handles are alive, and an update is
    run with sharing, on a handle that refers to no object (the handle of
    a clone that is being built). *)
Definition admissible (hp : Heap) (op : Op) : Prop :=
  Z.of_nat (size (handles hp)) + 1 < 2 ^ 32 ∧
  match op with
  | Update h share _ => share = true ∧ handles hp !! h = Some NULL
  | _ => True
  end.

Fixpoint admissible_run (hp : Heap) (ops : list Op) : Prop :=
  match ops with
  | [] => True
  | op :: rest =>
    admissible hp op ∧
    match step hp op with Some hp1 => admissible_run hp1 rest | None => False end
  end.

End Copying.

(** The last handle that referred to the object at [o] has released it. *)
Definition released (hp hp1 : Heap) (o : Z) : Prop :=
  (0 < referring hp o)%nat ∧ referring hp1 o = 0%nat.

(** What a step establishes: the counters are right again, at most one
    handle has been added, and an object that was alive is deleted exactly
    when its last handle has released it. *)
Definition step_ok (hp hp1 : Heap) : Prop :=
  counted hp1 ∧
  (size (handles hp1) ≤ S (size (handles hp)))%nat ∧
  ∀ o, is_Some (objects hp !! o) → (objects hp1 !! o = None ↔ released hp hp1 o).

(** No objects and no handles. *)
Definition empty_heap : Heap := mkHeap ∅ ∅ NULL.

(** Two objects, and two handles that both refer to the second one. *)
Definition leaked_heap : Heap :=
  mkHeap (<[100 := mkObject 1 NULL None]> (<[200 := mkObject 2 NULL None]> ∅))
         (<[1 := 200]> (<[2 := 200]> ∅)) NULL.

(** A [copy] member that makes the copy by [new] at the address [fresh]. *)
Definition copy_at (fresh : Z) (hp : Heap) (o : Z) : option (Z * Heap) :=
  hp1 ← new_object hp fresh; Some (fresh, hp1).

End SharedHandle.

(** ** Space::description *)

Inductive Exception := SpaceNotStable | SpaceFailed.

Section Description.
Context `{Platform} {M : Type} `{MemoryManagerOps M}.
(** The branching description type and [Branching::description] (virtual). *)
Context {BranchingDesc : Type}.
Variable branching_description : Z → Space M → BranchingDesc.

(** [Space::description] *)
Definition description (home : Space M) : Exception + BranchingDesc :=
    if negb (stable home) then inl SpaceNotStable
    else inr (branching_description (b_status home) home).

End Description.

(** ** Search::bab *)

Module Search.

(** The options of a search engine; only [threads] is used by the
      dispatch. *)
Record Options := mkOptions { threads : Z }.

(** The engine handed back by the dispatch: which [bab] created it, and
      with what arguments. *)
Inductive Engine :=
  | SequentialBab (s : Z) (sz : Z) (o : Options)
  | ParallelBab (s : Z) (sz : Z) (o : Options).

Definition is_sequential (e : Engine) : bool :=
    match e with SequentialBab _ _ _ => true | ParallelBab _ _ _ => false end.

Section Bab.
(** [GECODE_HAS_THREADS] *)
Variable has_threads : bool.
(** [Search::threads(o)], the translation of the options, defined with
        the options of the search module. *)
Variable translate : Options → Options.

(** [Search::bab] *)
Definition bab (s : Z) (sz : Z) (o : Options) : Engine :=
      if has_threads then
        let to := translate o in
        if threads to =? 1 then SequentialBab s sz to
        else ParallelBab s sz to
      else SequentialBab s sz o.
End Bab.

End Search.

(** ** The layout of the subscription array *)

Definition len {A : Type} (l : list A) : Z := Z.of_nat (length l).

(** A bucket after an actor has been entered below it, and after one has
    been removed below it. *)
Definition rot (l : list Z) : list Z :=
  match l with [] => [] | a :: t => t ++ [a] end.

Definition rotr (l : list Z) : list Z :=
  match reverse l with [] => [] | a :: t => a :: reverse t end.

Section Layout.
Context `{Platform} `{VarImpConf}.

(** The offset at which the subscribers for [pc] start; for [pc_max + 1]
    the offset at which the advisors start. *)
Definition bound (x : VarImp) (pc : Z) : Z :=
  if pc =? 0 then 0 else default 0 (u x !! Z.to_nat (pc - 1)).

Definition slice (x : VarImp) (lo hi : Z) : list Z :=
  take (Z.to_nat (hi - lo)) (drop (Z.to_nat lo) (slots x)).

(** The subscribers for propagation condition [pc], and the advisors. *)
Definition bucket (x : VarImp) (pc : Z) : list Z :=
  slice x (bound x pc) (bound x (pc + 1)).

Definition advisors (x : VarImp) : list Z :=
  slice x (bound x (pc_max + 1)) (entries x).

(** The number of free slots kept in [free_and_bits]. *)
Definition free_slots (x : VarImp) : Z := Z.shiftr (free_and_bits x) free_bits.

(** The partition boundaries are weakly increasing, from [0] up to
    [entries], and the used entries lie within the array. *)
Definition boundaries_ok (x : VarImp) : Prop :=
  (∀ pc, 0 <= pc <= pc_max → bound x pc <= bound x (pc + 1)) ∧
  bound x (pc_max + 1) <= entries x ∧
  entries x <= len (slots x).

(** No propagator is subscribed twice with the same propagation
    condition. *)
Definition no_duplicates (x : VarImp) : Prop :=
  ∀ pc, 0 <= pc <= pc_max → NoDup (bucket x pc).

(** The array holds the buckets [bs] in ascending order of propagation
    condition, then the advisors [adv], then the free slots: [fr] are those
    counted in [free_and_bits], [gap] are those already taken from the
    count while an actor is being entered. The boundaries are kept in
    [u.idx] and the number of used slots in [entries]. *)
Record layout (x : VarImp) (bs : list (list Z)) (adv gap fr : list Z) : Prop := {
  lay_conf : 0 <= pc_max ∧ 0 <= free_bits;
  lay_buckets : len bs = pc_max + 1;
  lay_words : len (u x) = u_words;
  lay_slots : slots x = concat bs ++ adv ++ gap ++ fr;
  lay_idx : ∀ k : nat, (k < length bs)%nat → u x !! k = Some (len (concat (take (S k) bs)));
  lay_entries : entries x = len (concat bs ++ adv);
  lay_free : free_slots x = len fr;
  lay_bits : 0 <= free_and_bits x < 2 ^ 32;
  lay_base : copied x = false ∧ (base x = NULL → slots x = [])
}.

(** A variable implementation in a space, outside of cloning. *)
Definition well_formed (x : VarImp) : Prop := ∃ bs adv fr, layout x bs adv [] fr.

(** The memory manager hands out blocks at addresses that are not null and
    not marked. *)
Definition fresh_ok {M : Type} `{MemoryManagerOps M} (home : Space M) : Prop :=
  ∀ s, (mm_alloc (mm home) s).1 ≠ NULL ∧ marked (mm_alloc (mm home) s).1 = false.

(** The array lies in the area of the space that is kept for
    subscriptions. *)
Definition in_subscriptions {M : Type} `{MemoryManagerOps M} (home : Space M) (x : VarImp) : bool :=
  (mm_subscriptions (mm home) <=? base x) &&
  (base x <? mm_subscriptions (mm home) + n_sub home * ptr_bytes).

(** The number of slots of the array after [resize] of an array with [n]
    used slots. *)
Definition grown {M : Type} `{MemoryManagerOps M} (home : Space M) (x : VarImp) : Z :=
  if base x =? NULL then 4
  else if in_subscriptions home x then entries x + 4
  else (3 * (entries x + 1)) / 2.

(** Sizes for which the unsigned arithmetic of [resize] does not wrap. *)
Definition small (x : VarImp) : Prop :=
  (3 * len (slots x) + 8) * 2 ^ free_bits < 2 ^ 32.

End Layout.

(** ** The state of a space and a variable implementation during [advise] *)

Section Advising.
Context `{Platform} `{VarImpConf} {M : Type} `{MemoryManagerOps M}.

(** The links of the advisors [l]: none of them is disposed, each is in a
    chain of advisors, and the chains of the space are closed. *)
Definition links_ok (home : Space M) (l : list Z) : Prop :=
  (∀ a, a ∈ l → ∃ p, l_prev home !! a = Some p ∧ p ≠ NULL) ∧
  (∀ a, a ∈ l → is_Some (l_next home !! a)) ∧
  (∀ a n, l_next home !! a = Some n → n ≠ NULL →
     is_Some (l_prev home !! n) ∧ is_Some (l_next home !! n)).

(** The iteration of [advise] stands at offset [la] and ends at offset
    [le]: the slots in between hold the advisors [rest] that are still to
    be run, all of which are still subscribed. *)
Record advising (home : Space M) (x : VarImp) (bs : list (list Z))
    (la le : Z) (rest : list Z) : Prop := {
  adv_layout : ∃ adv fr, layout x bs adv [] fr ∧ (∀ a, a ∈ rest → a ∈ adv);
  adv_small : small x;
  adv_pos : len (concat bs) <= la ∧ la + len rest = le;
  adv_rest : slice x la le = rest;
  adv_nodup : NoDup rest;
  adv_links : links_ok home rest;
  adv_queue : len (queue home) = PC_MAX + 1
}.

End Advising.

(** ** Concrete spaces and configurations used in examples *)

(** A configuration with three propagation conditions and two free bits. *)
Definition ExampleConf : VarImpConf := {|
  idx_c := 0; idx_d := 0; pc_max := 2; free_bits := 2;
  med_fst := 0; med_mask := 7;
  me_combine := Z.max;
  med_update := λ m me, (Z.lor m me, negb (Z.lor m me =? m)) |}.

(** A stable space without subscriptions: the queues lie at address 800,
    the heap starts at 1000, the subscription region at 5000. *)
Definition space0 : Space LogMM :=
  mkSpace (mkLogMM 1000 5000 []) (λ _, 0) [] 0 800 792 (replicate 8 []) 0 ∅ ∅ ∅.

(** A variable implementation without subscriptions. *)
Definition var0 : VarImp := mkVarImp NULL [] 0 0 [0; 0; 0].

(** Every propagator has cost [PC_LINEAR_LO]. *)
Definition cost4 : Z → Space LogMM → Z → Z := λ _ _ _, 4.

(** The variable implementation [var0] after propagator 11 has subscribed
    with propagation condition 0 in [space0], and that space. *)
Definition var1 : VarImp := mkVarImp 1000 [11; 0; 0; 0] 1 12 [1; 1; 1].

Definition space1 : Space LogMM :=
  mkSpace (mkLogMM 1032 5000 []) (λ _, 0) [] 0 800 792 (replicate 8 []) 1 ∅ ∅ ∅.

(** The same after propagator 11 has subscribed once more. *)
Definition var2 : VarImp := mkVarImp 1000 [11; 11; 0; 0] 2 8 [2; 2; 2].

Definition space2 : Space LogMM :=
  mkSpace (mkLogMM 1032 5000 []) (λ _, 0) [] 0 800 792 (replicate 8 []) 2 ∅ ∅ ∅.

(** A variable implementation with propagator 11 subscribed with
    propagation condition 0, and the advisor 21. *)
Definition var3 : VarImp := mkVarImp 1000 [11; 21; 0; 0] 2 8 [1; 1; 1].

(** A variable implementation whose array of four slots is full and lies
    outside of the area for subscriptions, in a space with four
    subscriptions. *)
Definition var4 : VarImp := mkVarImp 1000 [14; 11; 13; 12] 4 0 [2; 3; 4].

Definition space4 : Space LogMM :=
  mkSpace (mkLogMM 1032 5000 []) (λ _, 0) [] 0 800 792 (replicate 8 []) 4 ∅ ∅ ∅.

(** A variable implementation with propagator 11 subscribed with
    propagation condition 0 and the advisors 21, 22 and 23 of propagator
    11, and its space. *)
Definition var5 : VarImp := mkVarImp 1000 [11; 21; 22; 23] 4 0 [1; 1; 1].

Definition space5 : Space LogMM :=
  mkSpace (mkLogMM 1032 5000 []) (λ _, 0) [] 0 800 792 (replicate 8 []) 4 ∅
    (<[21 := 11]> (<[22 := 11]> (<[23 := 11]> ∅)))
    (<[21 := 22]> (<[22 := 23]> (<[23 := NULL]> ∅))).

(** The advise function of propagator 11, run for a delta with the event
    [ME_GEN_ASSIGNED]: advisor 22 is subsumed and cancels its subscription,
    advisor 23 asks for its propagator to be run. Every other advise
    function, and every other delta, gives failure. *)
Definition react5 (p a : Z) (d : Delta) : Reaction :=
  if (p =? 11) && (d_me d =? ME_GEN_ASSIGNED) then
    if a =? 22 then RSubsumedFix true else if a =? 23 then RNofix else RFix
  else RFailed.

(** ** Further members of a variable implementation *)

Section VarImpMore.
Context `{Platform} `{VarImpConf} {M : Type} `{MemoryManagerOps M}.
Variable cost : Z → Space M → Z → Z.

(** [VarImp::cancel(home)]: all subscriptions are cancelled at once and the
    array is given back; [free_and_bits] and the boundaries in [u.idx] are
    left as they are. *)
Definition cancel_all (home : Space M) (x : VarImp) : option (Space M * VarImp) :=
  n_s ← degree x;
  let home1 := set_n_sub home (u32 (n_sub home - n_s)) in
  let n := u32 (Z.shiftr (free_and_bits x) free_bits + n_s) in
  let home2 := free_ptrs home1 (base x) n in
  Some (home2, mkVarImp NULL [] 0 (free_and_bits x) (u x)).

(** Sizes for which the unsigned arithmetic does not wrap on an array that
    has been resized once more. *)
Definition roomy (x : VarImp) : Prop :=
  (6 * len (slots x) + 20) * 2 ^ free_bits < 2 ^ 32.

(** [VarImp::me]: the modification event of this variable type in a
    modification event delta. *)
Definition VarImp_me (d : Z) : Z := Z.shiftr (Z.land d med_mask) med_fst.

(** [VarImp::med]: the modification event delta for a modification event,
    which is the event shifted to the bits of this variable type. No check
    is made on the event. *)
Definition VarImp_med (me : Z) : Z := Z.shiftl me med_fst.

(** [for (pc = from; n rounds; pc++) idx(pc) = 0] *)
Fixpoint zero_idx (n : nat) (pc : Z) (x : VarImp) : option VarImp :=
  match n with
  | O => Some x
  | S n' => x1 ← set_idx x pc 0; zero_idx n' (pc + 1) x1
  end.

(** [VarImp::VarImp(Space&)] and [VarImp::VarImp(void)]: the object is
    built over memory whose union holds the words [raw]. *)
Definition VarImp_new (raw : list Z) : option VarImp :=
  x ← zero_idx (Z.to_nat (pc_max + 1)) 1 (mkVarImp NULL [] 0 0 raw);
  Some (set_free_and_bits x 0).

(** [while (p-- > b) schedule(home,*p,me)] *)
Fixpoint schedule_loop (n : nat) (x : VarImp) (b p me : Z) (home : Space M)
    : option (Space M) :=
  if p >? b then
    match n with
    | O => None
    | S n' =>
      a ← load x (p - 1);
      home1 ← schedule cost home a me;
      schedule_loop n' x b (p - 1) me home1
    end
  else Some home.

(** [VarImp::schedule(home,pc1,pc2,me)] *)
Definition schedule_range (home : Space M) (x : VarImp) (pc1 pc2 me : Z)
    : option (Space M) :=
  b ← actor x pc1;
  p ← actorNonZero x (pc2 + 1);
  schedule_loop (Z.to_nat (p - b)) x b p me home.

(** Scheduling the propagators of a list, one after the other. *)
Fixpoint schedule_all (l : list Z) (me : Z) (home : Space M) : option (Space M) :=
  match l with
  | [] => Some home
  | a :: r => home1 ← schedule cost home a me; schedule_all r me home1
  end.

End VarImpMore.

(** ** Further members of shared handles *)

(** [SharedHandle::object(n)]: the handle at [h] is made to refer to the
    object at [n]. *)
Definition SharedHandle_object (hp : SharedHandle.Heap) (h n : Z)
    : option SharedHandle.Heap :=
  o ← SharedHandle.handles hp !! h;
  if negb (n =? o) then
    hp1 ← SharedHandle.cancel hp h;
    SharedHandle.subscribe (SharedHandle.put_object hp1 h n) h
  else Some hp.

(** ** Actor links *)

Module ActorLink.

(** The members [_prev] and [_next] of the actor links in memory, by the
    address of the link. A member that has not been written yet has no
    entry; a write through the null pointer is undefined. *)
Record Links := mkLinks {
  prev : gmap Z Z;
  next : gmap Z Z
}.

(** [ActorLink::prev(al)] and [ActorLink::next(al)] on the link at [a]. *)
Definition set_prev (lk : Links) (a al : Z) : option Links :=
  if a =? NULL then None else Some (mkLinks (<[a := al]> (prev lk)) (next lk)).

Definition set_next (lk : Links) (a al : Z) : option Links :=
  if a =? NULL then None else Some (mkLinks (prev lk) (<[a := al]> (next lk))).

(** [ActorLink::unlink] *)
Definition unlink (lk : Links) (this : Z) : option Links :=
  p ← prev lk !! this;
  n ← next lk !! this;
  lk1 ← set_next lk p n;
  set_prev lk1 n p.

(** [ActorLink::init] *)
Definition init (lk : Links) (this : Z) : option Links :=
  lk1 ← set_next lk this this;
  set_prev lk1 this this.

(** [ActorLink::head]: [a] is put after [this]. *)
Definition head (lk : Links) (this a : Z) : option Links :=
  n ← next lk !! this;
  lk1 ← set_next lk this a;
  lk2 ← set_prev lk1 a this;
  lk3 ← set_next lk2 a n;
  set_prev lk3 n a.

(** [ActorLink::tail]: [a] is put before [this]. *)
Definition tail (lk : Links) (this a : Z) : option Links :=
  p ← prev lk !! this;
  lk1 ← set_next lk a this;
  lk2 ← set_prev lk1 this a;
  lk3 ← set_next lk2 p a;
  set_prev lk3 a p.

(** [b] follows [a], and [a] precedes [b]. *)
Definition linked (lk : Links) (a b : Z) : Prop :=
  next lk !! a = Some b ∧ prev lk !! b = Some a.

(** The links lead from [a] through [l] to [b]. *)
Fixpoint path (lk : Links) (a : Z) (l : list Z) (b : Z) : Prop :=
  match l with
  | [] => linked lk a b
  | x :: r => linked lk a x ∧ path lk x r b
  end.

(** The chain whose sentinel is the link at [s] holds the links [l], from
    head to tail. *)
Definition ring (lk : Links) (s : Z) (l : list Z) : Prop :=
  NoDup (s :: l) ∧ (NULL ∉ s :: l) ∧ path lk s l s.

End ActorLink.

(** The chain of the sentinel 10 with the links 11 and 12. *)
Definition chain2 : ActorLink.Links :=
  ActorLink.mkLinks {[ 10 := 12; 11 := 10; 12 := 11 ]} {[ 10 := 11; 11 := 12; 12 := 10 ]}.

(** ** Councils of advisors *)

(** [Council<A>]: the first advisor of the chain of its advisors. *)
Record Council := mkCouncil { c_advisors : Z }.

Section Councils.
Context `{Platform} {M : Type} `{MemoryManagerOps M}.

(** [Advisor::Advisor(Space&, Propagator& p, Council<A>& c)], for the
    advisor at [a]. *)
Definition Advisor_new (home : Space M) (a p : Z) (c : Council) : Space M * Council :=
  let home1 := set_l_prev home (<[a := p]> (l_prev home)) in
  (set_l_next home1 (<[a := c_advisors c]> (l_next home1)), mkCouncil a).

(** [while ((a != NULL) && a->disposed()) a = a->next()] *)
Fixpoint skip_loop (fuel : nat) (home : Space M) (a : Z) : option Z :=
  match fuel with
  | O => None
  | S fuel' =>
    if a =? NULL then Some a else
    d ← disposed home a;
    if (d : bool) then n ← l_next home !! a; skip_loop fuel' home n
    else Some a
  end.

(** The loops over a chain of advisors end when the chain does; a chain
    has no more advisors than there are in the space, which bounds the
    number of rounds. On a chain that runs in a circle the loops of the
    kernel do not end, and there is no result. *)
Definition rounds (home : Space M) : nat := S (size (l_next home)).

Definition skip_disposed (home : Space M) (a : Z) : option Z :=
  skip_loop (rounds home) home a.

(** [Council::empty]; [advisors] is mutable. *)
Definition Council_empty (home : Space M) (c : Council) : option (bool * Council) :=
  a ← skip_disposed home (c_advisors c);
  Some (a =? NULL, mkCouncil a).

(** [Advisors<A>::Advisors(const Council<A>&)]: the iterator is the
    advisor it stands at. *)
Definition Advisors_init (home : Space M) (c : Council) : option Z :=
  skip_disposed home (c_advisors c).

(** [Advisors<A>::operator ()] *)
Definition Advisors_valid (a : Z) : bool := negb (a =? NULL).

(** [Advisors<A>::operator ++] *)
Definition Advisors_inc (home : Space M) (a : Z) : option Z :=
  if a =? NULL then None else
  n ← l_next home !! a;
  skip_disposed home n.

(** [for (Advisors<A> as(c); as(); ++as)], collecting [as.advisor()]. *)
Fixpoint Advisors_collect (fuel : nat) (home : Space M) (a : Z) : option (list Z) :=
  match fuel with
  | O => None
  | S fuel' =>
    if Advisors_valid a then
      n ← Advisors_inc home a;
      r ← Advisors_collect fuel' home n;
      Some (a :: r)
    else Some []
  end.

Definition Advisors_all (home : Space M) (c : Council) : option (list Z) :=
  a ← Advisors_init home c;
  Advisors_collect (rounds home) home a.

(** The loop of [Council::dispose], for advisors whose [dispose] is
    [Advisor::dispose]. *)
Fixpoint Council_dispose_loop (fuel : nat) (home : Space M) (a : Z) : option (Space M) :=
  match fuel with
  | O => None
  | S fuel' =>
    if a =? NULL then Some home else
    d ← disposed home a;
    home1 ← (if (d : bool) then Some home else Advisor_dispose home a);
    n ← l_next home1 !! a;
    Council_dispose_loop fuel' home1 n
  end.

(** [Council::dispose] *)
Definition Council_dispose (home : Space M) (c : Council) : option (Space M) :=
  Council_dispose_loop (rounds home) home (c_advisors c).

(** The links [_next] lead from [a] through the advisors [l] to the null
    pointer, and every advisor of [l] has been constructed. *)
Fixpoint chain (home : Space M) (a : Z) (l : list Z) : Prop :=
  match l with
  | [] => a = NULL
  | x :: r =>
    a = x ∧ x ≠ NULL ∧ is_Some (l_prev home !! x) ∧
    ∃ n, l_next home !! x = Some n ∧ chain home n r
  end.

(** The advisors of a list that are not disposed. *)
Definition live (home : Space M) (l : list Z) : list Z :=
  filter (λ a, l_prev home !! a ≠ Some NULL) l.

End Councils.

(** The space [space5] after advisor 22 has been disposed, and the council
    of the advisors 21, 22 and 23. *)
Definition space6 : Space LogMM :=
  mkSpace (mkLogMM 1032 5000 []) (λ _, 0) [] 0 800 792 (replicate 8 []) 3 ∅
    (<[21 := 11]> (<[22 := NULL]> (<[23 := 11]> ∅)))
    (<[21 := 22]> (<[22 := 23]> (<[23 := NULL]> ∅))).

Definition council6 : Council := mkCouncil 21.

(** ** Actor properties: forced disposal, weak monotonicity *)

(** [enum ActorProperty] *)
Definition AP_DISPOSE : Z := 1.
Definition AP_WEAKLY : Z := 2.

(** The members of a space that [notice] and [ignore] work on: [d_fst] is
    the address of the array of the actors for forced disposal (null once
    the array has been discarded), [d_arr] is this array from [d_fst] to
    [d_lst], [d_cur] is the number of entries in use, [n_wmp] counts the
    weakly monotonic propagators. *)
Record Disposal := mkDisposal {
  d_fst : Z;
  d_arr : list Z;
  d_cur : Z;
  n_wmp : Z
}.

Definition set_n_wmp (d : Disposal) (n : Z) : Disposal :=
  mkDisposal (d_fst d) (d_arr d) (d_cur d) n.

(** The actors that are registered for forced disposal. *)
Definition registered (d : Disposal) : list Z := take (Z.to_nat (d_cur d)) (d_arr d).

(** The number of weakly monotonic propagators that [n_wmp] stands for:
    none for zero and one, and otherwise one less than the value. *)
Definition weakly_count (n : Z) : Z := if n <=? 1 then 0 else n - 1.

Section Notice.
(** [Space::d_resize], defined with the space in [core.cpp]. *)
Variable d_resize : Disposal → Disposal.

(** [Space::notice] *)
Definition notice (d : Disposal) (a p : Z) : option Disposal :=
  d1 ← (if negb (Z.land p AP_DISPOSE =? 0) then
          let d' := if d_cur d =? len (d_arr d) then d_resize d else d in
          if (0 <=? d_cur d') && (d_cur d' <? len (d_arr d'))
          then Some (mkDisposal (d_fst d') (<[Z.to_nat (d_cur d') := a]> (d_arr d'))
                       (d_cur d' + 1) (n_wmp d'))
          else None
        else Some d);
  Some (if negb (Z.land p AP_WEAKLY =? 0)
        then set_n_wmp d1 (if n_wmp d1 =? 0 then 2 else u32 (n_wmp d1 + 1))
        else d1).

(** [Space::ignore] *)
Definition ignore (d : Disposal) (a p : Z) : option Disposal :=
  d1 ← (if negb (Z.land p AP_DISPOSE =? 0) then
          if d_fst d =? NULL then Some d else
          f ← scan a (d_arr d) 0;
          let cur := d_cur d - 1 in
          v ← (if 0 <=? cur then d_arr d !! Z.to_nat cur else None);
          Some (mkDisposal (d_fst d) (<[Z.to_nat f := v]> (d_arr d)) cur (n_wmp d))
        else Some d);
  Some (if negb (Z.land p AP_WEAKLY =? 0)
        then set_n_wmp d1 (if n_wmp d1 =? 2 then 0 else u32 (n_wmp d1 - 1))
        else d1).

End Notice.

(** ** Typed reallocation *)

Section Realloc.
Context `{Platform} {M : Type} `{MemoryManagerOps M}.

(** [Space::realloc(T** b, unsigned int n, unsigned int m)], where [sizeT]
    is [sizeof(T)]. *)
Definition realloc_ptrs (sizeT : Z) (home : Space M) (b n m : Z) : Z * Space M :=
  rrealloc home b (usize (n * sizeT)) (usize (m * ptr_bytes)).

End Realloc.

(** ** Creating propagators and branchings *)

(** The members of a space that the constructors of propagators and
    branchings work on, with the members of the actors they set. *)
Record Actors := mkActors {
  ac_links : ActorLink.Links;   (* _prev and _next of the actor links *)
  ac_a_actors : Z;              (* &a_actors *)
  ac_b_status : Z;              (* b_status *)
  ac_b_commit : Z;              (* b_commit *)
  ac_branch_id : Z;             (* pc.p.branch_id *)
  ac_id : gmap Z Z;             (* id of the branchings *)
  ac_advisors : gmap Z Z        (* u.advisors of the propagators *)
}.

(** [Propagator::Propagator(Space& home)]; the assertion reads the null
    pointer just stored through the other members of the union. *)
Definition Propagator_new (st : Actors) (this : Z) : option Actors :=
  lk ← ActorLink.head (ac_links st) (ac_a_actors st) this;
  Some (mkActors lk (ac_a_actors st) (ac_b_status st) (ac_b_commit st)
          (ac_branch_id st) (ac_id st) (<[this := NULL]> (ac_advisors st))).

(** [Branching::Branching(Space& home)] *)
Definition Branching_new (st : Actors) (this : Z) : option Actors :=
  let id := <[this := ac_branch_id st]> (ac_id st) in
  let branch_id := u32 (ac_branch_id st + 1) in
  let none := ac_b_status st =? ac_a_actors st in
  let b_status := if none then this else ac_b_status st in
  let b_commit := if none && (ac_b_commit st =? ac_a_actors st)
                  then this else ac_b_commit st in
  lk ← ActorLink.tail (ac_links st) (ac_a_actors st) this;
  Some (mkActors lk (ac_a_actors st) b_status b_commit branch_id id (ac_advisors st)).

(** An actor to be created at an address. *)
Inductive Creation := NewPropagator (a : Z) | NewBranching (a : Z).

Definition created (c : Creation) : Z :=
  match c with NewPropagator a => a | NewBranching a => a end.

(** The actors of [cs] are created one after the other. *)
Fixpoint create (st : Actors) (cs : list Creation) : option Actors :=
  match cs with
  | [] => Some st
  | NewPropagator a :: r => st1 ← Propagator_new st a; create st1 r
  | NewBranching a :: r => st1 ← Branching_new st a; create st1 r
  end.

(** The propagators of [cs], the last one first, and its branchings, the
    first one first. *)
Fixpoint propagators_of (cs : list Creation) : list Z :=
  match cs with
  | [] => []
  | NewPropagator a :: r => propagators_of r ++ [a]
  | NewBranching _ :: r => propagators_of r
  end.

Fixpoint branchings_of (cs : list Creation) : list Z :=
  match cs with
  | [] => []
  | NewPropagator _ :: r => branchings_of r
  | NewBranching a :: r => a :: branchings_of r
  end.

(** A space with no actors, whose chain of actors has been initialised. *)
Definition actors0 : Actors :=
  mkActors (ActorLink.mkLinks {[ 10 := 10 ]} {[ 10 := 10 ]}) 10 10 10 0 ∅ ∅.

(** * Properties *)

(** ** Failure and stability *)

Section SpaceFacts.
Context `{Platform} {M : Type} `{MemoryManagerOps M}.

Lemma queue_addr_0 (home : Space M) : queue_addr home 0 = queue_base home.
Proof. unfold queue_addr. lia. Qed.

Lemma failed_spec (home : Space M) : failed home = true ↔ active home = NULL.
Proof. unfold failed. apply Z.eqb_eq. Qed.

Lemma stable_spec (home : Space M) : stable home = true ↔ active home < queue_base home.
Proof. unfold stable. rewrite queue_addr_0. apply Z.ltb_lt. Qed.

Lemma null_below_queues (home : Space M) :
  NULL < queue_addr home 0 → failed home = true → stable home = true.
Proof.
  rewrite queue_addr_0, failed_spec, stable_spec. intros Hq ->. exact Hq.
Qed.

(** C10: a failed space is stable, since the null pointer lies below the
    address of the first queue (the queues are a member of the space, so
    their address is not null); after [fail] both [failed] and [stable]
    hold. *)
Theorem failed_implies_stable (home : Space M) :
  NULL < queue_addr home 0 →
  (failed home = true → stable home = true) ∧
  failed (fail home) = true ∧ stable (fail home) = true.
Proof.
  rewrite queue_addr_0. intros Hq. split; [|split].
  - rewrite failed_spec, stable_spec. intros ->. exact Hq.
  - by apply failed_spec.
  - apply stable_spec. exact Hq.
Qed.

End SpaceFacts.

Lemma failed_implies_stable_witness :
  NULL < queue_addr space0 0 ∧
  (failed space0 = true → stable space0 = true) ∧
  failed (fail space0) = true ∧ stable (fail space0) = true.
Proof.
  split; [reflexivity|]. apply (failed_implies_stable space0). reflexivity.
Defined.

(** ** Space::description *)

Section DescriptionFacts.
Context `{Platform} {M : Type} `{MemoryManagerOps M} {BranchingDesc : Type}.
Variable branching_description : Z → Space M → BranchingDesc.

(** C3, as the code has it: [description] signals [SpaceNotStable] exactly
    when the space is not stable; a stable space, and with it a failed one,
    is handed to the description member of the current branching. *)
Theorem description_not_stable (home : Space M) :
  NULL < queue_addr home 0 →
  (description branching_description home = inl SpaceNotStable ↔ stable home = false) ∧
  (stable home = true →
     description branching_description home
     = inr (branching_description (b_status home) home)) ∧
  (failed home = true →
     description branching_description home
     = inr (branching_description (b_status home) home)).
Proof.
  intros Hq. unfold description.
  split; [|split].
  - destruct (stable home); simpl; split; congruence.
  - intros ->. reflexivity.
  - intros Hf. rewrite (null_below_queues home Hq Hf). reflexivity.
Qed.

End DescriptionFacts.

(** C3: the claim fails for a failed space: it is stable, and [description]
    asks the branching rather than signalling [SpaceNotStable]. *)
Lemma description_failed_counterexample :
  failed (fail space0) = true ∧
  description (λ b _, b) (fail space0) = inr 0 ∧
  description (λ b _, b) (fail space0) ≠ inl SpaceNotStable.
Proof. split; [reflexivity|]. split; [reflexivity|discriminate]. Qed.

Lemma description_not_stable_witness :
  NULL < queue_addr space0 0 ∧
  (description (λ b _, b) space0 = inl SpaceNotStable ↔ stable space0 = false).
Proof.
  split; [reflexivity|].
  apply (description_not_stable (λ b (_ : Space LogMM), b) space0). reflexivity.
Defined.

(** ** Search::bab *)

(** The dispatch as the code has it: without thread support the engine is
    the sequential one, built from the options as given; with thread
    support the engine is built from the translated options, and it is the
    sequential one exactly when the translated number of threads is one. *)
Lemma bab_engine (has_threads : bool) (translate : Search.Options → Search.Options)
    (s sz : Z) (o : Search.Options) :
  Search.bab has_threads translate s sz o =
    (if has_threads
     then if Search.threads (translate o) =? 1
          then Search.SequentialBab s sz (translate o)
          else Search.ParallelBab s sz (translate o)
     else Search.SequentialBab s sz o) ∧
  Search.is_sequential (Search.bab has_threads translate s sz o) =
    negb has_threads || (Search.threads (translate o) =? 1).
Proof.
  unfold Search.bab. destruct has_threads; simpl; [|done].
  destruct (Search.threads (translate o) =? 1); done.
Qed.

Section BabDispatch.
(** [GECODE_HAS_THREADS] *)
Variable has_threads : bool.
(** [Search::threads], which is not part of the dispatch: what it yields
    is a number of threads to run, which is at least one. *)
Variable translate : Search.Options → Search.Options.
Hypothesis translate_threads : ∀ o, 1 <= Search.threads (translate o).


End BabDispatch.


(** ** Space::rrealloc *)

Section ReallocFacts.
Context `{Platform} {M : Type} `{MemoryManagerOps M}.

(** Growing: a fresh block of [m] bytes, the first [n] bytes copied, the
    old block given back. *)
Lemma rrealloc_grow (home : Space M) (b n m : Z) :
  n < m →
  let p := (mm_alloc (mm home) m).1 in
  (rrealloc home b n m).1 = p ∧
  mm (rrealloc home b n m).2 = mm_reuse (mm_alloc (mm home) m).2 b n ∧
  ∀ i, 0 <= i < n → bytes (rrealloc home b n m).2 (p + i) = bytes home (b + i).
Proof.
  intros Hnm. unfold rrealloc, ralloc.
  apply Z.ltb_lt in Hnm as ->.
  destruct (mm_alloc (mm home) m) as [p m1] eqn:Ha. simpl.
  split; [done|]. split; [done|].
  intros i Hi. unfold memcpy.
  replace (p + i - p) with i by lia.
  destruct (Z.leb_spec p (p + i)); [|lia].
  destruct (Z.ltb_spec (p + i) (p + n)); [|lia]. reflexivity.
Qed.

(** Shrinking: the block stays, and the request to the memory manager is
    for the address [b + m] with the size [m - n], taken as a [size_t]. *)
Lemma rrealloc_shrink (home : Space M) (b n m : Z) :
  m <= n →
  rrealloc home b n m = (b, rfree home (b + m) (usize (m - n))).
Proof.
  intros Hmn. unfold rrealloc.
  destruct (Z.ltb_spec n m); [lia|]. reflexivity.
Qed.

End ReallocFacts.

(** C2: shrinking a block of 16 bytes at address 1000 to 8 bytes gives back
    [2^64 - 8] bytes at address 1008, not the 8 trailing bytes. *)
Theorem rrealloc_shrink_size :
  rrealloc space0 1000 16 8 =
    (1000, set_mm space0 (mkLogMM 1000 5000 [(1008, 2 ^ 64 - 8)])) ∧
  lm_reused (mm (rrealloc space0 1000 16 8).2) ≠ [(1008, 16 - 8)].
Proof. split; [reflexivity|]. vm_compute. discriminate. Qed.

(** ** Lists: lengths, rotations, holes *)

Lemma len_app {A} (l1 l2 : list A) : len (l1 ++ l2) = len l1 + len l2.
Proof. unfold len. rewrite length_app. lia. Qed.

Lemma len_nonneg {A} (l : list A) : 0 <= len l.
Proof. unfold len. lia. Qed.

Lemma len_cons {A} (a : A) (l : list A) : len (a :: l) = 1 + len l.
Proof. unfold len. simpl. lia. Qed.

Lemma len_nil {A} : len (@nil A) = 0.
Proof. reflexivity. Qed.

Lemma to_nat_len {A} (l : list A) : Z.to_nat (len l) = length l.
Proof. unfold len. lia. Qed.

Lemma rot_length (l : list Z) : length (rot l) = length l.
Proof. destruct l; simpl; [done|]. rewrite length_app. simpl. lia. Qed.

Lemma rot_perm (l : list Z) : rot l ≡ₚ l.
Proof. destruct l; simpl; [done|]. by rewrite Permutation_app_comm. Qed.

Lemma rotr_snoc (l : list Z) (a : Z) : rotr (l ++ [a]) = a :: l.
Proof. unfold rotr. rewrite reverse_snoc. by rewrite reverse_involutive. Qed.

Lemma rotr_length (l : list Z) : length (rotr l) = length l.
Proof.
  destruct l as [|b l] using rev_ind; [done|].
  rewrite rotr_snoc. rewrite length_app. simpl. lia.
Qed.

Lemma rotr_perm (l : list Z) : rotr l ≡ₚ l.
Proof.
  destruct l as [|b l] using rev_ind; [done|].
  rewrite rotr_snoc. by rewrite Permutation_app_comm.
Qed.

Lemma concat_rot_length (bs : list (list Z)) : length (concat (rot <$> bs)) = length (concat bs).
Proof.
  induction bs as [|b bs IH]; [done|]. rewrite fmap_cons. simpl.
  rewrite !length_app, rot_length, IH. done.
Qed.

(** Moving the hole behind a bucket to its front. *)
Lemma hole_up (L B R : list Z) (h : Z) :
  (L ++ B ++ h :: R) !! length L = Some (default h (head B)) ∧
  <[length (L ++ B) := default h (head B)]> (L ++ B ++ h :: R)
  = L ++ default h (head B) :: rot B ++ R.
Proof.
  split.
  - rewrite lookup_app_r by lia. rewrite Nat.sub_diag. by destruct B.
  - rewrite length_app. rewrite insert_app_r. f_equal.
    destruct B as [|b B]; simpl; [done|].
    f_equal. replace (length B) with (length B + 0)%nat by lia.
    rewrite insert_app_r. simpl. by rewrite <- app_assoc.
Qed.

(** Moving the hole in front of a bucket behind it. *)
Lemma hole_down (L B R : list Z) (h : Z) :
  (L ++ h :: B ++ R) !! length (L ++ B) = Some (default h (last B)) ∧
  <[length L := default h (last B)]> (L ++ h :: B ++ R)
  = L ++ rotr B ++ default h (last B) :: R.
Proof.
  split.
  - rewrite length_app. rewrite lookup_app_r by lia.
    replace (length L + length B - length L)%nat with (length B) by lia.
    destruct B as [|b B] using rev_ind; [done|].
    rewrite last_snoc. simpl. rewrite <- app_assoc. simpl.
    rewrite length_app. simpl.
    replace (length B + 1)%nat with (S (length B)) by lia. simpl.
    rewrite lookup_app_r by lia. by rewrite Nat.sub_diag.
  - replace (length L) with (length L + 0)%nat at 1 by lia.
    rewrite insert_app_r. f_equal. simpl.
    destruct B as [|b B] using rev_ind; [done|].
    rewrite last_snoc, rotr_snoc. simpl. by rewrite <- app_assoc.
Qed.

(** ** The accessors of a variable implementation *)

Section EnterFacts.
Context {PF : Platform} {VIC : VarImpConf}.

Lemma actorNonZero_eq (x : VarImp) (pc : Z) :
  0 < pc < pc_max + 2 → actorNonZero x pc = u x !! Z.to_nat (pc - 1).
Proof.
  intros Hpc. unfold actorNonZero.
  destruct (Z.ltb_spec 0 pc); [|lia]. destruct (Z.ltb_spec pc (pc_max + 2)); [|lia]. done.
Qed.

Lemma idx_eq (x : VarImp) (pc : Z) :
  0 < pc < pc_max + 2 → idx x pc = u x !! Z.to_nat (pc - 1).
Proof. apply actorNonZero_eq. Qed.

Lemma actor_eq (x : VarImp) (pc : Z) :
  0 <= pc < pc_max + 2 → actor x pc = Some (bound x pc) ∨ (pc ≠ 0 ∧ actor x pc = None ∧ u x !! Z.to_nat (pc - 1) = None).
Proof.
  intros Hpc. unfold actor, bound.
  destruct (Z.leb_spec 0 pc); [|lia]. destruct (Z.ltb_spec pc (pc_max + 2)); [|lia]. simpl.
  destruct (Z.eqb_spec pc 0); [by left|].
  destruct (u x !! Z.to_nat (pc - 1)); [by left|by right].
Qed.

Lemma set_idx_eq (x : VarImp) (pc v : Z) :
  0 < pc < pc_max + 2 → pc - 1 < len (u x) →
  set_idx x pc v = Some (set_u x (<[Z.to_nat (pc - 1) := v]> (u x))).
Proof.
  intros Hpc Hl. unfold set_idx. unfold len in Hl.
  destruct (Z.ltb_spec 0 pc); [|lia]. destruct (Z.ltb_spec pc (pc_max + 2)); [|lia].
  destruct (Z.ltb_spec (pc - 1) (Z.of_nat (length (u x)))); [|lia]. done.
Qed.

Lemma load_eq (x : VarImp) (i : Z) : 0 <= i → load x i = slots x !! Z.to_nat i.
Proof. intros Hi. unfold load. destruct (Z.leb_spec 0 i); [done|lia]. Qed.

Lemma store_eq (x : VarImp) (i v : Z) :
  0 <= i < len (slots x) → store x i v = Some (set_slots x (<[Z.to_nat i := v]> (slots x))).
Proof.
  intros Hi. unfold store. unfold len in Hi.
  destruct (Z.leb_spec 0 i); [|lia].
  destruct (Z.ltb_spec i (Z.of_nat (length (slots x)))); [done|lia].
Qed.

Lemma u32_small (v : Z) : 0 <= v < 2 ^ 32 → u32 v = v.
Proof. intros Hv. unfold u32. by apply Z.mod_small. Qed.

Lemma shift_up_spec (x : VarImp) (j : Z) (L B R : list Z) (h : Z) :
  0 < j <= pc_max →
  u x !! Z.to_nat (j - 1) = Some (len L) →
  u x !! Z.to_nat j = Some (len (L ++ B)) →
  slots x = L ++ B ++ h :: R →
  len (slots x) < 2 ^ 32 →
  shift_up x j =
    Some (mkVarImp (base x) (L ++ default h (head B) :: rot B ++ R) (entries x)
            (free_and_bits x) (<[Z.to_nat j := len (L ++ B) + 1]> (u x))).
Proof.
  intros Hj Hs He Hsl Hsz.
  destruct (hole_up L B R h) as [Hrd Hwr].
  unfold shift_up.
  rewrite (actorNonZero_eq x j) by lia. rewrite Hs. simpl.
  rewrite load_eq by apply len_nonneg. rewrite to_nat_len, Hsl, Hrd. simpl.
  rewrite (actorNonZero_eq x (j + 1)) by lia. replace (j + 1 - 1) with j by lia. rewrite He. simpl.
  assert (Hlt : len (L ++ B) < len (slots x)).
  { rewrite Hsl. rewrite !len_app, len_cons. pose proof (len_nonneg R). lia. }
  rewrite store_eq by (rewrite Hsl; split; [apply len_nonneg|by rewrite <- Hsl]).
  simpl. rewrite idx_eq by lia. simpl. replace (j + 1 - 1) with j by lia. rewrite He. simpl.
  rewrite set_idx_eq; [|lia|].
  2:{ simpl. apply lookup_lt_Some in He. unfold len. lia. }
  simpl. replace (j + 1 - 1) with j by lia.
  unfold set_u, set_slots; simpl. rewrite to_nat_len, Hsl, Hwr.
  rewrite u32_small by (pose proof (len_nonneg (L ++ B)); lia).
  reflexivity.
Qed.

Lemma enter_loop_spec (n : nat) :
  ∀ (x : VarImp) (pc : Z) (L : list Z) (mids : list (list Z)) (h : Z) (R : list Z),
  0 <= pc → pc + Z.of_nat n <= pc_max →
  length mids = n →
  slots x = L ++ concat mids ++ h :: R →
  (∀ k : nat, (k ≤ n)%nat →
     u x !! (Z.to_nat pc + k)%nat = Some (len (L ++ concat (take k mids)))) →
  len (slots x) < 2 ^ 32 →
  ∃ h' w,
    enter_loop n pc x =
      Some (mkVarImp (base x) (L ++ h' :: concat (rot <$> mids) ++ R) (entries x)
              (free_and_bits x) w) ∧
    length w = length (u x) ∧
    ∀ i : nat, w !! i =
      if decide (Z.to_nat pc < i ≤ Z.to_nat pc + n)%nat
      then (λ v, v + 1) <$> (u x !! i) else u x !! i.
Proof.
  induction n as [|n IH]; intros x pc L mids h R Hpc Hmax Hlen Hsl Hu Hsz.
  - destruct mids; [|done]. simpl in *. exists h, (u x). split; [|split].
    + rewrite <- Hsl. by destruct x.
    + done.
    + intros i. case_decide; [lia|done].
  - destruct mids as [|B mids' _] using rev_ind; [done|].
    rewrite length_app in Hlen. simpl in Hlen.
    assert (Hlen' : length mids' = n) by lia. clear Hlen.
    rewrite concat_app in Hsl. simpl in Hsl. rewrite app_nil_r in Hsl.
    assert (Hs : u x !! Z.to_nat (pc + Z.of_nat (S n) - 1) = Some (len (L ++ concat mids'))).
    { replace (Z.to_nat (pc + Z.of_nat (S n) - 1)) with (Z.to_nat pc + n)%nat by lia.
      rewrite Hu by lia. rewrite take_app_length' by done. done. }
    assert (He : u x !! Z.to_nat (pc + Z.of_nat (S n)) = Some (len ((L ++ concat mids') ++ B))).
    { replace (Z.to_nat (pc + Z.of_nat (S n))) with (Z.to_nat pc + S n)%nat by lia.
      rewrite Hu by lia. rewrite take_ge by (rewrite length_app; simpl; lia).
      rewrite concat_app. simpl. rewrite app_nil_r. by rewrite app_assoc. }
    cbn [enter_loop].
    rewrite (shift_up_spec x _ (L ++ concat mids') B R h); try done; [|lia|].
    2:{ rewrite Hsl. by rewrite <- !app_assoc. }
    simpl.
    set (x1 := mkVarImp _ _ _ _ _).
    destruct (IH x1 pc L mids' (default h (head B)) (rot B ++ R)) as (h' & w & Hrun & Hwl & Hw);
      try done; try lia.
    + unfold x1. simpl. by rewrite <- !app_assoc.
    + intros k Hk. unfold x1. simpl.
      rewrite list_lookup_insert_ne by lia.
      rewrite Hu by lia. rewrite take_app_le by lia. done.
    + unfold x1. simpl. rewrite Hsl in Hsz. unfold len in *.
      rewrite !length_app in *. simpl in *. rewrite !length_app in *.
      rewrite rot_length. lia.
    + exists h', w. split; [|split].
      * rewrite Hrun. unfold x1. simpl. do 2 f_equal.
        rewrite fmap_app, concat_app. simpl. rewrite app_nil_r.
        by rewrite <- !app_assoc.
      * rewrite Hwl. unfold x1. simpl. by rewrite length_insert.
      * intros i. rewrite Hw. unfold x1. simpl.
        replace (Z.to_nat (pc + Z.of_nat (S n))) with (Z.to_nat pc + S n)%nat in * by lia.
        destruct (decide (i = Z.to_nat pc + S n)%nat) as [->|Hne].
        -- rewrite decide_False by lia. rewrite decide_True by lia.
           rewrite list_lookup_insert_eq by (apply lookup_lt_Some in He; lia).
           rewrite He. done.
        -- rewrite list_lookup_insert_ne by lia.
           repeat case_decide; try done; lia.
Qed.

End EnterFacts.

(** ** Entering a propagator *)

Lemma concat_take_rot (m : nat) (hi : list (list Z)) :
  length (concat (take m (rot <$> hi))) = length (concat (take m hi)).
Proof. rewrite <- fmap_take. apply concat_rot_length. Qed.

Lemma prefix_len_enter (lo hi : list (list Z)) (B : list Z) (p : Z) (k : nat) :
  len (concat (take (S k) (lo ++ (p :: rot B) :: (rot <$> hi)))) =
  len (concat (take (S k) (lo ++ B :: hi))) + (if decide (length lo ≤ k)%nat then 1 else 0).
Proof.
  case_decide as Hk.
  - rewrite !take_app_ge by lia.
    replace (S k - length lo)%nat with (S (k - length lo)) by lia. simpl.
    rewrite !concat_app. simpl. unfold len.
    rewrite !length_app. simpl. rewrite !length_app, rot_length, concat_take_rot. lia.
  - rewrite !take_app_le by lia. lia.
Qed.

Lemma concat_enter_length (lo hi : list (list Z)) (B : list Z) (p : Z) :
  length (concat (lo ++ (p :: rot B) :: (rot <$> hi))) = S (length (concat (lo ++ B :: hi))).
Proof.
  rewrite !concat_app. simpl. rewrite !length_app. simpl.
  rewrite !length_app, rot_length, concat_rot_length. lia.
Qed.

Section EnterBody.
Context {PF : Platform} {VIC : VarImpConf} {M : Type} {MM : MemoryManagerOps M}.

Lemma actor_bound (x : VarImp) (pc : Z) (v : Z) :
  0 <= pc < pc_max + 2 →
  (pc ≠ 0 → u x !! Z.to_nat (pc - 1) = Some v) → (pc = 0 → v = 0) →
  actor x pc = Some v.
Proof.
  intros Hpc Hu H0. unfold actor.
  destruct (Z.leb_spec 0 pc); [|lia]. destruct (Z.ltb_spec pc (pc_max + 2)); [|lia]. simpl.
  destruct (Z.eqb_spec pc 0) as [->|Hne]; [by rewrite H0|]. by apply Hu.
Qed.

Lemma enter_body (home home1 : Space M) (x x1 : VarImp) (p pc : Z)
    (lo hi : list (list Z)) (B adv fr : list Z) (f : Z) :
  make_room home x = Some (home1, x1) →
  layout x1 (lo ++ B :: hi) adv [f] fr →
  pc = len lo →
  len (slots x1) < 2 ^ 32 →
  ∃ x', enter home x p pc = Some (home1, x') ∧
        layout x' (lo ++ (p :: rot B) :: (rot <$> hi)) (rot adv) [] fr ∧
        base x' = base x1 ∧ free_and_bits x' = free_and_bits x1.
Proof.
  intros Hroom [[Hpm Hfb] Hbk Hw Hsl Hidx Hent Hfree Hbits Hbase] -> Hsz.
  assert (Hlen : length (lo ++ B :: hi) = S (length lo + length hi)).
  { rewrite length_app. simpl. lia. }
  assert (Hpcm : len lo + len hi = pc_max).
  { unfold len in *. lia. }
  pose proof (len_nonneg lo) as Hlo0. pose proof (len_nonneg hi) as Hhi0.
  simpl in Hsl.
  unfold enter.
  destruct (Z.leb_spec (len lo) pc_max); [|lia].
  rewrite Hroom. simpl.
  (* the first advisor moves behind the last one *)
  rewrite (actorNonZero_eq x1 (pc_max + 1)) by lia.
  replace (Z.to_nat (pc_max + 1 - 1)) with (length lo + length hi)%nat by (unfold len in *; lia).
  rewrite Hidx by lia. rewrite take_ge by lia. simpl.
  destruct (hole_up (concat (lo ++ B :: hi)) adv fr f) as [Hrd Hwr].
  rewrite load_eq by apply len_nonneg. rewrite to_nat_len, Hsl, Hrd. simpl.
  assert (Hentlt : 0 <= entries x1 < len (slots x1)).
  { rewrite Hent, Hsl. rewrite !len_app, len_cons.
    pose proof (len_nonneg (concat (lo ++ B :: hi))). pose proof (len_nonneg adv).
    pose proof (len_nonneg fr). lia. }
  rewrite store_eq by done. simpl.
  replace (Z.to_nat (entries x1)) with (length (concat (lo ++ B :: hi) ++ adv))
    by (rewrite Hent; unfold len; lia).
  rewrite Hsl, Hwr.
  set (v := default f (head adv)).
  rewrite u32_small by lia.
  (* the buckets above pc *)
  set (x3 := set_entries _ _).
  destruct (enter_loop_spec (length hi) x3 (len lo) (concat (lo ++ [B])) hi v (rot adv ++ fr))
    as (h' & w & Hrun & Hwl & Hwi); try done; try lia.
  { unfold len in *. lia. }
  { unfold x3. simpl. rewrite !concat_app. simpl. by rewrite <- !app_assoc. }
  { intros k Hk. unfold x3. simpl. rewrite to_nat_len.
    rewrite Hidx by lia. do 2 f_equal.
    rewrite <- concat_app. f_equal.
    replace (S (length lo + k)) with (length (lo ++ [B]) + k)%nat
      by (rewrite length_app; simpl; lia).
    rewrite <- take_take_drop.
    replace (lo ++ B :: hi) with ((lo ++ [B]) ++ hi) by (by rewrite <- app_assoc).
    by rewrite take_app_length, drop_app_length. }
  { unfold x3. simpl. unfold len in *. rewrite Hsl in Hsz.
    rewrite !length_app in *. simpl in *. rewrite !length_app in *. simpl in *.
    rewrite rot_length. lia. }
  replace (Z.to_nat (pc_max - len lo)) with (length hi) by (unfold len in *; lia).
  rewrite Hrun. simpl. unfold x3. simpl.
  set (x4 := mkVarImp _ _ _ _ _).
  assert (Hsl4 : slots x4 = concat lo ++ B ++ h' :: concat (rot <$> hi) ++ rot adv ++ fr).
  { unfold x4. simpl. rewrite concat_app. simpl. rewrite app_nil_r. by rewrite <- !app_assoc. }
  assert (Hu4 : u x4 = w) by done.
  assert (He4 : entries x4 = entries x1 + 1) by done.
  assert (Hf4 : free_and_bits x4 = free_and_bits x1) by done.
  assert (Hb4 : base x4 = base x1) by done.
  unfold x3 in Hwl, Hwi; simpl in Hwl, Hwi. clearbody x4. clear Hrun. clear x3.
  (* the bucket of pc *)
  assert (Hwlo : ∀ i : nat, (i ≤ length lo)%nat → w !! i = u x1 !! i).
  { intros i Hi. rewrite Hwi. rewrite to_nat_len. by rewrite decide_False by lia. }
  assert (Hwprev : len lo ≠ 0 → w !! Z.to_nat (len lo - 1) = Some (len (concat lo))).
  { intros Hne.
    replace (Z.to_nat (len lo - 1)) with (length lo - 1)%nat by (unfold len; lia).
    rewrite Hwlo by lia. rewrite Hidx by (unfold len in *; lia).
    do 3 f_equal. replace (S (length lo - 1)) with (length lo) by (unfold len in *; lia).
    by rewrite take_app_length. }
  assert (Hzero : len lo = 0 → len (concat lo) = 0).
  { intros Hz. destruct lo; [done|]. unfold len in Hz. simpl in Hz. lia. }
  assert (Hs : actor x4 (len lo) = Some (len (concat lo))).
  { apply actor_bound; [lia| |done]. rewrite Hu4. done. }
  rewrite Hs. simpl.
  destruct (hole_up (concat lo) B (concat (rot <$> hi) ++ rot adv ++ fr) h') as [Hrd2 Hwr2].
  rewrite load_eq by apply len_nonneg. rewrite to_nat_len, Hsl4, Hrd2. simpl.
  rewrite (actorNonZero_eq x4 (len lo + 1)) by lia.
  replace (Z.to_nat (len lo + 1 - 1)) with (length lo) by (unfold len; lia).
  assert (Hupc : w !! length lo = Some (len (concat lo ++ B))).
  { rewrite Hwlo by lia. rewrite Hidx by lia. do 2 f_equal.
    replace (lo ++ B :: hi) with ((lo ++ [B]) ++ hi) by (by rewrite <- app_assoc).
    replace (S (length lo)) with (length (lo ++ [B])) by (rewrite length_app; simpl; lia).
    rewrite take_app_length. rewrite concat_app. simpl. by rewrite app_nil_r. }
  rewrite Hu4, Hupc. simpl.
  rewrite store_eq.
  2:{ split; [apply len_nonneg|]. rewrite Hsl4. unfold len.
      rewrite !length_app. simpl. lia. }
  simpl. rewrite (idx_eq _ (len lo + 1)) by lia. simpl.
  replace (Z.to_nat (len lo + 1 - 1)) with (length lo) by (unfold len; lia).
  rewrite Hu4, Hupc. simpl.
  rewrite set_idx_eq; [|lia|].
  2:{ simpl. rewrite Hu4. apply lookup_lt_Some in Hupc. unfold len. lia. }
  simpl. replace (Z.to_nat (len lo + 1 - 1)) with (length lo) by (unfold len; lia).
  rewrite to_nat_len, Hsl4, Hwr2, Hu4.
  set (x6 := set_u _ _).
  assert (Hsl6 : slots x6 = concat lo ++ default h' (head B) :: rot B ++ concat (rot <$> hi) ++ rot adv ++ fr) by done.
  assert (Hu6 : u x6 = <[length lo := u32 (len (concat lo ++ B) + 1)]> w) by done.
  assert (He6 : entries x6 = entries x1 + 1) by done.
  assert (Hf6 : free_and_bits x6 = free_and_bits x1) by done.
  assert (Hb6 : base x6 = base x1) by done.
  clearbody x6.
  assert (Ht : actor x6 (len lo) = Some (len (concat lo))).
  { apply actor_bound; [lia| |done]. intros Hne. rewrite Hu6.
    rewrite list_lookup_insert_ne by (unfold len in *; lia). by apply Hwprev. }
  rewrite Ht. simpl.
  rewrite store_eq.
  2:{ split; [apply len_nonneg|]. rewrite Hsl6. unfold len.
      rewrite !length_app. simpl. lia. }
  simpl. eexists. split; [reflexivity|].
  unfold free_slots in *. simpl.
  split; [|by rewrite Hb6, Hf6].
  assert (Hu32 : u32 (len (concat lo ++ B) + 1) = len (concat lo ++ B) + 1).
  { apply u32_small. pose proof (len_nonneg (concat lo ++ B)).
    assert (len (concat lo ++ B) < len (slots x1)); [|lia].
    rewrite Hsl. unfold len. rewrite concat_app. simpl. rewrite !length_app. simpl. lia. }
  constructor; simpl; unfold free_slots; simpl.
  - done.
  - unfold len in *. rewrite length_app in *. simpl in *. rewrite length_fmap. lia.
  - rewrite Hu6. unfold len in *. rewrite length_insert. lia.
  - rewrite Hsl6, to_nat_len.
    replace (length (concat lo)) with (length (concat lo) + 0)%nat at 1 by lia.
    rewrite insert_app_r. simpl.
    rewrite concat_app. simpl. rewrite <- !app_assoc. simpl. by rewrite <- !app_assoc.
  - intros k Hk. rewrite prefix_len_enter. rewrite Hu6, Hu32.
    assert (Hk' : (k < length (lo ++ B :: hi))%nat).
    { rewrite length_app in *. simpl in *. rewrite length_fmap in Hk. lia. }
    destruct (decide (k = length lo)) as [->|Hne].
    + rewrite list_lookup_insert_eq by (apply lookup_lt_Some in Hupc; lia).
      rewrite decide_True by lia. do 2 f_equal.
      replace (lo ++ B :: hi) with ((lo ++ [B]) ++ hi) by (by rewrite <- app_assoc).
      replace (S (length lo)) with (length (lo ++ [B])) by (rewrite length_app; simpl; lia).
      rewrite take_app_length. rewrite concat_app. simpl. by rewrite app_nil_r.
    + rewrite list_lookup_insert_ne by lia. rewrite Hwi. rewrite to_nat_len.
      case_decide; case_decide; try lia.
      all: rewrite Hidx by lia; simpl; f_equal; rewrite ?Z.add_0_r; done.
  - rewrite He6, Hent. unfold len.
    rewrite !length_app, concat_enter_length, rot_length. lia.
  - by rewrite Hf6.
  - by rewrite Hf6.
  - destruct Hbase as [Hc Hn]. unfold copied in *. simpl. rewrite Hb6. split; [done|].
    intros Hb. specialize (Hn Hb). rewrite Hsl in Hn.
    apply (f_equal length) in Hn. rewrite !length_app in Hn. simpl in Hn. lia.
Qed.

End EnterBody.

(** ** Resizing the subscription array *)

Lemma shiftl_pow (a k : Z) : 0 <= k → Z.shiftl a k = a * 2 ^ k.
Proof. intros. by apply Z.shiftl_mul_pow2. Qed.

Lemma shiftr_pow (a k : Z) : 0 <= k → Z.shiftr a k = a / 2 ^ k.
Proof. intros. by apply Z.shiftr_div_pow2. Qed.

Lemma free_take (fb k : Z) :
  0 <= k → 0 <= fb → 1 <= fb / 2 ^ k →
  0 <= fb - 2 ^ k ∧ (fb - 2 ^ k) / 2 ^ k = fb / 2 ^ k - 1.
Proof.
  intros Hk Hfb Hf. assert (Hp : 0 < 2 ^ k) by (apply Z.pow_pos_nonneg; lia).
  split.
  - pose proof (Z.mul_div_le fb (2 ^ k) Hp). nia.
  - replace (fb - 2 ^ k) with (fb + (-1) * 2 ^ k) by lia.
    rewrite Z.div_add by lia. lia.
Qed.

Lemma free_give (fb k d : Z) :
  0 <= k → 0 <= fb → 0 <= d →
  (fb + d * 2 ^ k) / 2 ^ k = fb / 2 ^ k + d.
Proof.
  intros Hk Hfb Hd. assert (Hp : 0 < 2 ^ k) by (apply Z.pow_pos_nonneg; lia).
  rewrite Z.div_add by lia. done.
Qed.

Lemma free_zero_low (fb k : Z) : 0 <= k → 0 <= fb → fb / 2 ^ k = 0 → fb < 2 ^ k.
Proof.
  intros Hk Hfb Hz. assert (Hp : 0 < 2 ^ k) by (apply Z.pow_pos_nonneg; lia).
  apply Z.div_small_iff in Hz; lia.
Qed.

Section ResizeFacts.
Context {PF : Platform} {VIC : VarImpConf} {M : Type} {MM : MemoryManagerOps M}.

Lemma resize_spec (home : Space M) (x : VarImp) (bs : list (list Z)) (adv : list Z) :
  layout x bs adv [] [] → small x → fresh_ok home →
  ∃ home1 x1,
    resize home x = Some (home1, x1) ∧
    slots x1 = slots x ++ replicate (Z.to_nat (grown home x - entries x)) NULL ∧
    entries x < grown home x ∧
    len (slots x1) = grown home x ∧
    free_and_bits x1 = free_and_bits x + (grown home x - entries x) * 2 ^ free_bits ∧
    free_slots x1 = grown home x - entries x ∧
    entries x1 = entries x ∧ u x1 = u x ∧
    copied x1 = false ∧ base x1 ≠ NULL ∧
    (n_sub home1 = n_sub home ∧ queue home1 = queue home) ∧
    len (slots x1) <= 2 * len (slots x) + 4.
Proof.
  intros [[Hpm Hfb] Hbk Hw Hsl Hidx Hent Hfree Hbits [Hcop Hnull]] Hsmall Hfresh.
  unfold small in Hsmall. unfold free_slots in *.
  rewrite shiftr_pow in Hfree by done. change (len []) with 0 in Hfree.
  assert (Hp : 0 < 2 ^ free_bits) by (apply Z.pow_pos_nonneg; lia).
  pose proof (free_zero_low _ _ Hfb (proj1 Hbits) Hfree) as Hlow.
  rewrite !app_nil_r in Hsl.
  assert (Hn : entries x = len (slots x)) by (by rewrite Hent, Hsl).
  pose proof (len_nonneg (slots x)) as Hn0.
  unfold resize, grown.
  destruct (Z.eqb_spec (base x) NULL) as [Hb|Hb].
  - (* the first allocation *)
    rewrite shiftr_pow by done. rewrite Hfree. simpl.
    unfold alloc_ptrs, ralloc.
    destruct (Hfresh (usize (ptr_bytes * 4))) as [Hnn Hnm].
    destruct (mm_alloc (mm home) (usize (ptr_bytes * 4))) as [b m1] eqn:Ha. simpl in *.
    rewrite (Hnull Hb) in *. change (len []) with 0 in *.
    eexists _, _. split; [reflexivity|]. simpl. rewrite Hn.
    rewrite shiftl_pow by done.
    rewrite u32_small by nia.
    repeat split; try done; try lia.
    rewrite shiftr_pow by done. rewrite free_give by lia. lia.
  - (* a larger array *)
    unfold degree. rewrite Hcop. simpl.
    fold (in_subscriptions home x).
    set (n := entries x) in *.
    assert (Hm : (if in_subscriptions home x then u32 (n + 4) else Z.shiftr (u32 ((n + 1) * 3)) 1)
                 = (if in_subscriptions home x then n + 4 else (3 * (n + 1)) / 2)).
    { destruct (in_subscriptions home x).
      - apply u32_small. nia.
      - rewrite u32_small by nia. rewrite shiftr_pow by lia. change (2 ^ 1) with 2.
        f_equal. lia. }
    rewrite Hm. clear Hm.
    set (m := if in_subscriptions home x then n + 4 else (3 * (n + 1)) / 2).
    assert (Hmn : n + 1 <= m <= 2 * n + 4).
    { unfold m. destruct (in_subscriptions home x); [lia|].
      split.
      - apply Z.div_le_lower_bound; lia.
      - apply Z.div_le_upper_bound; lia. }
    unfold alloc_ptrs, ralloc.
    destruct (Hfresh (usize (ptr_bytes * m))) as [Hnn Hnm].
    destruct (mm_alloc (mm home) (usize (ptr_bytes * m))) as [b m1] eqn:Ha. simpl in *.
    fold (len (slots x)). rewrite <- Hn.
    destruct (Z.leb_spec n n); [|lia]. destruct (Z.leb_spec n m); [|lia]. simpl.
    eexists _, _. split; [reflexivity|]. simpl.
    assert (Htk : take (Z.to_nat n) (slots x) = slots x).
    { apply take_ge. unfold len in Hn. lia. }
    rewrite Htk. rewrite drop_replicate.
    replace (Z.to_nat m - Z.to_nat n)%nat with (Z.to_nat (m - n)) by lia.
    assert (Hb32 : 3 * n + 8 < 2 ^ 32) by nia.
    rewrite (u32_small (m - n)) by lia. rewrite shiftl_pow by done.
    rewrite u32_small by nia.
    repeat split; try done; try lia.
    + unfold len. rewrite length_app, length_replicate. unfold len in Hn. lia.
    + rewrite shiftr_pow by done. rewrite free_give by lia. lia.
    + unfold len. rewrite length_app, length_replicate. unfold len in Hn. lia.
Qed.

Lemma make_room_spec (home : Space M) (x : VarImp) (bs : list (list Z)) (adv fr : list Z) :
  layout x bs adv [] fr → small x → fresh_ok home →
  ∃ home1 x1 f fr',
    make_room home x = Some (home1, x1) ∧
    layout x1 bs adv [f] fr' ∧
    len (slots x1) < 2 ^ 32 ∧
    (n_sub home1 = u32 (n_sub home + 1) ∧ queue home1 = queue home).
Proof.
  intros Hlay Hsmall Hfresh.
  pose proof Hlay as [[Hpm Hfb] Hbk Hw Hsl Hidx Hent Hfree Hbits [Hcop Hnull]].
  assert (Hp : 0 < 2 ^ free_bits) by (apply Z.pow_pos_nonneg; lia).
  unfold make_room.
  destruct (Z.eqb_spec (Z.shiftr (free_and_bits x) free_bits) 0) as [Hz|Hz].
  - (* no free slot: resize *)
    assert (fr = []) as ->.
    { unfold free_slots in Hfree. rewrite Hz in Hfree. destruct fr; [done|].
      unfold len in Hfree. simpl in Hfree. lia. }
    destruct (resize_spec (set_n_sub home (u32 (n_sub home + 1))) x bs adv Hlay Hsmall)
      as (home1 & x1 & Hrs & Hsl1 & Hgr & Hlen1 & Hfb1 & Hfs1 & He1 & Hu1 & Hc1 & Hb1 & [Hns Hqu] & Hsm);
      [done|].
    rewrite Hrs. simpl.
    set (g := grown (set_n_sub home (u32 (n_sub home + 1))) x) in *.
    unfold small in Hsmall. pose proof (len_nonneg (slots x)) as Hn0.
    assert (Hent' : entries x = len (slots x)) by (by rewrite Hent, Hsl, !app_nil_r).
    exists home1, (set_free_and_bits x1 (u32 (free_and_bits x1 - Z.shiftl 1 free_bits))),
      NULL, (replicate (Z.to_nat (g - entries x - 1)) NULL).
    split; [done|].
    rewrite shiftl_pow by done. rewrite Z.mul_1_l.
    unfold free_slots in Hfs1. rewrite shiftr_pow in Hfs1, Hz by done.
    pose proof (free_zero_low _ _ Hfb (proj1 Hbits) Hz) as Hlow.
    assert (Hfb1' : 0 <= free_and_bits x1 - 2 ^ free_bits < 2 ^ 32).
    { assert (g - entries x + 1 <= 3 * len (slots x) + 8) by lia.
      assert ((g - entries x + 1) * 2 ^ free_bits <= (3 * len (slots x) + 8) * 2 ^ free_bits)
        by (apply Z.mul_le_mono_nonneg_r; lia).
      assert (1 * 2 ^ free_bits <= (g - entries x) * 2 ^ free_bits)
        by (apply Z.mul_le_mono_nonneg_r; lia).
      rewrite Hfb1. lia. }
    assert (Hlin : 3 * len (slots x) + 8 < 2 ^ 32) by nia.
    split; [|split; [simpl; lia|done]].
    constructor; simpl; try done.
    + rewrite Hu1. done.
    + rewrite Hsl1, Hsl. rewrite !app_nil_r. rewrite <- !app_assoc. do 2 f_equal.
      replace (Z.to_nat (g - entries x)) with (S (Z.to_nat (g - entries x - 1))) by lia.
      done.
    + rewrite Hu1. done.
    + by rewrite He1.
    + unfold free_slots. simpl. rewrite u32_small by done.
      rewrite shiftr_pow by done.
      destruct (free_take (free_and_bits x1) free_bits) as [_ ->]; try lia.
      unfold len. rewrite length_replicate. lia.
    + rewrite u32_small by done. done.
  - (* a free slot is left *)
    destruct fr as [|f fr'].
    { unfold free_slots in Hfree. change (len []) with 0 in Hfree. done. }
    simpl.
    exists (set_n_sub home (u32 (n_sub home + 1))),
      (set_free_and_bits x (u32 (free_and_bits x - Z.shiftl 1 free_bits))), f, fr'.
    split; [done|].
    rewrite shiftl_pow by done. rewrite Z.mul_1_l.
    unfold free_slots in Hfree. rewrite shiftr_pow in Hfree, Hz by done.
    rewrite len_cons in Hfree. pose proof (len_nonneg fr').
    destruct (free_take (free_and_bits x) free_bits) as [Hge Hdiv]; try lia.
    split; [|split; [|done]].
    + constructor; simpl; try done.
      * unfold free_slots. simpl. rewrite u32_small by lia.
        rewrite shiftr_pow by done. lia.
      * rewrite u32_small by lia. lia.
    + simpl. unfold small in Hsmall. pose proof (len_nonneg (slots x)). nia.
Qed.

End ResizeFacts.

(** ** The layout seen through the boundaries *)

Lemma split_at {A} (l : list A) (n : nat) :
  (n < length l)%nat → ∃ lo b hi, l = lo ++ b :: hi ∧ length lo = n.
Proof.
  intros Hn. destruct (lookup_lt_is_Some_2 l n Hn) as [b Hb].
  exists (take n l), b, (drop (S n) l). split.
  - by rewrite take_drop_middle.
  - rewrite length_take. lia.
Qed.

Lemma concat_take_le (bs : list (list Z)) (i j : nat) :
  (i ≤ j)%nat → (length (concat (take i bs)) ≤ length (concat (take j bs)))%nat.
Proof.
  intros Hij. replace j with (i + (j - i))%nat by lia.
  rewrite <- take_take_drop. rewrite concat_app, length_app. lia.
Qed.

Lemma concat_take_all (bs : list (list Z)) (i : nat) :
  (length (concat (take i bs)) ≤ length (concat bs))%nat.
Proof.
  rewrite <- (take_drop i bs) at 2. rewrite concat_app, length_app. lia.
Qed.

Section LayoutFacts.
Context {PF : Platform} {VIC : VarImpConf}.

Lemma layout_bound (x : VarImp) bs adv gap fr (pc : Z) :
  layout x bs adv gap fr → 0 <= pc <= pc_max + 1 →
  bound x pc = len (concat (take (Z.to_nat pc) bs)).
Proof.
  intros [[Hpm Hfb] Hbk Hw Hsl Hidx Hent Hfree Hbits Hbase] Hpc.
  unfold bound. destruct (Z.eqb_spec pc 0) as [->|Hne]; [done|].
  rewrite Hidx by (unfold len in *; lia). simpl.
  do 3 f_equal. lia.
Qed.

Lemma layout_slice (x : VarImp) (L B R : list Z) :
  slots x = L ++ B ++ R → slice x (len L) (len (L ++ B)) = B.
Proof.
  intros Hsl. unfold slice. rewrite Hsl, to_nat_len.
  rewrite drop_app_length. rewrite len_app.
  replace (Z.to_nat (len L + len B - len L)) with (length B) by (unfold len; lia).
  by rewrite take_app_length.
Qed.

Lemma layout_bucket (x : VarImp) lo B hi adv gap fr :
  layout x (lo ++ B :: hi) adv gap fr → bucket x (len lo) = B.
Proof.
  intros Hlay. pose proof Hlay as [[Hpm Hfb] Hbk Hw Hsl Hidx Hent Hfree Hbits Hbase].
  pose proof (len_nonneg lo). pose proof (len_nonneg hi).
  assert (len lo + len hi = pc_max).
  { unfold len in *. rewrite length_app in Hbk. simpl in Hbk. lia. }
  unfold bucket.
  rewrite (layout_bound x _ _ _ _ (len lo) Hlay) by lia.
  rewrite (layout_bound x _ _ _ _ (len lo + 1) Hlay) by lia.
  rewrite to_nat_len. replace (Z.to_nat (len lo + 1)) with (S (length lo)) by (unfold len; lia).
  rewrite take_app_length.
  assert (Htk : take (S (length lo)) (lo ++ B :: hi) = lo ++ [B]).
  { replace (lo ++ B :: hi) with ((lo ++ [B]) ++ hi) by (by rewrite <- app_assoc).
    apply take_app_length'. rewrite length_app. simpl. lia. }
  rewrite Htk. rewrite concat_app. simpl. rewrite app_nil_r.
  apply layout_slice with (R := concat hi ++ adv ++ gap ++ fr).
  rewrite Hsl. rewrite !concat_app. simpl. by rewrite <- !app_assoc.
Qed.

Lemma layout_advisors (x : VarImp) bs adv gap fr :
  layout x bs adv gap fr → advisors x = adv.
Proof.
  intros Hlay. pose proof Hlay as [[Hpm Hfb] Hbk Hw Hsl Hidx Hent Hfree Hbits Hbase].
  unfold advisors.
  rewrite (layout_bound x _ _ _ _ (pc_max + 1) Hlay) by lia.
  rewrite take_ge by (unfold len in *; lia). rewrite Hent.
  apply layout_slice with (R := gap ++ fr). by rewrite Hsl.
Qed.

Lemma layout_boundaries (x : VarImp) bs adv gap fr :
  layout x bs adv gap fr → boundaries_ok x.
Proof.
  intros Hlay. pose proof Hlay as [[Hpm Hfb] Hbk Hw Hsl Hidx Hent Hfree Hbits Hbase].
  split; [|split].
  - intros pc Hpc.
    rewrite (layout_bound x _ _ _ _ pc Hlay) by lia.
    rewrite (layout_bound x _ _ _ _ (pc + 1) Hlay) by lia.
    unfold len. apply inj_le. apply concat_take_le. lia.
  - rewrite (layout_bound x _ _ _ _ (pc_max + 1) Hlay) by lia.
    rewrite Hent. unfold len. rewrite length_app.
    pose proof (concat_take_all bs (Z.to_nat (pc_max + 1))). lia.
  - rewrite Hent, Hsl. unfold len. rewrite !length_app. lia.
Qed.

Lemma layout_split (x : VarImp) bs adv gap fr (pc : Z) :
  layout x bs adv gap fr → 0 <= pc <= pc_max →
  ∃ lo B hi, bs = lo ++ B :: hi ∧ len lo = pc.
Proof.
  intros [[Hpm Hfb] Hbk Hw Hsl Hidx Hent Hfree Hbits Hbase] Hpc.
  destruct (split_at bs (Z.to_nat pc)) as (lo & B & hi & -> & Hlo).
  { unfold len in Hbk. lia. }
  exists lo, B, hi. split; [done|]. unfold len. lia.
Qed.

(** The buckets other than the one of [pc], seen through [bucket]. *)
Lemma layout_bucket_at (x : VarImp) bs adv gap fr (pc : Z) :
  layout x bs adv gap fr → 0 <= pc <= pc_max →
  bs !! Z.to_nat pc = Some (bucket x pc).
Proof.
  intros Hlay Hpc.
  destruct (layout_split x bs adv gap fr pc Hlay Hpc) as (lo & B & hi & -> & Hlo).
  rewrite <- Hlo at 2. rewrite (layout_bucket x lo B hi adv gap fr Hlay).
  replace (Z.to_nat pc) with (length lo) by (unfold len in Hlo; lia).
  by rewrite list_lookup_middle.
Qed.

End LayoutFacts.

Section EnterTheorem.
Context {PF : Platform} {VIC : VarImpConf} {M : Type} {MM : MemoryManagerOps M}.

Lemma enter_layout (home : Space M) (x : VarImp) (p pc : Z) lo B hi adv fr :
  layout x (lo ++ B :: hi) adv [] fr → small x → fresh_ok home → pc = len lo →
  ∃ home1 x1 fr',
    enter home x p pc = Some (home1, x1) ∧
    layout x1 (lo ++ (p :: rot B) :: (rot <$> hi)) (rot adv) [] fr' ∧
    (n_sub home1 = u32 (n_sub home + 1) ∧ queue home1 = queue home).
Proof.
  intros Hlay Hsmall Hfresh Hpc.
  destruct (make_room_spec home x _ _ _ Hlay Hsmall Hfresh)
    as (home1 & x1 & f & fr' & Hroom & Hlay1 & Hsz & Hns).
  destruct (enter_body home home1 x x1 p pc lo hi B adv fr' f Hroom Hlay1 Hpc Hsz)
    as (x' & Hrun & Hlay' & _).
  by exists home1, x', fr'.
Qed.

End EnterTheorem.

(** ** Removing a propagator *)

Lemma concat_rotr_length (bs : list (list Z)) :
  length (concat (rotr <$> bs)) = length (concat bs).
Proof.
  induction bs as [|b bs IH]; [done|]. rewrite fmap_cons. simpl.
  rewrite !length_app, rotr_length, IH. done.
Qed.

Lemma concat_take_rotr (m : nat) (hi : list (list Z)) :
  length (concat (take m (rotr <$> hi))) = length (concat (take m hi)).
Proof. rewrite <- fmap_take. apply concat_rotr_length. Qed.

Lemma prefix_len_remove (lo hi : list (list Z)) (B1 B2 : list Z) (p : Z) (k : nat) :
  len (concat (take (S k) (lo ++ (B1 ++ rotr B2) :: (rotr <$> hi)))) =
  len (concat (take (S k) (lo ++ (B1 ++ p :: B2) :: hi)))
  - (if decide (length lo ≤ k)%nat then 1 else 0).
Proof.
  case_decide as Hk.
  - rewrite !take_app_ge by lia.
    replace (S k - length lo)%nat with (S (k - length lo)) by lia. simpl.
    rewrite !concat_app. simpl. unfold len.
    repeat (rewrite ?length_app; simpl). rewrite rotr_length, concat_take_rotr. lia.
  - rewrite !take_app_le by lia. lia.
Qed.

Lemma concat_remove_length (lo hi : list (list Z)) (B1 B2 : list Z) (p : Z) :
  S (length (concat (lo ++ (B1 ++ rotr B2) :: (rotr <$> hi))))
  = length (concat (lo ++ (B1 ++ p :: B2) :: hi)).
Proof.
  rewrite !concat_app. simpl.
  repeat (rewrite ?length_app; simpl). rewrite rotr_length, concat_rotr_length. lia.
Qed.

Section RemoveFacts.
Context {PF : Platform} {VIC : VarImpConf} {M : Type} {MM : MemoryManagerOps M}.

Lemma scan_spec (a : Z) (B1 rest : list Z) (f : Z) :
  a ∉ B1 → scan a (B1 ++ a :: rest) f = Some (f + len B1).
Proof.
  revert f. induction B1 as [|b B1 IH]; intros f Hni; simpl.
  - rewrite Z.eqb_refl. f_equal. unfold len. simpl. lia.
  - apply not_elem_of_cons in Hni as [Hne Hni].
    destruct (Z.eqb_spec b a); [congruence|].
    rewrite IH by done. f_equal. rewrite len_cons. lia.
Qed.

Lemma find_actor_spec (x : VarImp) (a : Z) (L B1 rest : list Z) :
  slots x = L ++ B1 ++ a :: rest → a ∉ B1 →
  find_actor x (len L) a = Some (len (L ++ B1)).
Proof.
  intros Hsl Hni. unfold find_actor.
  destruct (Z.leb_spec 0 (len L)); [|pose proof (len_nonneg L); lia].
  rewrite to_nat_len, Hsl, drop_app_length. rewrite scan_spec by done.
  by rewrite len_app.
Qed.

Lemma shift_down_spec (x : VarImp) (j : Z) (L B R : list Z) (h : Z) :
  0 < j <= pc_max →
  u x !! Z.to_nat (j - 1) = Some (len L + 1) →
  u x !! Z.to_nat j = Some (len (L ++ B) + 1) →
  slots x = L ++ h :: B ++ R →
  len (slots x) < 2 ^ 32 →
  shift_down x j =
    Some (mkVarImp (base x) (L ++ rotr B ++ default h (last B) :: R) (entries x)
            (free_and_bits x) (<[Z.to_nat (j - 1) := len L]> (u x))).
Proof.
  intros Hj Hs He Hsl Hsz.
  destruct (hole_down L B R h) as [Hrd Hwr].
  pose proof (len_nonneg L). pose proof (len_nonneg (L ++ B)).
  unfold shift_down.
  rewrite (actorNonZero_eq x (j + 1)) by lia. replace (j + 1 - 1) with j by lia.
  rewrite He. simpl.
  rewrite load_eq by lia. replace (len (L ++ B) + 1 - 1) with (len (L ++ B)) by lia.
  rewrite to_nat_len, Hsl, Hrd. simpl.
  rewrite (actorNonZero_eq x j) by lia. rewrite Hs. simpl.
  replace (len L + 1 - 1) with (len L) by lia.
  rewrite store_eq.
  2:{ split; [lia|]. rewrite Hsl. unfold len. rewrite !length_app. simpl. lia. }
  simpl. rewrite idx_eq by lia. simpl. rewrite Hs. simpl.
  rewrite set_idx_eq; [|lia|].
  2:{ simpl. apply lookup_lt_Some in Hs. unfold len. lia. }
  unfold set_u, set_slots; simpl. rewrite to_nat_len, Hsl, Hwr.
  replace (len L + 1 - 1) with (len L) by lia.
  rewrite u32_small; [done|].
  assert (len L < len (slots x)); [|lia].
  rewrite Hsl. unfold len. rewrite !length_app. simpl. lia.
Qed.

Lemma remove_loop_spec (n : nat) :
  ∀ (x : VarImp) (j : Z) (L : list Z) (mids : list (list Z)) (h : Z) (R : list Z),
  0 < j → j + Z.of_nat n <= pc_max + 1 →
  length mids = n →
  slots x = L ++ h :: concat mids ++ R →
  (∀ k : nat, (k ≤ n)%nat →
     u x !! (Z.to_nat (j - 1) + k)%nat = Some (len (L ++ concat (take k mids)) + 1)) →
  len (slots x) < 2 ^ 32 →
  ∃ h' w,
    remove_loop n j x =
      Some (mkVarImp (base x) (L ++ concat (rotr <$> mids) ++ h' :: R) (entries x)
              (free_and_bits x) w) ∧
    length w = length (u x) ∧
    ∀ i : nat, w !! i =
      if decide (Z.to_nat (j - 1) ≤ i < Z.to_nat (j - 1) + n)%nat
      then (λ v, v - 1) <$> (u x !! i) else u x !! i.
Proof.
  induction n as [|n IH]; intros x j L mids h R Hj Hmax Hlen Hsl Hu Hsz.
  - destruct mids; [|done]. simpl in *. exists h, (u x). split; [|split].
    + rewrite <- Hsl. by destruct x.
    + done.
    + intros i. case_decide; [lia|done].
  - destruct mids as [|B mids']; [done|]. simpl in Hlen.
    assert (Hlen' : length mids' = n) by lia. clear Hlen.
    simpl in Hsl.
    assert (Hs : u x !! Z.to_nat (j - 1) = Some (len L + 1)).
    { specialize (Hu 0%nat). rewrite Nat.add_0_r in Hu. rewrite Hu by lia.
      simpl. by rewrite app_nil_r. }
    assert (He : u x !! Z.to_nat j = Some (len (L ++ B) + 1)).
    { specialize (Hu 1%nat).
      replace (Z.to_nat (j - 1) + 1)%nat with (Z.to_nat j) in Hu by lia.
      rewrite Hu by lia. simpl. by rewrite app_nil_r. }
    cbn [remove_loop].
    rewrite (shift_down_spec x j L B (concat mids' ++ R) h); try done; [|lia|].
    2:{ rewrite Hsl. by rewrite <- !app_assoc. }
    simpl.
    set (x1 := mkVarImp _ _ _ _ _).
    destruct (IH x1 (j + 1) (L ++ rotr B) mids' (default h (last B)) R)
      as (h' & w & Hrun & Hwl & Hw); try done; try lia.
    + unfold x1. simpl. by rewrite <- !app_assoc.
    + intros k Hk. unfold x1. simpl.
      replace (Z.to_nat (j + 1 - 1) + k)%nat with (Z.to_nat (j - 1) + S k)%nat by lia.
      rewrite list_lookup_insert_ne by lia.
      rewrite Hu by lia. simpl. do 2 f_equal. unfold len.
      rewrite !length_app, rotr_length. lia.
    + unfold x1. simpl. rewrite Hsl in Hsz. unfold len in *.
      rewrite !length_app in *. simpl in *. rewrite !length_app in *. simpl.
      rewrite rotr_length. lia.
    + exists h', w. split; [|split].
      * rewrite Hrun. unfold x1. simpl. do 2 f_equal.
        by rewrite <- !app_assoc.
      * rewrite Hwl. unfold x1. simpl. by rewrite length_insert.
      * intros i. rewrite Hw. unfold x1. simpl.
        replace (Z.to_nat (j + 1 - 1)) with (S (Z.to_nat (j - 1))) by lia.
        destruct (decide (i = Z.to_nat (j - 1))) as [->|Hne].
        -- rewrite decide_False by lia. rewrite decide_True by lia.
           rewrite list_lookup_insert_eq by (apply lookup_lt_Some in Hs; lia).
           rewrite Hs. simpl. f_equal. lia.
        -- rewrite list_lookup_insert_ne by lia.
           repeat case_decide; try done; lia.
Qed.

End RemoveFacts.

Section RemoveBody.
Context {PF : Platform} {VIC : VarImpConf} {M : Type} {MM : MemoryManagerOps M}.

Lemma free_add_ok (x : VarImp) (n : Z) :
  0 <= free_bits → 0 <= free_and_bits x →
  small x → free_slots x = n → n + 1 <= len (slots x) →
  0 <= free_and_bits x + 2 ^ free_bits < 2 ^ 32 ∧
  Z.shiftr (free_and_bits x + 2 ^ free_bits) free_bits = n + 1.
Proof.
  intros Hfb Hb0 Hsmall Hfree Hn. unfold small, free_slots in *.
  assert (Hp : 0 < 2 ^ free_bits) by (apply Z.pow_pos_nonneg; lia).
  rewrite shiftr_pow in * by done.
  pose proof (Z.mul_succ_div_gt (free_and_bits x) (2 ^ free_bits) Hp) as Hlt.
  rewrite Hfree in Hlt.
  assert (0 <= n) by (rewrite <- Hfree; apply Z.div_pos; lia).
  assert ((n + 2) * 2 ^ free_bits <= (3 * len (slots x) + 8) * 2 ^ free_bits)
    by (apply Z.mul_le_mono_nonneg_r; lia).
  split; [lia|].
  replace (free_and_bits x + 2 ^ free_bits) with (free_and_bits x + 1 * 2 ^ free_bits) by lia.
  rewrite Z.div_add by lia. lia.
Qed.

Lemma remove_layout (home : Space M) (x : VarImp) (p pc : Z) lo B1 B2 hi adv fr :
  layout x (lo ++ (B1 ++ p :: B2) :: hi) adv [] fr → small x → p ∉ B1 → pc = len lo →
  ∃ x1 h,
    remove home x p pc = Some (set_n_sub home (u32 (n_sub home - 1)), x1) ∧
    layout x1 (lo ++ (B1 ++ rotr B2) :: (rotr <$> hi)) (rotr adv) [] (h :: fr) ∧
    base x1 = base x ∧ len (slots x1) = len (slots x).
Proof.
  intros [[Hpm Hfb] Hbk Hw Hsl Hidx Hent Hfree Hbits Hbase] Hsmall Hni ->.
  set (B := B1 ++ p :: B2) in *.
  assert (Hlen : length (lo ++ B :: hi) = S (length lo + length hi)).
  { rewrite length_app. simpl. lia. }
  assert (Hpcm : len lo + len hi = pc_max) by (unfold len in *; lia).
  pose proof (len_nonneg lo) as Hlo0. pose proof (len_nonneg hi) as Hhi0.
  simpl in Hsl.
  assert (Hsz : len (slots x) < 2 ^ 32).
  { unfold small in Hsmall. pose proof (len_nonneg (slots x)).
    assert (0 < 2 ^ free_bits) by (apply Z.pow_pos_nonneg; lia). nia. }
  assert (Hsl' : slots x = (concat lo ++ B1) ++ p :: B2 ++ concat hi ++ adv ++ fr).
  { rewrite Hsl. rewrite concat_app. simpl. unfold B. by rewrite <- !app_assoc. }
  assert (Huprev : len lo ≠ 0 → u x !! Z.to_nat (len lo - 1) = Some (len (concat lo))).
  { intros Hne.
    replace (Z.to_nat (len lo - 1)) with (length lo - 1)%nat by (unfold len; lia).
    rewrite Hidx by (unfold len in *; lia).
    do 3 f_equal. replace (S (length lo - 1)) with (length lo) by (unfold len in *; lia).
    by rewrite take_app_length. }
  assert (Hzero : len lo = 0 → len (concat lo) = 0).
  { intros Hz. destruct lo; [done|]. unfold len in Hz. simpl in Hz. lia. }
  assert (Hpre : ∀ k : nat, (k ≤ length hi)%nat →
            concat (take (S (length lo + k)) (lo ++ B :: hi))
            = concat lo ++ B ++ concat (take k hi)).
  { intros k Hk.
    replace (lo ++ B :: hi) with ((lo ++ [B]) ++ hi) by (by rewrite <- app_assoc).
    replace (S (length lo + k)) with (length (lo ++ [B]) + k)%nat
      by (rewrite length_app; simpl; lia).
    rewrite take_app_add. rewrite !concat_app. simpl. rewrite app_nil_r.
    by rewrite <- !app_assoc. }
  unfold remove.
  destruct (Z.leb_spec (len lo) pc_max); [|lia].
  rewrite (actor_bound x (len lo) (len (concat lo))); [|lia|done|done]. simpl.
  rewrite (find_actor_spec x p (concat lo) B1 (B2 ++ concat hi ++ adv ++ fr)); [|by rewrite Hsl', <- !app_assoc|done].
  simpl.
  rewrite (actorNonZero_eq x (len lo + 1)) by lia.
  replace (Z.to_nat (len lo + 1 - 1)) with (length lo) by (unfold len; lia).
  rewrite Hidx by lia.
  specialize (Hpre 0%nat) as Hpre0. rewrite Nat.add_0_r in Hpre0. rewrite Hpre0 by lia.
  simpl. rewrite app_nil_r.
  destruct (hole_down (concat lo ++ B1) B2 (concat hi ++ adv ++ fr) p) as [Hrd Hwr].
  assert (HlenB : len (concat lo ++ B) - 1 = len ((concat lo ++ B1) ++ B2)).
  { unfold B, len. rewrite !length_app. simpl. lia. }
  rewrite HlenB. rewrite load_eq by apply len_nonneg.
  rewrite to_nat_len, Hsl', Hrd. simpl.
  rewrite store_eq.
  2:{ split; [apply len_nonneg|]. rewrite Hsl'. unfold len. rewrite !length_app. simpl. lia. }
  simpl. rewrite to_nat_len, Hsl', Hwr.
  set (h1 := default p (last B2)).
  set (x1 := set_slots _ _).
  set (L1 := concat lo ++ B1 ++ rotr B2).
  assert (HlenL1 : len L1 + 1 = len (concat lo ++ B)).
  { unfold L1, B, len. rewrite !length_app, rotr_length. simpl. lia. }
  destruct (remove_loop_spec (length hi) x1 (len lo + 1) L1 hi h1 (adv ++ fr))
    as (h2 & w & Hrun & Hwl & Hwi); try done; try lia.
  { unfold len in *. lia. }
  { unfold x1, L1. simpl. by rewrite <- !app_assoc. }
  { intros k Hk. unfold x1. simpl.
    replace (Z.to_nat (len lo + 1 - 1) + k)%nat with (length lo + k)%nat by (unfold len; lia).
    rewrite Hidx by lia. rewrite Hpre by done. do 2 f_equal.
    unfold len in *. rewrite !length_app in *. lia. }
  { unfold x1. simpl. rewrite Hsl' in Hsz. unfold len in *.
    rewrite !length_app in *. simpl in *. rewrite !length_app in *. simpl.
    rewrite rotr_length. lia. }
  replace (Z.to_nat (pc_max - len lo)) with (length hi) by (unfold len in *; lia).
  rewrite Hrun. simpl. unfold x1 in *. simpl in *.
  replace (Z.to_nat (len lo + 1 - 1)) with (length lo) in Hwi by (unfold len; lia).
  clear Hrun x1.
  set (x2 := mkVarImp _ _ _ _ _).
  set (L2 := L1 ++ concat (rotr <$> hi)).
  assert (HlenL2 : len L2 + 1 = len (concat (lo ++ B :: hi))).
  { unfold L2. rewrite concat_app. simpl. unfold len in *.
    rewrite !length_app in *. rewrite concat_rotr_length. lia. }
  assert (Hsl2 : slots x2 = L2 ++ h2 :: adv ++ fr).
  { unfold x2, L2. simpl. by rewrite <- !app_assoc. }
  assert (Hu2 : u x2 = w) by done.
  assert (He2 : entries x2 = entries x) by done.
  assert (Hf2 : free_and_bits x2 = free_and_bits x) by done.
  assert (Hb2 : base x2 = base x) by done.
  clearbody x2.
  assert (Hwmax : w !! (length lo + length hi)%nat = Some (len L2 + 1)).
  { rewrite Hwi. rewrite decide_False by lia. rewrite Hidx by lia.
    rewrite take_ge by lia. by rewrite HlenL2. }
  rewrite (actorNonZero_eq x2 (pc_max + 1)) by lia.
  replace (Z.to_nat (pc_max + 1 - 1)) with (length lo + length hi)%nat by (unfold len in *; lia).
  rewrite Hu2, Hwmax. simpl.
  destruct (hole_down L2 adv fr h2) as [Hrd2 Hwr2].
  assert (Hent1 : entries x - 1 = len (L2 ++ adv)).
  { rewrite Hent. rewrite !len_app. lia. }
  rewrite ?He2, Hent1.
  pose proof (len_nonneg (L2 ++ adv)) as HL2a.
  assert (HL2lt : len (L2 ++ adv) < len (slots x)).
  { rewrite Hsl. unfold len in *. rewrite !length_app in *. lia. }
  rewrite (u32_small (len (L2 ++ adv))) by lia.
  rewrite load_eq by lia. rewrite to_nat_len, Hsl2, Hrd2. simpl.
  replace (len L2 + 1 - 1) with (len L2) by lia.
  rewrite store_eq.
  2:{ split; [apply len_nonneg|]. rewrite Hsl2. unfold len. rewrite !length_app. simpl. lia. }
  simpl. rewrite (idx_eq _ (pc_max + 1)) by lia. simpl.
  replace (Z.to_nat (pc_max + 1 - 1)) with (length lo + length hi)%nat by (unfold len in *; lia).
  rewrite Hu2, Hwmax. simpl.
  rewrite set_idx_eq; [|lia|].
  2:{ simpl. rewrite Hu2. apply lookup_lt_Some in Hwmax. unfold len in *. lia. }
  simpl.
  replace (Z.to_nat (pc_max + 1 - 1)) with (length lo + length hi)%nat by (unfold len in *; lia).
  rewrite to_nat_len, Hsl2, Hwr2, Hu2, ?He2, ?Hf2.
  replace (len L2 + 1 - 1) with (len L2) by lia.
  rewrite (u32_small (len L2)) by (pose proof (len_nonneg L2); rewrite len_app in HL2lt; pose proof (len_nonneg adv); lia).
  rewrite shiftl_pow by done. rewrite Z.mul_1_l.
  destruct (free_add_ok x (len fr)) as [Hfa1 Hfa2]; try done; try lia.
  { rewrite Hsl. unfold len. rewrite !length_app. simpl.
    pose proof (concat_remove_length lo hi B1 B2 p) as Hcr. fold B in Hcr. lia. }
  rewrite (u32_small (free_and_bits x + _)) by done.
  eexists _, _. split; [reflexivity|].
  split; [|split; [by simpl|]].
  2:{ simpl. unfold L2, L1, len. repeat (rewrite ?length_app; simpl).
      rewrite ?rotr_length, ?concat_rotr_length. lia. }
  constructor; simpl; unfold free_slots; simpl.
  - done.
  - unfold len in *. rewrite length_app in *. simpl in *. rewrite length_fmap. lia.
  - unfold len in *. rewrite length_insert. lia.
  - unfold L2, L1. rewrite concat_app. simpl. by rewrite <- !app_assoc.
  - intros k Hk. fold B. rewrite (prefix_len_remove lo hi B1 B2 p k). fold B.
    assert (Hk' : (k < length (lo ++ B :: hi))%nat).
    { rewrite length_app in *. simpl in *. rewrite length_fmap in Hk. lia. }
    destruct (decide (k = length lo + length hi)%nat) as [->|Hne].
    + rewrite list_lookup_insert_eq by (apply lookup_lt_Some in Hwmax; lia).
      rewrite decide_True by lia. f_equal.
      rewrite take_ge by lia. lia.
    + rewrite list_lookup_insert_ne by lia. rewrite Hwi.
      case_decide; case_decide; try lia.
      all: rewrite Hidx by lia; simpl; f_equal; rewrite ?Z.sub_0_r; done.
  - rewrite Hent1. rewrite u32_small by lia. unfold L2, L1, len.
    rewrite !concat_app. simpl. repeat (rewrite ?length_app; simpl).
    rewrite ?rotr_length, ?concat_rotr_length. lia.
  - rewrite Hfa2. rewrite len_cons. lia.
  - done.
  - destruct Hbase as [Hc Hn]. unfold copied in *. simpl. rewrite Hb2. split; [done|].
    intros Hb. specialize (Hn Hb). rewrite Hsl' in Hn.
    apply (f_equal length) in Hn. rewrite !length_app in Hn. simpl in Hn. lia.
Qed.

End RemoveBody.

(** ** Entering and removing an advisor *)

Section AdvisorFacts.
Context {PF : Platform} {VIC : VarImpConf} {M : Type} {MM : MemoryManagerOps M}.

Lemma enter_advisor_layout (home : Space M) (x : VarImp) (a : Z) bs adv fr :
  layout x bs adv [] fr → small x → fresh_ok home →
  ∃ home1 x1 fr',
    enter_advisor home x a = Some (home1, x1) ∧
    layout x1 bs (a :: rot adv) [] fr' ∧
    (n_sub home1 = u32 (n_sub home + 1) ∧ queue home1 = queue home).
Proof.
  intros Hlay Hsmall Hfresh.
  destruct (make_room_spec home x _ _ _ Hlay Hsmall Hfresh)
    as (home1 & x1 & f & fr' & Hroom & Hlay1 & Hsz & Hns).
  destruct Hlay1 as [[Hpm Hfb] Hbk Hw Hsl Hidx Hent Hfree Hbits Hbase].
  simpl in Hsl.
  unfold enter_advisor. rewrite Hroom. simpl.
  assert (Hs : actorNonZero x1 (pc_max + 1) = Some (len (concat bs))).
  { rewrite actorNonZero_eq by lia.
    replace (Z.to_nat (pc_max + 1 - 1)) with (length bs - 1)%nat by (unfold len in *; lia).
    rewrite Hidx by (unfold len in *; lia). rewrite take_ge by lia. done. }
  rewrite Hs. simpl.
  destruct (hole_up (concat bs) adv fr' f) as [Hrd Hwr].
  rewrite load_eq by apply len_nonneg. rewrite to_nat_len, Hsl, Hrd. simpl.
  rewrite store_eq.
  2:{ rewrite Hent, Hsl. split; [apply len_nonneg|]. unfold len. rewrite !length_app. simpl. lia. }
  simpl. rewrite Hent, to_nat_len, Hsl, Hwr.
  set (x3 := set_entries _ _).
  assert (Ht : actorNonZero x3 (pc_max + 1) = Some (len (concat bs))).
  { rewrite <- Hs. unfold actorNonZero. done. }
  rewrite Ht. simpl.
  rewrite store_eq.
  2:{ split; [apply len_nonneg|]. unfold x3. simpl. unfold len. rewrite !length_app. simpl. lia. }
  exists home1. eexists. exists fr'. split; [reflexivity|]. split; [|done].
  simpl. rewrite to_nat_len.
  replace (length (concat bs)) with (length (concat bs) + 0)%nat by lia.
  rewrite insert_app_r. simpl.
  assert (Hlt : len (concat bs ++ adv) < len (slots x1)).
  { rewrite Hsl. unfold len. rewrite !length_app. simpl. lia. }
  pose proof (len_nonneg (concat bs ++ adv)).
  constructor; simpl; unfold free_slots; simpl; try done.
  - rewrite u32_small by lia. unfold len. rewrite !length_app. simpl.
    rewrite rot_length. lia.
  - destruct Hbase as [Hc Hn]. split; [done|].
    intros Hb. specialize (Hn Hb). rewrite Hsl in Hn.
    apply (f_equal length) in Hn. rewrite !length_app in Hn. simpl in Hn. lia.
Qed.

Lemma remove_advisor_layout (home : Space M) (x : VarImp) (a : Z) bs A1 A2 fr :
  layout x bs (A1 ++ a :: A2) [] fr → small x → a ∉ A1 →
  ∃ x1 h,
    remove_advisor home x a = Some (set_n_sub home (u32 (n_sub home - 1)), x1) ∧
    layout x1 bs (A1 ++ rotr A2) [] (h :: fr).
Proof.
  intros [[Hpm Hfb] Hbk Hw Hsl Hidx Hent Hfree Hbits Hbase] Hsmall Hni.
  simpl in Hsl.
  assert (Hsl' : slots x = (concat bs ++ A1) ++ a :: A2 ++ fr).
  { rewrite Hsl. by rewrite <- !app_assoc. }
  assert (Hsz : len (slots x) < 2 ^ 32).
  { unfold small in Hsmall. pose proof (len_nonneg (slots x)).
    assert (0 < 2 ^ free_bits) by (apply Z.pow_pos_nonneg; lia). nia. }
  unfold remove_advisor.
  assert (Hs : actorNonZero x (pc_max + 1) = Some (len (concat bs))).
  { rewrite actorNonZero_eq by lia.
    replace (Z.to_nat (pc_max + 1 - 1)) with (length bs - 1)%nat by (unfold len in *; lia).
    rewrite Hidx by (unfold len in *; lia). rewrite take_ge by lia. done. }
  rewrite Hs. simpl.
  rewrite (find_actor_spec x a (concat bs) A1 (A2 ++ fr)); [|by rewrite Hsl', <- !app_assoc|done].
  simpl.
  destruct (hole_down (concat bs ++ A1) A2 fr a) as [Hrd Hwr].
  assert (Hent1 : entries x - 1 = len ((concat bs ++ A1) ++ A2)).
  { rewrite Hent, !len_app, len_cons. lia. }
  assert (Hlt : len ((concat bs ++ A1) ++ A2) < len (slots x)).
  { rewrite Hsl'. rewrite !len_app, len_cons, len_app.
    pose proof (len_nonneg A2). pose proof (len_nonneg fr). lia. }
  pose proof (len_nonneg ((concat bs ++ A1) ++ A2)).
  rewrite Hent1. rewrite (u32_small (len ((concat bs ++ A1) ++ A2))) by lia.
  rewrite load_eq by (simpl; lia). simpl. rewrite to_nat_len, Hsl', Hrd. simpl.
  rewrite store_eq.
  2:{ split; [apply len_nonneg|]. simpl. rewrite Hsl'. unfold len. rewrite !length_app. simpl. lia. }
  simpl. rewrite to_nat_len, Hsl', Hwr.
  rewrite shiftl_pow by done. rewrite Z.mul_1_l.
  destruct (free_add_ok x (len fr)) as [Hfa1 Hfa2]; try done; try lia.
  { rewrite Hsl'. rewrite !len_app, len_cons, len_app.
    pose proof (len_nonneg A2). pose proof (len_nonneg (concat bs)). pose proof (len_nonneg A1). lia. }
  rewrite (u32_small (free_and_bits x + _)) by done.
  eexists _, _. split; [reflexivity|].
  constructor; simpl; unfold free_slots; simpl; try done.
  - by rewrite <- !app_assoc.
  - unfold len in *. rewrite !length_app in *. rewrite rotr_length. lia.
  - rewrite Hfa2. rewrite len_cons. lia.
  - destruct Hbase as [Hc Hn]. split; [done|].
    intros Hb. specialize (Hn Hb). rewrite Hsl' in Hn.
    apply (f_equal length) in Hn. rewrite !length_app in Hn. simpl in Hn. lia.
Qed.

End AdvisorFacts.

(** ** Subscriptions and cancellations on the buckets *)

Lemma perm_middle_rotr (B1 B2 : list Z) (p : Z) : p :: B1 ++ rotr B2 ≡ₚ B1 ++ p :: B2.
Proof. rewrite rotr_perm. by rewrite Permutation_middle. Qed.

Lemma split_first (l : list Z) (a : Z) :
  a ∈ l → ∃ l1 l2, l = l1 ++ a :: l2 ∧ a ∉ l1.
Proof.
  induction l as [|b l IH]; intros Hin; [by apply elem_of_nil in Hin|].
  destruct (decide (b = a)) as [->|Hne].
  - exists [], l. split; [done|]. apply not_elem_of_nil.
  - apply elem_of_cons in Hin as [->|Hin]; [done|].
    destruct (IH Hin) as (l1 & l2 & -> & Hni).
    exists (b :: l1), l2. split; [done|].
    apply not_elem_of_cons. split; [congruence|done].
Qed.

Section Subscriptions.
Context {PF : Platform} {VIC : VarImpConf} {M : Type} {MM : MemoryManagerOps M}.

Lemma layout_other_bucket (x x1 : VarImp) lo B B' hi hi' adv adv' gap gap' fr fr' (f : list Z → list Z) (j : Z) :
  layout x (lo ++ B :: hi) adv gap fr →
  layout x1 (lo ++ B' :: hi') adv' gap' fr' →
  hi' = f <$> hi → (∀ l, f l ≡ₚ l) →
  0 <= j <= pc_max → j ≠ len lo →
  bucket x1 j ≡ₚ bucket x j.
Proof.
  intros Hlay Hlay1 -> Hf Hj Hne.
  pose proof (layout_bucket_at x _ _ _ _ j Hlay Hj) as Hb.
  pose proof (layout_bucket_at x1 _ _ _ _ j Hlay1 Hj) as Hb1.
  destruct (decide (Z.to_nat j < length lo)%nat) as [Hlt|Hge].
  - rewrite lookup_app_l in Hb, Hb1 by done. rewrite Hb in Hb1. by inversion Hb1.
  - assert (Hgt : (length lo < Z.to_nat j)%nat) by (unfold len in Hne; lia).
    rewrite lookup_app_r in Hb, Hb1 by lia.
    destruct (Z.to_nat j - length lo)%nat as [|k] eqn:Hk; [lia|]. simpl in Hb, Hb1.
    rewrite list_lookup_fmap, Hb in Hb1. simpl in Hb1. inversion Hb1 as [Heq].
    apply Hf.
Qed.

Lemma no_duplicates_from (x x1 : VarImp) (pc : Z) :
  (∀ j, 0 <= j <= pc_max → j ≠ pc → bucket x1 j ≡ₚ bucket x j) →
  (0 <= pc <= pc_max → NoDup (bucket x pc) → NoDup (bucket x1 pc)) →
  no_duplicates x → no_duplicates x1.
Proof.
  intros Hoth Hpc Hnd j Hj.
  destruct (decide (j = pc)) as [->|Hne].
  - apply Hpc; [done|]. by apply Hnd.
  - rewrite (Hoth j Hj Hne). by apply Hnd.
Qed.

Lemma enter_subscription (home : Space M) (x : VarImp) (p pc : Z) :
  well_formed x → small x → fresh_ok home → 0 <= pc <= pc_max →
  ∃ home1 x1,
    enter home x p pc = Some (home1, x1) ∧
    well_formed x1 ∧ boundaries_ok x1 ∧
    bucket x1 pc ≡ₚ p :: bucket x pc ∧
    (∀ j, 0 <= j <= pc_max → j ≠ pc → bucket x1 j ≡ₚ bucket x j) ∧
    advisors x1 ≡ₚ advisors x ∧
    (n_sub home1 = u32 (n_sub home + 1) ∧ queue home1 = queue home).
Proof.
  intros (bs & adv & fr & Hlay) Hsmall Hfresh Hpc.
  destruct (layout_split x bs adv [] fr pc Hlay Hpc) as (lo & B & hi & -> & Hlo).
  destruct (enter_layout home x p pc lo B hi adv fr Hlay Hsmall Hfresh (eq_sym Hlo))
    as (home1 & x1 & fr' & Hrun & Hlay1 & Hns).
  exists home1, x1. split; [done|].
  split; [by eexists _, _, _|].
  split; [by eapply layout_boundaries|].
  subst pc.
  split; [|split; [|split; [|done]]].
  - rewrite (layout_bucket x1 _ _ _ _ _ _ Hlay1), (layout_bucket x _ _ _ _ _ _ Hlay).
    by rewrite rot_perm.
  - intros j Hj Hne.
    by apply (layout_other_bucket x x1 lo B (p :: rot B) hi (rot <$> hi) adv (rot adv) [] [] fr fr' rot j Hlay Hlay1 eq_refl rot_perm).
  - rewrite (layout_advisors x1 _ _ _ _ Hlay1), (layout_advisors x _ _ _ _ Hlay).
    apply rot_perm.
Qed.

Lemma remove_subscription (home : Space M) (x : VarImp) (p pc : Z) :
  well_formed x → small x → 0 <= pc <= pc_max → p ∈ bucket x pc →
  ∃ x1,
    remove home x p pc = Some (set_n_sub home (u32 (n_sub home - 1)), x1) ∧
    well_formed x1 ∧ boundaries_ok x1 ∧
    p :: bucket x1 pc ≡ₚ bucket x pc ∧
    (∀ j, 0 <= j <= pc_max → j ≠ pc → bucket x1 j ≡ₚ bucket x j) ∧
    advisors x1 ≡ₚ advisors x.
Proof.
  intros (bs & adv & fr & Hlay) Hsmall Hpc Hin.
  destruct (layout_split x bs adv [] fr pc Hlay Hpc) as (lo & B & hi & -> & Hlo).
  subst pc. rewrite (layout_bucket x _ _ _ _ _ _ Hlay) in Hin.
  destruct (split_first B p Hin) as (B1 & B2 & -> & Hni).
  destruct (remove_layout home x p (len lo) lo B1 B2 hi adv fr Hlay Hsmall Hni eq_refl)
    as (x1 & h & Hrun & Hlay1 & _).
  exists x1. split; [done|].
  split; [by eexists _, _, _|].
  split; [by eapply layout_boundaries|].
  split; [|split].
  - rewrite (layout_bucket x1 _ _ _ _ _ _ Hlay1), (layout_bucket x _ _ _ _ _ _ Hlay).
    apply perm_middle_rotr.
  - intros j Hj Hne.
    by apply (layout_other_bucket x x1 lo (B1 ++ p :: B2) (B1 ++ rotr B2) hi (rotr <$> hi) adv (rotr adv) [] [] fr (h :: fr) rotr j Hlay Hlay1 eq_refl rotr_perm).
  - rewrite (layout_advisors x1 _ _ _ _ Hlay1), (layout_advisors x _ _ _ _ Hlay).
    apply rotr_perm.
Qed.

Lemma same_buckets (x x1 : VarImp) bs adv adv' gap gap' fr fr' (j : Z) :
  layout x bs adv gap fr → layout x1 bs adv' gap' fr' → 0 <= j <= pc_max →
  bucket x1 j = bucket x j.
Proof.
  intros Hlay Hlay1 Hj.
  pose proof (layout_bucket_at x _ _ _ _ j Hlay Hj) as Hb.
  pose proof (layout_bucket_at x1 _ _ _ _ j Hlay1 Hj) as Hb1.
  rewrite Hb in Hb1. by inversion Hb1.
Qed.

Lemma enter_advisor_subscription (home : Space M) (x : VarImp) (a : Z) :
  well_formed x → small x → fresh_ok home →
  ∃ home1 x1,
    enter_advisor home x a = Some (home1, x1) ∧
    well_formed x1 ∧ boundaries_ok x1 ∧
    (∀ j, 0 <= j <= pc_max → bucket x1 j = bucket x j) ∧
    advisors x1 ≡ₚ a :: advisors x ∧
    (n_sub home1 = u32 (n_sub home + 1) ∧ queue home1 = queue home).
Proof.
  intros (bs & adv & fr & Hlay) Hsmall Hfresh.
  destruct (enter_advisor_layout home x a bs adv fr Hlay Hsmall Hfresh)
    as (home1 & x1 & fr' & Hrun & Hlay1 & Hns).
  exists home1, x1. split; [done|].
  split; [by eexists _, _, _|].
  split; [by eapply layout_boundaries|].
  split; [|split; [|done]].
  - intros j Hj. by eapply same_buckets.
  - rewrite (layout_advisors x1 _ _ _ _ Hlay1), (layout_advisors x _ _ _ _ Hlay).
    by rewrite rot_perm.
Qed.

Lemma remove_advisor_subscription (home : Space M) (x : VarImp) (a : Z) :
  well_formed x → small x → a ∈ advisors x →
  ∃ x1,
    remove_advisor home x a = Some (set_n_sub home (u32 (n_sub home - 1)), x1) ∧
    well_formed x1 ∧ boundaries_ok x1 ∧
    (∀ j, 0 <= j <= pc_max → bucket x1 j = bucket x j) ∧
    a :: advisors x1 ≡ₚ advisors x.
Proof.
  intros (bs & adv & fr & Hlay) Hsmall Hin.
  rewrite (layout_advisors x _ _ _ _ Hlay) in Hin.
  destruct (split_first adv a Hin) as (A1 & A2 & -> & Hni).
  destruct (remove_advisor_layout home x a bs A1 A2 fr Hlay Hsmall Hni)
    as (x1 & h & Hrun & Hlay1).
  exists x1. split; [done|].
  split; [by eexists _, _, _|].
  split; [by eapply layout_boundaries|].
  split.
  - intros j Hj. by eapply same_buckets.
  - rewrite (layout_advisors x1 _ _ _ _ Hlay1), (layout_advisors x _ _ _ _ Hlay).
    apply perm_middle_rotr.
Qed.

End Subscriptions.

Section SubscribeTheorems.
Context {PF : Platform} {VIC : VarImpConf} {M : Type} {MM : MemoryManagerOps M}.
Variable cost : Z → Space M → Z → Z.

Lemma schedule_total (home : Space M) (p me : Z) :
  len (queue home) = PC_MAX + 1 →
  (∀ q h m, 0 <= cost q h m <= PC_MAX) →
  is_Some (schedule cost home p me).
Proof.
  intros Hq Hc. unfold schedule.
  destruct (med_update (default 0 (med home !! p)) me) as [m changed].
  destruct changed; [|done].
  unfold enqueue.
  set (home1 := unlink (set_med home (<[p:=m]> (med home))) p).
  specialize (Hc p home1 (default 0 (med home1 !! p))).
  set (c := cost p home1 (default 0 (med home1 !! p))) in *.
  assert (Hl : (Z.to_nat c < length (queue home1))%nat).
  { unfold home1. simpl. rewrite length_map. unfold len in Hq. lia. }
  destruct (lookup_lt_is_Some_2 _ _ Hl) as [q Hlk].
  destruct (Z.leb_spec 0 c); [|lia].
  destruct (Z.leb_spec c PC_MAX); [|lia].
  cbn [andb]. rewrite Hlk. done.
Qed.

(** [schedule] does what [scheduled] says. *)
Lemma schedule_scheduled (home home1 : Space M) (p me : Z) :
  schedule cost home p me = Some home1 → scheduled cost home p me home1.
Proof.
  unfold schedule.
  destruct (med_update (default 0 (med home !! p)) me) as [m changed] eqn:Hu.
  destruct changed.
  - unfold enqueue.
    set (homec := unlink (set_med home (<[p:=m]> (med home))) p).
    assert (Hm : default 0 (med homec !! p) = m).
    { unfold homec. simpl. by rewrite lookup_insert_eq. }
    rewrite Hm. set (c := cost p homec m).
    destruct ((0 <=? c) && (c <=? PC_MAX)); [|done].
    destruct (queue homec !! Z.to_nat c) as [q|] eqn:Hq; [|done].
    cbn [mbind option_bind].
    intros [= <-]. constructor; rewrite ?Hu; cbn [fst snd].
    + by destruct (_ >? _).
    + done.
    + intros _. fold homec. fold c.
      split; [by destruct (_ >? _)|].
      split. { destruct (_ >? _); simpl; by rewrite length_insert, length_map. }
      split.
      2:{ unfold queue_addr. simpl. destruct (_ >? _) eqn:Hg; simpl; [apply Z.gtb_gt in Hg|rewrite Z.gtb_ltb in Hg; apply Z.ltb_ge in Hg]; lia. }
      intros k q0 Hk.
      assert (Hk' : queue homec !! k = Some (filter (λ a, a ≠ p) q0)).
      { unfold homec. simpl. rewrite list_lookup_fmap, Hk. done. }
      assert (Hl : (Z.to_nat c < length (queue homec))%nat) by (by eapply lookup_lt_Some).
      assert (Hgoal : <[Z.to_nat c := q ++ [p]]> (queue homec) !! k =
                Some (filter (λ a, a ≠ p) q0 ++ (if decide (k = Z.to_nat c) then [p] else []))).
      { destruct (decide (k = Z.to_nat c)) as [->|Hne].
        - rewrite list_lookup_insert_eq by done. rewrite Hq in Hk'. by injection Hk' as ->.
        - rewrite list_lookup_insert_ne by done. by rewrite app_nil_r. }
      by destruct (_ >? _).
    + by destruct (_ >? _).
  - intros [= <-]. constructor; rewrite ?Hu; cbn [fst snd]; done.
Qed.

(** Making room for a subscription leaves the deltas and the chains of the
    space as they are. *)
Lemma make_room_chains (home home1 : Space M) (x x1 : VarImp) :
  make_room home x = Some (home1, x1) →
  med home1 = med home ∧ a_actors home1 = a_actors home ∧
  queue home1 = queue home ∧ active home1 = active home.
Proof.
  unfold make_room.
  destruct (Z.shiftr (free_and_bits x) free_bits =? 0).
  - unfold resize.
    destruct (base x =? NULL).
    + destruct (Z.shiftr (free_and_bits x) free_bits =? 0); [|done].
      unfold alloc_ptrs, ralloc. simpl.
      destruct (mm_alloc _ _) as [b m1]. simpl. by intros [= <- <-].
    + destruct (degree x) as [n|]; [|done]. cbn [mbind option_bind].
      unfold alloc_ptrs, ralloc. simpl.
      destruct (mm_alloc _ _) as [b m1]. simpl.
      destruct (_ && _); [|done]. simpl. by intros [= <- <-].
  - simpl. by intros [= <- <-].
Qed.

Lemma enter_chains (home home1 : Space M) (x x1 : VarImp) (p pc : Z) :
  enter home x p pc = Some (home1, x1) →
  med home1 = med home ∧ a_actors home1 = a_actors home ∧
  queue home1 = queue home ∧ active home1 = active home.
Proof.
  unfold enter. destruct (pc <=? pc_max); [|done].
  intros He. apply bind_Some in He as ([h x'] & Hroom & He).
  repeat (apply bind_Some in He as (? & _ & He)).
  injection He as <- _. by apply (make_room_chains home h x x').
Qed.

(** C1: with [assigned] the propagator is not entered, and it is scheduled
    with [ME_GEN_ASSIGNED] exactly when [schedule] is set: then the space
    shows what scheduling does, and otherwise it is the space from before.
    Without [assigned] the propagator is entered into the bucket for [pc],
    which schedules nothing, and afterwards it is scheduled with [me]
    exactly when [schedule] is set and [pc] is not [PC_GEN_ASSIGNED]. *)
Theorem subscribe_propagator (home : Space M) (x : VarImp) (p pc : Z)
    (assigned : bool) (me : Z) (sched : bool) :
  well_formed x → small x → fresh_ok home → 0 <= pc <= pc_max →
  len (queue home) = PC_MAX + 1 →
  (∀ q h m, 0 <= cost q h m <= PC_MAX) →
  ∃ home1 x1,
    subscribe cost home x p pc assigned me sched = Some (home1, x1) ∧
    if assigned then
      x1 = x ∧
      (if sched then scheduled cost home p ME_GEN_ASSIGNED home1 else home1 = home)
    else
      ∃ home0,
        enter home x p pc = Some (home0, x1) ∧
        bucket x1 pc ≡ₚ p :: bucket x pc ∧
        (∀ j, 0 <= j <= pc_max → j ≠ pc → bucket x1 j ≡ₚ bucket x j) ∧
        advisors x1 ≡ₚ advisors x ∧
        (med home0 = med home ∧ a_actors home0 = a_actors home ∧
         queue home0 = queue home ∧ active home0 = active home) ∧
        (if sched && negb (pc =? PC_GEN_ASSIGNED)
         then scheduled cost home0 p me home1 else home1 = home0).
Proof.
  intros Hwf Hsmall Hfresh Hpc Hq Hc. unfold subscribe.
  destruct assigned.
  - destruct sched.
    + destruct (schedule_total home p ME_GEN_ASSIGNED Hq Hc) as [home1 Hs].
      rewrite Hs. simpl. exists home1, x. split; [done|]. split; [done|].
      by apply schedule_scheduled.
    + by exists home, x.
  - destruct (enter_subscription home x p pc Hwf Hsmall Hfresh Hpc)
      as (home0 & x1 & Hrun & _ & _ & Hb & Hoth & Hadv & _ & Hqu).
    rewrite Hrun. simpl.
    assert (Hq0 : len (queue home0) = PC_MAX + 1) by (by rewrite Hqu).
    pose proof (enter_chains _ _ _ _ _ _ Hrun) as Hch.
    destruct (sched && negb (pc =? PC_GEN_ASSIGNED)).
    + destruct (schedule_total home0 p me Hq0 Hc) as [home1 Hs].
      rewrite Hs. simpl. exists home1, x1. split; [done|]. exists home0.
      repeat (split; [done|]). by apply schedule_scheduled.
    + exists home0, x1. split; [done|]. by exists home0.
Qed.

(** C5, as the code has it: entering and removing a propagator or an
    advisor keeps the array laid out in buckets of ascending propagation
    condition followed by the advisors, with weakly increasing boundaries;
    the buckets change by the actor entered or removed only. No check for
    duplicates is made on entering: a bucket without duplicates stays so
    when the propagator entered is not yet in it, and on every removal. *)
Theorem subscriptions_keep_layout (home : Space M) (x : VarImp) (p a pc : Z) :
  well_formed x → small x → fresh_ok home → 0 <= pc <= pc_max →
  (∃ home1 x1,
     enter home x p pc = Some (home1, x1) ∧
     well_formed x1 ∧ boundaries_ok x1 ∧
     bucket x1 pc ≡ₚ p :: bucket x pc ∧
     (∀ j, 0 <= j <= pc_max → j ≠ pc → bucket x1 j ≡ₚ bucket x j) ∧
     advisors x1 ≡ₚ advisors x ∧
     (no_duplicates x → p ∉ bucket x pc → no_duplicates x1)) ∧
  (∃ home1 x1,
     enter_advisor home x a = Some (home1, x1) ∧
     well_formed x1 ∧ boundaries_ok x1 ∧
     (∀ j, 0 <= j <= pc_max → bucket x1 j = bucket x j) ∧
     advisors x1 ≡ₚ a :: advisors x ∧
     (no_duplicates x → no_duplicates x1)) ∧
  (p ∈ bucket x pc →
   ∃ home1 x1,
     remove home x p pc = Some (home1, x1) ∧
     well_formed x1 ∧ boundaries_ok x1 ∧
     p :: bucket x1 pc ≡ₚ bucket x pc ∧
     (∀ j, 0 <= j <= pc_max → j ≠ pc → bucket x1 j ≡ₚ bucket x j) ∧
     advisors x1 ≡ₚ advisors x ∧
     (no_duplicates x → no_duplicates x1)) ∧
  (a ∈ advisors x →
   ∃ home1 x1,
     remove_advisor home x a = Some (home1, x1) ∧
     well_formed x1 ∧ boundaries_ok x1 ∧
     (∀ j, 0 <= j <= pc_max → bucket x1 j = bucket x j) ∧
     a :: advisors x1 ≡ₚ advisors x ∧
     (no_duplicates x → no_duplicates x1)).
Proof.
  intros Hwf Hsmall Hfresh Hpc. split; [|split; [|split]].
  - destruct (enter_subscription home x p pc Hwf Hsmall Hfresh Hpc)
      as (home1 & x1 & Hrun & Hwf1 & Hbd & Hb & Hoth & Hadv & _).
    exists home1, x1. repeat (split; [done|]).
    intros Hnd Hni. apply (no_duplicates_from x x1 pc Hoth); [|done].
    intros _ Hn. rewrite Hb. by apply NoDup_cons.
  - destruct (enter_advisor_subscription home x a Hwf Hsmall Hfresh)
      as (home1 & x1 & Hrun & Hwf1 & Hbd & Hsame & Hadv & _).
    exists home1, x1. repeat (split; [done|]).
    intros Hnd j Hj. rewrite Hsame by done. by apply Hnd.
  - intros Hin.
    destruct (remove_subscription home x p pc Hwf Hsmall Hpc Hin)
      as (x1 & Hrun & Hwf1 & Hbd & Hb & Hoth & Hadv).
    eexists _, x1. repeat (split; [done|]).
    intros Hnd. apply (no_duplicates_from x x1 pc Hoth); [|done].
    intros _ Hn. rewrite <- Hb in Hn. by apply NoDup_cons in Hn as [_ Hn].
  - intros Hin.
    destruct (remove_advisor_subscription home x a Hwf Hsmall Hin)
      as (x1 & Hrun & Hwf1 & Hbd & Hsame & Hadv).
    eexists _, x1. repeat (split; [done|]).
    intros Hnd j Hj. rewrite Hsame by done. by apply Hnd.
Qed.

End SubscribeTheorems.

(** ** The theorems on subscriptions at concrete variable implementations *)

Section SubscribeExamples.
#[local] Existing Instance ExampleConf.

Lemma space0_fresh_ok : fresh_ok space0.
Proof. intros s. split; done. Qed.

Lemma space1_fresh_ok : fresh_ok space1.
Proof. intros s. split; done. Qed.

Lemma var0_well_formed : well_formed var0.
Proof.
  exists [[]; []; []], [], []. constructor; try done.
  intros k Hk. simpl in Hk.
  destruct k as [|[|[|k]]]; simpl; try done. lia.
Qed.

Lemma var1_well_formed : well_formed var1.
Proof.
  exists [[11]; []; []], [], [0; 0; 0]. constructor; try done.
  intros k Hk. simpl in Hk.
  destruct k as [|[|[|k]]]; simpl; try done. lia.
Qed.

Lemma var3_well_formed : well_formed var3.
Proof.
  exists [[11]; []; []], [21], [0; 0]. constructor; try done.
  intros k Hk. simpl in Hk.
  destruct k as [|[|[|k]]]; simpl; try done. lia.
Qed.

Lemma var0_small : small var0.
Proof. reflexivity. Qed.

Lemma var1_small : small var1.
Proof. reflexivity. Qed.

Lemma var3_small : small var3.
Proof. reflexivity. Qed.

Lemma var1_no_duplicates : no_duplicates var1.
Proof.
  intros pc Hpc. simpl in Hpc.
  assert (Hc : pc = 0 ∨ pc = 1 ∨ pc = 2) by lia.
  destruct Hc as [Hc|[Hc|Hc]]; subst pc.
  - change (bucket var1 0) with [11]. apply NoDup_singleton.
  - change (bucket var1 1) with (@nil Z). apply NoDup_nil_2.
  - change (bucket var1 2) with (@nil Z). apply NoDup_nil_2.
Qed.

(** C5: a propagator that subscribes a second time with the same
    propagation condition is entered a second time; the bucket of a
    well-formed variable implementation without duplicates then holds it
    twice. *)
Lemma enter_twice_counterexample :
  well_formed var1 ∧ no_duplicates var1 ∧
  enter space1 var1 11 0 = Some (space2, var2) ∧
  bucket var2 0 = [11; 11] ∧
  ¬ no_duplicates var2.
Proof.
  split; [apply var1_well_formed|]. split; [apply var1_no_duplicates|].
  split; [reflexivity|]. split; [reflexivity|].
  intros Hnd. specialize (Hnd 0). change (bucket var2 0) with [11; 11] in Hnd.
  assert (H0 : 0 <= 0 <= pc_max) by (simpl; lia).
  apply Hnd in H0. apply NoDup_cons in H0 as [Hni _].
  apply Hni. apply elem_of_cons. by left.
Qed.

Lemma subscriptions_keep_layout_witness :
  ∃ home1 x1, enter space0 var3 12 1 = Some (home1, x1) ∧ well_formed x1.
Proof.
  destruct (subscriptions_keep_layout space0 var3 12 21 1
              var3_well_formed var3_small space0_fresh_ok)
    as [(home1 & x1 & Hrun & Hwf & _) _].
  - simpl. lia.
  - by exists home1, x1.
Defined.

Lemma subscribe_propagator_witness :
  ∃ home1 x1, subscribe cost4 space0 var0 11 1 false 2 true = Some (home1, x1) ∧
              med home1 !! 11 = Some 2.
Proof.
  destruct (subscribe_propagator cost4 space0 var0 11 1 false 2 true
              var0_well_formed var0_small space0_fresh_ok)
    as (home1 & x1 & Hrun & home0 & _ & _ & _ & _ & (Hm & _) & Hsch).
  - simpl. lia.
  - reflexivity.
  - intros q h m. unfold cost4, PC_MAX. lia.
  - exists home1, x1. split; [done|].
    destruct Hsch as [Hmed _ _ _]. rewrite Hmed, Hm. reflexivity.
Defined.

End SubscribeExamples.

(** ** VarImp::resize *)

Section ResizeTheorem.
Context {PF : Platform} {VIC : VarImpConf} {M : Type} {MM : MemoryManagerOps M}.

(** C8, as the code has it: called on a full array, [resize] gives the
    array four slots on the first allocation; afterwards, with [n] used
    entries, [n + 4] slots when the array lies in the area for
    subscriptions and the integer part of [1.5 (n + 1)] slots otherwise.
    The used entries keep their places, and the free-slot count grows by
    the slots gained. *)
Theorem resize_growth (home : Space M) (x : VarImp) :
  well_formed x → free_slots x = 0 → small x → fresh_ok home →
  ∃ home1 x1,
    resize home x = Some (home1, x1) ∧
    len (slots x1) =
      (if base x =? NULL then 4
       else if in_subscriptions home x then entries x + 4
       else (3 * (entries x + 1)) / 2) ∧
    take (Z.to_nat (entries x)) (slots x1) = take (Z.to_nat (entries x)) (slots x) ∧
    entries x1 = entries x ∧ u x1 = u x ∧
    free_slots x1 = free_slots x + (len (slots x1) - len (slots x)).
Proof.
  intros (bs & adv & fr & Hlay) Hfree Hsmall Hfresh.
  assert (fr = []) as ->.
  { destruct Hlay as [_ _ _ _ _ _ Hf _ _]. rewrite Hfree in Hf.
    destruct fr; [done|]. rewrite len_cons in Hf. pose proof (len_nonneg fr). lia. }
  destruct (resize_spec home x bs adv Hlay Hsmall Hfresh)
    as (home1 & x1 & Hrs & Hsl1 & Hgr & Hlen1 & Hfb1 & Hfs1 & He1 & Hu1 & _ & _ & _ & _).
  exists home1, x1. split; [done|].
  destruct Hlay as [_ _ _ Hsl _ Hent _ _ _]. rewrite !app_nil_r in Hsl.
  assert (Hn : entries x = len (slots x)) by (by rewrite Hent, Hsl).
  split; [by rewrite Hlen1|].
  split; [|split; [done|split; [done|]]].
  - rewrite Hsl1, Hn, to_nat_len. rewrite take_app_length. by rewrite take_ge.
  - rewrite Hfs1, Hfree, Hlen1, Hn. lia.
Qed.

End ResizeTheorem.

Section ResizeExamples.
#[local] Existing Instance ExampleConf.

Lemma var4_well_formed : well_formed var4.
Proof.
  exists [[14; 11]; [13]; [12]], [], []. constructor; try done.
  intros k Hk. simpl in Hk.
  destruct k as [|[|[|k]]]; simpl; try done. lia.
Qed.

(** C8: a full array of four entries outside of the area for subscriptions
    is resized to 7 slots, the integer part of 7.5, and not to 8. *)
Lemma resize_floor_counterexample :
  well_formed var4 ∧ free_slots var4 = 0 ∧ in_subscriptions space4 var4 = false ∧
  (λ r, len (slots r.2)) <$> resize space4 var4 = Some 7 ∧
  (3 * (entries var4 + 1) + 1) / 2 = 8.
Proof.
  split; [apply var4_well_formed|]. repeat split; reflexivity.
Qed.

Lemma resize_growth_witness :
  ∃ home1 x1, resize space4 var4 = Some (home1, x1) ∧ len (slots x1) = 7.
Proof.
  destruct (resize_growth space4 var4 var4_well_formed) as (home1 & x1 & Hrs & Hlen & _).
  - reflexivity.
  - reflexivity.
  - intros s. split; done.
  - exists home1, x1. split; [done|]. rewrite Hlen. reflexivity.
Defined.

End ResizeExamples.

(** ** Cloning: forwarding and reset *)

Lemma marked_mark (p : Z) : marked (mark p) = true.
Proof.
  unfold marked, mark. rewrite Z.lor_spec. simpl. apply orb_true_r.
Qed.

Lemma unmark_mark (p : Z) : marked p = false → unmark (mark p) = p.
Proof.
  unfold marked, mark, unmark. intros Hp.
  apply Z.bits_inj'. intros n Hn.
  rewrite Z.ldiff_spec, Z.lor_spec.
  destruct (Z.eq_dec n 0) as [->|Hne].
  - rewrite Hp. reflexivity.
  - assert (Z.testbit 1 n = false) as ->.
    { destruct n as [|n|n]; try done. }
    rewrite orb_false_r. simpl. apply andb_true_r.
Qed.

Section CloneFacts.
Context {PF : Platform} {VIC : VarImpConf}.

Lemma copy_idx_spec (n : nat) :
  ∀ (pc : Z) (x c : VarImp),
  0 < pc → pc + Z.of_nat n <= pc_max + 2 →
  pc - 1 + Z.of_nat n <= len (u x) → pc - 1 + Z.of_nat n <= len (u c) →
  ∃ w,
    copy_idx n pc x c = Some (set_u c w) ∧ length w = length (u c) ∧
    ∀ k : nat, w !! k =
      if decide (Z.to_nat (pc - 1) ≤ k < Z.to_nat (pc - 1) + n)%nat
      then u x !! k else u c !! k.
Proof.
  induction n as [|n IH]; intros pc x c Hpc Hmax Hx Hc.
  - exists (u c). split; [by destruct c|]. split; [done|].
    intros k. case_decide; [lia|done].
  - cbn [copy_idx].
    rewrite idx_eq by lia.
    assert (Hlt : (Z.to_nat (pc - 1) < length (u x))%nat) by (unfold len in Hx; lia).
    destruct (lookup_lt_is_Some_2 _ _ Hlt) as [v Hv].
    rewrite Hv. simpl.
    rewrite set_idx_eq by lia. simpl.
    destruct (IH (pc + 1) x (set_u c (<[Z.to_nat (pc - 1) := v]> (u c))))
      as (w & Hrun & Hwl & Hw); try lia.
    { simpl. unfold len in *. rewrite length_insert. lia. }
    exists w. split; [|split].
    + rewrite Hrun. done.
    + rewrite Hwl. simpl. apply length_insert.
    + intros k. rewrite Hw. simpl.
      replace (Z.to_nat (pc + 1 - 1)) with (S (Z.to_nat (pc - 1))) by lia.
      destruct (decide (k = Z.to_nat (pc - 1))) as [->|Hne].
      * rewrite decide_False by lia. rewrite decide_True by lia.
        rewrite list_lookup_insert_eq by (unfold len in Hc; lia). done.
      * rewrite list_lookup_insert_ne by lia.
        repeat case_decide; try done; lia.
Qed.

Lemma update_slots_total (links : gmap Z Z) (n : nat) :
  ∀ f : list Z, (length f ≤ n)%nat →
  (∀ a, a ∈ f → is_Some (links !! a)) →
  ∃ t, update_slots links f = Some t ∧ length t = length f.
Proof.
  induction n as [|n IH]; intros f Hn Hdef.
  - destruct f; [|simpl in Hn; lia]. by exists [].
  - assert (Hd : ∀ i a, f !! i = Some a → is_Some (links !! a)).
    { intros i a Hi. apply Hdef. by eapply list_elem_of_lookup_2. }
    destruct f as [|f0 [|f1 [|f2 [|f3 r]]]].
    + by exists [].
    + destruct (Hd 0%nat f0 eq_refl) as [t0 H0]. simpl. rewrite H0. by eexists.
    + destruct (Hd 0%nat f0 eq_refl) as [t0 H0]. destruct (Hd 1%nat f1 eq_refl) as [t1 H1].
      simpl. rewrite H0, H1. by eexists.
    + destruct (Hd 0%nat f0 eq_refl) as [t0 H0]. destruct (Hd 1%nat f1 eq_refl) as [t1 H1].
      destruct (Hd 2%nat f2 eq_refl) as [t2 H2].
      simpl. rewrite H0, H1, H2. by eexists.
    + destruct (Hd 0%nat f0 eq_refl) as [t0 H0]. destruct (Hd 1%nat f1 eq_refl) as [t1 H1].
      destruct (Hd 2%nat f2 eq_refl) as [t2 H2]. destruct (Hd 3%nat f3 eq_refl) as [t3 H3].
      destruct (IH r) as (t & Ht & Hl).
      { simpl in Hn. lia. }
      { intros a Ha. apply Hdef. do 4 (apply elem_of_cons; right). done. }
      cbn [update_slots]. rewrite H0, H1, H2, H3. simpl. rewrite Ht. simpl.
      eexists. split; [done|]. simpl. by rewrite Hl.
Qed.

End CloneFacts.

Section CloneTheorem.
Context {PF : Platform} {VIC : VarImpConf}.

Lemma set_next_fields (x : VarImp) (p : Z) :
  base (set_next x p) = base x ∧ entries (set_next x p) = entries x ∧
  slots (set_next x p) = slots x ∧ length (u (set_next x p)) = length (u x) ∧
  (∀ k : nat, (2 ≤ k)%nat → u (set_next x p) !! k = u x !! k) ∧
  (ptr_bytes = 4 → u (set_next x p) !! 1%nat = u x !! 1%nat).
Proof.
  unfold set_next. simpl. repeat split.
  - destruct (ptr_bytes =? 8); by rewrite ?length_insert.
  - intros k Hk. destruct (ptr_bytes =? 8); by rewrite ?list_lookup_insert_ne by lia.
  - intros ->. simpl. by rewrite list_lookup_insert_ne by lia.
Qed.

(** C7: the cloning constructor leaves the original with the marked
    address of the clone in [base], so that [copied] holds and [forward]
    is the clone; [update], run on the clone, gives the original its
    [base], its boundaries [idx] and its [entries] back. *)
Theorem clone_forwarding (this : Z) (raw : list Z) (regs : CloneRegs) (x_addr : Z)
    (x : VarImp) (links : gmap Z Z) (sub : Z) :
  well_formed x → marked this = false → len raw = u_words →
  (base x ≠ NULL → 0 <= idx_c < len (vars_u regs)) →
  (∀ a, a ∈ take (Z.to_nat (entries x)) (slots x) → is_Some (links !! a)) →
  ∃ c x1 regs1,
    VarImp_copy this raw regs x_addr x = Some (c, x1, regs1) ∧
    base x1 = mark this ∧ copied x1 = true ∧ forward x1 = Some this ∧
    ∃ c2 x2 sub2,
      update links c x1 sub = Some (c2, x2, sub2) ∧
      base x2 = base x ∧ entries x2 = entries x ∧
      ∀ pc, 0 < pc < pc_max + 2 → idx x2 pc = idx x pc.
Proof.
  intros (bs & adv & fr & [[Hpm Hfb] Hbk Hw Hsl Hidx Hent Hfree Hbits [Hcop Hnull]])
    Hthis Hraw Hreg Hlinks.
  assert (Huw : pc_max + 1 <= u_words) by (unfold u_words; lia).
  assert (Hel : 0 <= entries x <= len (slots x)).
  { rewrite Hent, Hsl. unfold len. rewrite !length_app. lia. }
  destruct (copy_idx_spec (Z.to_nat (pc_max + 1)) 1 x
              (mkVarImp (base x) (slots x) (entries x)
                 (Z.land (free_and_bits x) (Z.shiftl 1 free_bits - 1)) raw))
    as (w & Hcp & Hwl & Hwk); simpl; try lia.
  assert (Hwx : ∀ k : nat, (k ≤ Z.to_nat pc_max)%nat → w !! k = u x !! k).
  { intros k Hk. rewrite Hwk. simpl. by rewrite decide_True by lia. }
  assert (H0 : is_Some (u x !! 0%nat)).
  { apply lookup_lt_is_Some_2. unfold len in Hw. lia. }
  destruct H0 as [v0 Hv0].
  set (c := set_u _ w) in Hcp.
  (* the original after the constructor, whatever the list it is put on *)
  assert (Hctor : ∃ r regs1,
    VarImp_copy this raw regs x_addr x
    = Some (c, set_next (set_base x (mark this)) r, regs1)).
  { unfold VarImp_copy.
    destruct (Z.eqb_spec (base x) NULL) as [Hb|Hb].
    - unfold degree. rewrite Hcop. simpl.
      assert (Hez : entries x = 0).
      { rewrite (Hnull Hb) in Hel. unfold len in Hel. simpl in Hel. lia. }
      destruct (Z.eqb_spec (entries x) 0); [|lia].
      simpl. rewrite Hcp. simpl. by eexists _, _.
    - simpl. rewrite Hcp. simpl. specialize (Hreg Hb).
      destruct (Z.leb_spec 0 idx_c); [|lia].
      assert (Hlt : (Z.to_nat idx_c < length (vars_u regs))%nat) by (unfold len in Hreg; lia).
      destruct (lookup_lt_is_Some_2 _ _ Hlt) as [r Hr]. rewrite Hr. simpl.
      by eexists _, _. }
  destruct Hctor as (r & regs1 & Hctor).
  assert (Hcb : base c = base x) by done.
  assert (Hcu : u c = w) by done.
  clearbody c.
  destruct (set_next_fields (set_base x (mark this)) r)
    as (Hb1 & He1 & Hs1 & Hl1 & Hk1 & Hp4).
  change (base (set_base x (mark this))) with (mark this) in Hb1.
  change (entries (set_base x (mark this))) with (entries x) in He1.
  change (slots (set_base x (mark this))) with (slots x) in Hs1.
  change (u (set_base x (mark this))) with (u x) in Hl1, Hk1, Hp4.
  set (x1 := set_next (set_base x (mark this)) r) in *.
  clearbody x1.
  exists c, x1, regs1. split; [done|].
  split; [done|].
  assert (Hcx1 : copied x1 = true) by (unfold copied; rewrite Hb1; apply marked_mark).
  split; [done|].
  split.
  { unfold forward. rewrite Hcx1, Hb1. by rewrite unmark_mark. }
  (* the reset *)
  unfold update.
  assert (Hc0 : u c !! 0%nat = Some v0) by (rewrite Hcu, Hwx by lia; done).
  rewrite Hc0. simpl.
  set (x2 := set_u (set_base x1 (base c)) (<[0%nat := v0]> (u x1))).
  assert (Hb2 : base x2 = base x) by done.
  assert (He2 : entries x2 = entries x) by done.
  assert (Hs2 : slots x2 = slots x) by done.
  assert (Hu2 : u x2 = <[0%nat := v0]> (u x1)) by done.
  clearbody x2.
  assert (Hx3 : ∃ x3,
    (if (0 <? pc_max) && (4 <? ptr_bytes)
     then w1 ← u c !! 1%nat; Some (set_u x2 (<[1%nat := w1]> (<[0%nat := v0]> (u x1))))
     else Some x2) = Some x3 ∧
    base x3 = base x ∧ entries x3 = entries x ∧ slots x3 = slots x ∧
    ∀ k : nat, (k ≤ Z.to_nat pc_max)%nat → u x3 !! k = u x !! k).
  { assert (Hl2 : length (u x2) = length (u x)).
    { rewrite Hu2. by rewrite length_insert. }
    assert (Hx2k : ∀ k : nat, k ≠ 1%nat → u x2 !! k = u x !! k).
    { intros k Hk. rewrite Hu2.
      destruct (decide (k = 0%nat)) as [->|Hk0].
      - rewrite list_lookup_insert_eq by (rewrite Hl1; unfold len in Hw; lia). done.
      - rewrite list_lookup_insert_ne by done. apply Hk1. lia. }
    destruct (Z.ltb_spec 0 pc_max) as [Hpos|Hzero];
      destruct (Z.ltb_spec 4 ptr_bytes) as [Hp8|Hp4']; simpl.
    - assert (H1 : is_Some (u x !! 1%nat)).
      { apply lookup_lt_is_Some_2. unfold len in Hw. lia. }
      destruct H1 as [v1 Hv1].
      assert (Hc1 : u c !! 1%nat = Some v1) by (rewrite Hcu, Hwx by lia; done).
      rewrite Hc1. simpl. eexists. split; [done|]. simpl.
      repeat split; try done.
      intros k Hk. destruct (decide (k = 1%nat)) as [->|Hne].
      + rewrite list_lookup_insert_eq by (rewrite <- Hu2, Hl2; unfold len in Hw; lia). done.
      + rewrite list_lookup_insert_ne by done. rewrite <- Hu2. by apply Hx2k.
    - exists x2. split; [done|]. repeat split; try done.
      intros k Hk. destruct (decide (k = 1%nat)) as [->|Hne]; [|by apply Hx2k].
      rewrite Hu2. rewrite list_lookup_insert_ne by done.
      apply Hp4. destruct ptr_bytes_ok; lia.
    - exists x2. split; [done|]. repeat split; try done.
      intros k Hk. apply Hx2k. lia.
    - exists x2. split; [done|]. repeat split; try done.
      intros k Hk. apply Hx2k. lia. }
  destruct Hx3 as (x3 & -> & Hb3 & He3 & Hs3 & Hu3). simpl.
  unfold degree, copied. rewrite Hb3, He3, Hs3.
  unfold copied in Hcop. rewrite Hcop. simpl.
  fold (len (slots x)).
  destruct (Z.leb_spec (entries x) (len (slots x))); [|lia]. 
  destruct (update_slots_total links (length (take (Z.to_nat (entries x)) (slots x)))
              (take (Z.to_nat (entries x)) (slots x))) as (t & Ht & _); [done|done|].
  rewrite Ht. simpl.
  eexists _, x3, _. split; [done|]. split; [done|]. split; [done|].
  intros pc Hpc. rewrite !idx_eq by done. apply Hu3. lia.
Qed.

End CloneTheorem.

Section CloneExamples.
#[local] Existing Instance ExampleConf.

Lemma clone_forwarding_witness :
  ∃ c x1 regs1,
    VarImp_copy 2000 [7; 7; 7] (mkCloneRegs [0] 0) 3000 var1 = Some (c, x1, regs1) ∧
    forward x1 = Some 2000.
Proof.
  destruct (clone_forwarding 2000 [7; 7; 7] (mkCloneRegs [0] 0) 3000 var1
              {[ 11 := 4000 ]} 6000 var1_well_formed)
    as (c & x1 & regs1 & Hc & _ & _ & Hf & _).
  - reflexivity.
  - reflexivity.
  - intros _. simpl. unfold len. simpl. lia.
  - intros a Ha. change (take (Z.to_nat (entries var1)) (slots var1)) with [11] in Ha.
    apply list_elem_of_singleton in Ha. subst a. by eexists.
  - by exists c, x1, regs1.
Defined.

End CloneExamples.

(** ** VarImp::advise *)

Lemma drop_agree (l1 l2 : list Z) (k : nat) :
  length l1 = length l2 →
  (∀ i : nat, (k ≤ i)%nat → l1 !! i = l2 !! i) → drop k l1 = drop k l2.
Proof.
  intros Hlen Hag. apply list_eq. intros i.
  rewrite !lookup_drop. apply Hag. lia.
Qed.

Lemma scan_first (a : Z) (l : list Z) :
  ∀ f0 f, scan a l f0 = Some f →
    f0 <= f ∧ ∀ j : nat, l !! j = Some a → f <= f0 + Z.of_nat j.
Proof.
  induction l as [|v l IH]; intros f0 f Hsc; simpl in Hsc; [done|].
  destruct (Z.eqb_spec v a) as [->|Hne].
  - injection Hsc as <-. split; [lia|]. intros j _. lia.
  - destruct (IH _ _ Hsc) as [Hle Hfirst]. split; [lia|].
    intros [|j] Hj; simpl in Hj; [congruence|].
    specialize (Hfirst j Hj). lia.
Qed.

Section AdviseFacts.
Context {PF : Platform} {VIC : VarImpConf} {M : Type} {MM : MemoryManagerOps M}.

Lemma find_actor_first (x : VarImp) (s a f : Z) (k : nat) :
  find_actor x s a = Some f → s <= Z.of_nat k → slots x !! k = Some a →
  0 <= s <= f ∧ f <= Z.of_nat k.
Proof.
  unfold find_actor. intros Hf Hs Hk.
  destruct (Z.leb_spec 0 s); [|done].
  destruct (scan_first _ _ _ _ Hf) as [Hle Hfirst].
  split; [lia|].
  specialize (Hfirst (k - Z.to_nat s)%nat).
  rewrite lookup_drop in Hfirst.
  replace (Z.to_nat s + (k - Z.to_nat s))%nat with k in Hfirst by lia.
  specialize (Hfirst Hk). lia.
Qed.

(** Removing the advisor held by slot [k] leaves the slots after [k] as
    they are: entries are removed from front to back. *)
Lemma remove_advisor_above (home home1 : Space M) (x x1 : VarImp) (a s : Z) (k : nat) :
  actorNonZero x (pc_max + 1) = Some s → s <= Z.of_nat k →
  slots x !! k = Some a →
  remove_advisor home x a = Some (home1, x1) →
  length (slots x1) = length (slots x) ∧
  ∀ i : nat, (k < i)%nat → slots x1 !! i = slots x !! i.
Proof.
  intros Hs Hsk Hk. unfold remove_advisor. rewrite Hs. simpl.
  destruct (find_actor x s a) as [f|] eqn:Hf; [|done]. simpl.
  destruct (find_actor_first _ _ _ _ _ Hf Hsk Hk) as [Hf0 Hfk].
  destruct (load _ _) as [v|]; [|done]. simpl.
  unfold store. simpl.
  destruct (_ && _); [|done]. simpl.
  intros [= _ <-]. simpl. split; [by rewrite length_insert|].
  intros i Hi. rewrite list_lookup_insert_ne by lia. done.
Qed.

Lemma slice_cons (x : VarImp) (la le a : Z) (rest : list Z) :
  0 <= la → slice x la le = a :: rest →
  slots x !! Z.to_nat la = Some a ∧ slice x (la + 1) le = rest ∧
  len (a :: rest) <= le - la.
Proof.
  unfold slice. intros Hla Hsl.
  destruct (Z.to_nat (le - la)) as [|n] eqn:Hn; [done|].
  destruct (drop (Z.to_nat la) (slots x)) as [|b l] eqn:Hd; [done|].
  simpl in Hsl. injection Hsl as -> Hrest.
  assert (Hlk : slots x !! Z.to_nat la = Some a).
  { rewrite <- (Nat.add_0_r (Z.to_nat la)). rewrite <- lookup_drop, Hd. done. }
  split; [done|split].
  - replace (Z.to_nat (le - (la + 1))) with n by lia.
    replace (Z.to_nat (la + 1)) with (S (Z.to_nat la)) by lia.
    rewrite (drop_S _ _ _ Hlk) in Hd. by injection Hd as <-.
  - rewrite <- Hrest. rewrite len_cons. unfold len. rewrite length_take. lia.
Qed.

End AdviseFacts.

Section AdviseSteps.
Context {PF : Platform} {VIC : VarImpConf} {M : Type} {MM : MemoryManagerOps M}.
Variable cost : Z → Space M → Z → Z.
Variable react : Z → Z → Delta → Reaction.

Lemma links_ok_tail (home : Space M) (a : Z) (rest : list Z) :
  links_ok home (a :: rest) → links_ok home rest.
Proof.
  intros (Hp & Hn & Hcl). split; [|split]; [| |done].
  - intros b Hb. apply Hp. apply elem_of_cons. by right.
  - intros b Hb. apply Hn. apply elem_of_cons. by right.
Qed.

(** [Advisor::dispose] marks the advisor and leaves the links of the other
    advisors as they are. *)
Lemma Advisor_dispose_spec (home : Space M) (a : Z) (rest : list Z) :
  links_ok home (a :: rest) → a ∉ rest →
  ∃ home1, Advisor_dispose home a = Some home1 ∧
           links_ok home1 rest ∧ queue home1 = queue home ∧
           l_prev home1 !! a = Some NULL.
Proof.
  intros (Hp & Hn & Hcl) Hni.
  destruct (Hp a) as (p & Hpa & Hpn); [apply elem_of_cons; by left|].
  destruct (Hn a) as (n & Hna); [apply elem_of_cons; by left|].
  assert (Hprev : ∀ b, b ∈ rest →
            ∃ q, <[a:=NULL]> (l_prev home) !! b = Some q ∧ q ≠ NULL).
  { intros b Hb. rewrite lookup_insert_ne by (intros ->; done).
    apply Hp. apply elem_of_cons. by right. }
  assert (Hcl1 : ∀ b m, l_next home !! b = Some m → m ≠ NULL →
            is_Some (<[a:=NULL]> (l_prev home) !! m) ∧ is_Some (l_next home !! m)).
  { intros b m Hbm Hm. destruct (Hcl b m Hbm Hm) as [H1 H2]. split; [|done].
    destruct (decide (m = a)) as [->|]; [by rewrite lookup_insert_eq|by rewrite lookup_insert_ne]. }
  unfold Advisor_dispose. rewrite Hpa. simpl.
  destruct (Z.eqb_spec p NULL); [done|].
  rewrite Hna. simpl.
  destruct (Z.eqb_spec n NULL) as [Hz|Hnz].
  { eexists. split; [reflexivity|]. simpl. split; [|split; [done|by rewrite lookup_insert_eq]].
    split; [|split]; simpl; [done| |done].
    intros b Hb. apply Hn. apply elem_of_cons. by right. }
  destruct (Hcl a n Hna Hnz) as [[pn Hpn'] [nn Hnn]].
  unfold disposed. simpl.
  assert (Hd : ∃ v, <[a:=NULL]> (l_prev home) !! n = Some v).
  { destruct (decide (n = a)) as [->|Hne].
    - exists NULL. by rewrite lookup_insert_eq.
    - exists pn. by rewrite lookup_insert_ne. }
  destruct Hd as [v Hv]. rewrite Hv. simpl.
  destruct (v =? NULL).
  - rewrite Hnn. simpl. eexists. split; [reflexivity|]. simpl.
    split; [|split; [done|by rewrite lookup_insert_eq]].
    split; [|split]; simpl; [done| |].
    + intros b Hb. rewrite lookup_insert_ne by (intros ->; done).
      apply Hn. apply elem_of_cons. by right.
    + intros b m Hbm Hm.
      assert (Hdom : ∀ c, is_Some (l_prev home !! c) ∧ is_Some (l_next home !! c) →
                is_Some (<[a:=NULL]> (l_prev home) !! c) ∧
                is_Some (<[a:=nn]> (l_next home) !! c)).
      { intros c [H1 H2]. split.
        - destruct (decide (c = a)) as [->|]; [by rewrite lookup_insert_eq|by rewrite lookup_insert_ne].
        - destruct (decide (c = a)) as [->|]; [by rewrite lookup_insert_eq|by rewrite lookup_insert_ne]. }
      apply Hdom.
      destruct (decide (b = a)) as [->|Hne].
      * rewrite lookup_insert_eq in Hbm. injection Hbm as ->.
        by apply (Hcl n m).
      * rewrite lookup_insert_ne in Hbm by done. by apply (Hcl b m).
  - eexists. split; [reflexivity|]. simpl.
    split; [|split; [done|by rewrite lookup_insert_eq]].
    split; [|split]; simpl; [done| |done].
    intros b Hb. apply Hn. apply elem_of_cons. by right.
Qed.

(** [Advisor::dispose] writes no link of another advisor's propagator. *)
Lemma Advisor_dispose_prev (home home1 : Space M) (a : Z) :
  Advisor_dispose home a = Some home1 →
  ∀ b, b ≠ a → l_prev home1 !! b = l_prev home !! b.
Proof.
  unfold Advisor_dispose. intros Hd b Hb.
  destruct (l_prev home !! a) as [v|]; [|done]. simpl in Hd.
  destruct (v =? NULL); [done|].
  destruct (l_next _ !! a) as [n|]; [|done]. simpl in Hd.
  destruct (n =? NULL).
  { injection Hd as <-. simpl. by rewrite lookup_insert_ne. }
  destruct (disposed _ n) as [[|]|]; [| |done]; simpl in Hd.
  - destruct (l_next home !! n); [|done]. simpl in Hd. injection Hd as <-. simpl.
    by rewrite lookup_insert_ne.
  - injection Hd as <-. simpl. by rewrite lookup_insert_ne.
Qed.

(** Scheduling a propagator touches neither the links of the advisors nor
    the number of queues. *)
Lemma schedule_frame (home home2 : Space M) (p me : Z) :
  schedule cost home p me = Some home2 →
  l_prev home2 = l_prev home ∧ l_next home2 = l_next home ∧
  len (queue home2) = len (queue home).
Proof.
  unfold schedule.
  destruct (med_update (default 0 (med home !! p)) me) as [m changed].
  destruct changed; [|by intros [= <-]].
  unfold enqueue.
  set (home1 := unlink _ p).
  set (c := cost p home1 _).
  destruct (_ && _); [|done].
  destruct (queue home1 !! Z.to_nat c) as [q|]; [|done]. simpl.
  destruct (_ >? _); intros [= <-]; simpl; unfold len;
    by rewrite length_insert, length_map.
Qed.

Lemma advising_schedule (home : Space M) (x : VarImp) bs la le rest (p me : Z) :
  (∀ q h m, 0 <= cost q h m <= PC_MAX) →
  advising home x bs la le rest →
  ∃ home2, schedule cost home p me = Some home2 ∧ advising home2 x bs la le rest.
Proof.
  intros Hc [Hlay Hsm Hpos Hrest Hnd Hlk Hq].
  destruct (schedule_total cost home p me Hq Hc) as [home2 Hs].
  exists home2. split; [done|].
  destruct (schedule_frame _ _ _ _ Hs) as (Hp & Hn & Hl).
  constructor; try done.
  - unfold links_ok. rewrite Hp, Hn. done.
  - by rewrite Hl.
Qed.

(** The next state of the iteration, once the advisor in slot [la] has
    been run. *)
Lemma advising_next (home home1 : Space M) (x x1 : VarImp) bs la le a rest :
  advising home x bs la le (a :: rest) →
  (∃ adv fr, layout x1 bs adv [] fr ∧ (∀ b, b ∈ rest → b ∈ adv)) →
  length (slots x1) = length (slots x) →
  (∀ i : nat, (Z.to_nat la < i)%nat → slots x1 !! i = slots x !! i) →
  links_ok home1 rest → queue home1 = queue home →
  advising home1 x1 bs (la + 1) le rest.
Proof.
  intros [Hlay Hsm [Hpos1 Hpos2] Hrest Hnd Hlk Hq] Hlay1 Hlen Hag Hlk1 Hq1.
  pose proof (len_nonneg (concat bs)).
  destruct (slice_cons x la le a rest) as (Hla & Hsl & _); [lia|done|].
  constructor; try done.
  - unfold small in *. unfold len in *. by rewrite Hlen.
  - rewrite len_cons in Hpos2. lia.
  - rewrite <- Hsl. unfold slice. f_equal.
    apply drop_agree; [done|]. intros i Hi. apply Hag. lia.
  - by apply NoDup_cons in Hnd as [_ Hnd].
  - by rewrite Hq1.
Qed.

(** Running the advisor in slot [la]. *)
Lemma advise_by_step (home : Space M) (x : VarImp) bs la le a rest (d : Delta) :
  advising home x bs la le (a :: rest) →
  ∃ p, load x la = Some a ∧ disposed home a = Some false ∧
       propagator home a = Some p ∧
  ∃ st w1, advise_by react p a d (home, x) = Some (st, w1) ∧
       (st = ES_FIX ∨ st = ES_NOFIX ∨ st = ES_FAILED) ∧
       (st = ES_FAILED ↔ react p a d = RFailed) ∧
       advising w1.1 w1.2 bs (la + 1) le rest ∧
       (∀ b, b ∈ rest → l_prev w1.1 !! b = l_prev home !! b).
Proof.
  intros Hadv. pose proof Hadv as [Hlay Hsm [Hpos1 Hpos2] Hrest Hnd Hlk Hq].
  pose proof (len_nonneg (concat bs)).
  destruct (slice_cons x la le a rest) as (Hla & Hsl & _); [lia|done|].
  pose proof Hlk as (Hp & Hn & Hcl).
  destruct (Hp a) as (p & Hpa & Hpn); [apply elem_of_cons; by left|].
  apply NoDup_cons in Hnd as [Hni Hnd].
  exists p. split; [by rewrite load_eq by lia|].
  split. { unfold disposed. rewrite Hpa. simpl. by destruct (Z.eqb_spec p NULL). }
  split. { unfold propagator. rewrite Hpa. simpl. by destruct (Z.eqb_spec p NULL). }
  assert (Hsame : advising home x bs (la + 1) le rest).
  { apply (advising_next home home x x bs la le a rest Hadv); try done.
    - destruct Hlay as (adv & fr & Hl & Hin). exists adv, fr. split; [done|].
      intros b Hb. apply Hin. apply elem_of_cons. by right.
    - by apply (links_ok_tail home a). }
  assert (Hsub : ∀ c, ∃ w1, A_dispose c a (home, x) = Some w1 ∧
            advising w1.1 w1.2 bs (la + 1) le rest ∧
            (∀ b, b ∈ rest → l_prev w1.1 !! b = l_prev home !! b)).
  { intros c. unfold A_dispose. destruct c.
    - unfold cancel_advisor. simpl.
      destruct Hlay as (adv & fr & Hl & Hin).
      destruct (split_first adv a) as (A1 & A2 & -> & HnA); [apply Hin, elem_of_cons; by left|].
      destruct (remove_advisor_layout home x a bs A1 A2 fr Hl Hsm HnA) as (x1 & h & Hrm & Hl1).
      rewrite Hrm. simpl.
      destruct (Advisor_dispose_spec (set_n_sub home (u32 (n_sub home - 1))) a rest)
        as (home1 & Hd & Hlk1 & Hq1 & _); [done|done|].
      rewrite Hd. simpl. eexists. split; [reflexivity|]. simpl.
      assert (Hs : actorNonZero x (pc_max + 1) = Some (len (concat bs))).
      { destruct Hl as [[Hpm Hfb] Hbk Hw Hsl' Hidx Hent Hfree Hbits Hbase].
        rewrite actorNonZero_eq by lia.
        replace (Z.to_nat (pc_max + 1 - 1)) with (length bs - 1)%nat by (unfold len in *; lia).
        rewrite Hidx by (unfold len in *; lia). rewrite take_ge by lia. done. }
      destruct (remove_advisor_above _ _ _ _ _ _ (Z.to_nat la) Hs ltac:(lia) Hla Hrm) as [Hlen Hag].
      split.
      2:{ intros b Hb. rewrite (Advisor_dispose_prev _ _ _ Hd b); [done|].
          intros ->. done. }
      apply (advising_next home home1 x x1 bs la le a rest Hadv); try done.
      exists (A1 ++ rotr A2), (h :: fr). split; [done|].
      intros b Hb. specialize (Hin b (proj2 (elem_of_cons _ _ _) (or_intror Hb))).
      assert (b ≠ a) by (intros ->; done).
      rewrite elem_of_app in Hin. rewrite elem_of_app.
      destruct Hin as [Hin|Hin]; [by left|right].
      apply elem_of_cons in Hin as [Hin|Hin]; [done|].
      by rewrite rotr_perm.
    - simpl.
      destruct (Advisor_dispose_spec home a rest)
        as (home1 & Hd & Hlk1 & Hq1 & _); [done|done|].
      rewrite Hd. simpl. eexists. split; [reflexivity|]. simpl.
      split.
      2:{ intros b Hb. rewrite (Advisor_dispose_prev _ _ _ Hd b); [done|].
          intros ->. done. }
      apply (advising_next home home1 x x bs la le a rest Hadv); try done.
      destruct Hlay as (adv & fr & Hl & Hin). exists adv, fr. split; [done|].
      intros b Hb. apply Hin. apply elem_of_cons. by right. }
  unfold advise_by. destruct (react p a d) as [| | |c|c].
  - eexists _, _. split; [reflexivity|]. split; [by left|]. by split.
  - eexists _, _. split; [reflexivity|]. split; [right; by left|]. by split.
  - eexists _, _. split; [reflexivity|]. split; [right; by right|]. by split.
  - destruct (Hsub c) as (w1 & Hw & Ha & Hpr). unfold ES_SUBSUMED_FIX. rewrite Hw. simpl.
    eexists _, _. split; [reflexivity|]. split; [by left|]. by split.
  - destruct (Hsub c) as (w1 & Hw & Ha & Hpr). unfold ES_SUBSUMED_NOFIX. rewrite Hw. simpl.
    eexists _, _. split; [reflexivity|]. split; [right; by left|]. by split.
Qed.

End AdviseSteps.

Section AdviseTheorem.
Context {PF : Platform} {VIC : VarImpConf} {M : Type} {MM : MemoryManagerOps M}.
Variable cost : Z → Space M → Z → Z.
Variable react : Z → Z → Delta → Reaction.
Hypothesis cost_range : ∀ q h m, 0 <= cost q h m <= PC_MAX.

(** The loop of [advise] runs the advisors that are still to be run, one
    after the other, as the protocol says, and reports failure exactly
    when the advise function of the propagator of one of them does. *)
Lemma advise_loop_spec (bs : list (list Z)) (le me : Z) (d : Delta) (rest : list Z) :
  ∀ la home x, rest ≠ [] → advising home x bs la le rest →
  ∃ r, advise_loop cost (advise_by react) (length rest) la le me d (home, x) = Some r ∧
       advise_spec cost (advise_by react) rest me d (home, x) r ∧
       (r.1 = false ↔
        ∃ a p, a ∈ rest ∧ propagator home a = Some p ∧ react p a d = RFailed).
Proof.
  induction rest as [|a rest IH]; intros la home x Hne Hadv; [done|].
  destruct (advise_by_step react home x bs la le a rest d Hadv)
    as (p & Hld & Hdis & Hprop & st & [home1 x1] & Hby & Hst & Hf & Hadv1 & Hprev).
  simpl in Hadv1, Hprev.
  assert (Hend : rest = [] → (la + 1 <? le) = false).
  { intros ->. destruct Hadv1 as [_ _ [_ Hpos] _ _ _ _]. rewrite len_nil in Hpos.
    destruct (Z.ltb_spec (la + 1) le); [lia|done]. }
  assert (Hmore : rest ≠ [] → (la + 1 <? le) = true).
  { intros Hr. destruct Hadv1 as [_ _ [_ Hpos] _ _ _ _].
    destruct rest as [|b rest']; [done|]. rewrite len_cons in Hpos.
    pose proof (len_nonneg rest').
    destruct (Z.ltb_spec (la + 1) le); [done|lia]. }
  assert (Hiff : ∀ (h : Space M) (b : bool),
            (∀ c, c ∈ rest → l_prev h !! c = l_prev home !! c) → st ≠ ES_FAILED →
            (b = false ↔
             ∃ a' p', a' ∈ rest ∧ propagator h a' = Some p' ∧ react p' a' d = RFailed) →
            (b = false ↔
             ∃ a' p', a' ∈ a :: rest ∧ propagator home a' = Some p' ∧
                      react p' a' d = RFailed)).
  { intros h b Hl Hnf ->. split.
    - intros (a' & p' & Hin & Hp' & Hr). exists a', p'.
      split; [apply elem_of_cons; by right|]. split; [|done].
      unfold propagator in *. by rewrite <- (Hl a' Hin).
    - intros (a' & p' & Hin & Hp' & Hr). apply elem_of_cons in Hin as [->|Hin].
      + rewrite Hprop in Hp'. injection Hp' as <-. by apply Hf in Hr.
      + exists a', p'. split; [done|]. split; [|done].
        unfold propagator in *. by rewrite (Hl a' Hin). }
  assert (Hnone : ∀ (h : Space M) (w : Space M * VarImp),
            (true, w).1 = false ↔
            ∃ a' p', a' ∈ @nil Z ∧ propagator h a' = Some p' ∧ react p' a' d = RFailed).
  { intros h w. split; [done|]. intros (a' & p' & Hin & _). by apply elem_of_nil in Hin. }
  cbn [length advise_loop]. cbn [fst snd].
  rewrite Hld. cbn [mbind option_bind]. rewrite Hdis. cbn [mbind option_bind].
  rewrite Hprop. cbn [mbind option_bind]. rewrite Hby. cbn [mbind option_bind fst snd].
  destruct Hst as [Hst|[Hst|Hst]]; subst st.
  - change (ES_FIX =? ES_FIX) with true. cbv iota.
    destruct rest as [|b rest'].
    + rewrite Hend by done. eexists. split; [reflexivity|]. split.
      * exists p, ES_FIX, (home1, x1). split; [done|]. split; [done|]. left. by split.
      * apply (Hiff home1 true Hprev); [done|]. apply (Hnone home1 (home1, x1)).
    + rewrite Hmore by done.
      destruct (IH (la + 1) home1 x1) as (r & Hloop & Hspec & Hfail); [done|done|].
      exists r. split; [done|]. split.
      * exists p, ES_FIX, (home1, x1). split; [done|]. split; [done|]. left. by split.
      * by apply (Hiff home1 r.1 Hprev).
  - change (ES_NOFIX =? ES_FIX) with false.
    change (ES_NOFIX =? ES_FAILED) with false.
    change (ES_NOFIX =? ES_NOFIX) with true. cbv iota.
    destruct (advising_schedule cost home1 x1 bs (la + 1) le rest p me cost_range Hadv1)
      as (home2 & Hs & Hadv2).
    rewrite Hs. cbn [mbind option_bind].
    pose proof (schedule_scheduled cost _ _ _ _ Hs) as Hsch.
    destruct (schedule_frame cost _ _ _ _ Hs) as (Hp2 & _ & _).
    assert (Hprev2 : ∀ c, c ∈ rest → l_prev home2 !! c = l_prev home !! c).
    { intros c Hc. rewrite Hp2. by apply Hprev. }
    destruct rest as [|b rest'].
    + rewrite Hend by done. eexists. split; [reflexivity|]. split.
      * exists p, ES_NOFIX, (home1, x1). split; [done|]. split; [done|].
        right. right. split; [done|]. by exists home2.
      * apply (Hiff home2 true Hprev2); [done|]. apply (Hnone home2 (home2, x1)).
    + rewrite Hmore by done.
      destruct (IH (la + 1) home2 x1) as (r & Hloop & Hspec & Hfail); [done|done|].
      exists r. split; [done|]. split.
      * exists p, ES_NOFIX, (home1, x1). split; [done|]. split; [done|].
        right. right. split; [done|]. by exists home2.
      * by apply (Hiff home2 r.1 Hprev2).
  - change (ES_FAILED =? ES_FIX) with false.
    change (ES_FAILED =? ES_FAILED) with true. cbv iota.
    eexists. split; [reflexivity|]. split.
    + exists p, ES_FAILED, (home1, x1). split; [done|]. split; [done|].
      right. left. by split.
    + split; [|done]. intros _. exists a, p.
      split; [apply elem_of_cons; by left|]. split; [done|]. by apply Hf.
Qed.

(** C6: on a variable implementation with at least one advisor, [advise]
    takes the advisors of the advisor slice in the order of the slice and
    invokes, for each, the advise function of the propagator of the
    advisor, on the advisor and the delta with the event [me]; this also
    holds when advisors are subsumed and cancel their subscription on the
    way: no advisor is skipped. After [ES_NOFIX] the propagator is
    scheduled with [me], which shows on the space as [scheduled] says;
    after [ES_FIX] nothing is done; and the result is [false] exactly when
    one of these invocations reports [ES_FAILED], at which the iteration
    stops. *)
Theorem advise_forward (home : Space M) (x : VarImp) (me : Z) :
  well_formed x → small x →
  advisors x ≠ [] → NoDup (advisors x) →
  links_ok home (advisors x) →
  len (queue home) = PC_MAX + 1 →
  ∃ b w,
    advise cost (advise_by react) home x me = Some (b, w) ∧
    advise_spec cost (advise_by react) (advisors x) me (mkDelta me) (home, x) (b, w) ∧
    (b = false ↔
     ∃ a p, a ∈ advisors x ∧ propagator home a = Some p ∧
            react p a (mkDelta me) = RFailed).
Proof.
  intros (bs & adv & fr & Hlay) Hsm Hne Hnd Hlk Hq.
  rewrite (layout_advisors x _ _ _ _ Hlay) in *.
  pose proof Hlay as [[Hpm Hfb] Hbk Hw Hsl Hidx Hent Hfree Hbits Hbase].
  assert (Hs : actorNonZero x (pc_max + 1) = Some (len (concat bs))).
  { rewrite actorNonZero_eq by lia.
    replace (Z.to_nat (pc_max + 1 - 1)) with (length bs - 1)%nat by (unfold len in *; lia).
    rewrite Hidx by (unfold len in *; lia). rewrite take_ge by lia. done. }
  assert (Hlen : 0 < len adv).
  { destruct adv; [done|]. rewrite len_cons. pose proof (len_nonneg adv). lia. }
  assert (Hadv : advising home x bs (len (concat bs)) (entries x) adv).
  { constructor; try done.
    - exists adv, fr. done.
    - rewrite Hent, len_app. lia.
    - unfold slice. rewrite Hent, len_app.
      replace (len (concat bs) + len adv - len (concat bs)) with (len adv) by lia.
      rewrite !to_nat_len, Hsl, drop_app_length. by rewrite take_app_length. }
  destruct (advise_loop_spec bs (entries x) me (mkDelta me) adv _ home x Hne Hadv)
    as ([b w] & Hloop & Hspec & Hfail).
  exists b, w. split; [|split; [done|done]].
  unfold advise. rewrite Hs. cbn [mbind option_bind].
  destruct (Z.eqb_spec (len (concat bs)) (entries x)) as [He|_].
  { rewrite Hent, len_app in He. lia. }
  replace (Z.to_nat (Z.max 1 (entries x - len (concat bs)))) with (length adv); [done|].
  rewrite Hent, len_app. unfold len in *. lia.
Qed.

End AdviseTheorem.

Section AdviseExamples.
#[local] Existing Instance ExampleConf.

Lemma var5_well_formed : well_formed var5.
Proof.
  exists [[11]; []; []], [21; 22; 23], [].
  constructor; try done.
  intros k Hk. simpl in Hk.
  destruct k as [|[|[|k]]]; try done. lia.
Qed.

Lemma space5_links_ok : links_ok space5 [21; 22; 23].
Proof.
  assert (Hdom : ∀ n : Z, n = 21 ∨ n = 22 ∨ n = 23 →
            is_Some (l_prev space5 !! n) ∧ is_Some (l_next space5 !! n)).
  { intros n [Hn|[Hn|Hn]]; subst n; split; vm_compute; by eexists. }
  split; [|split].
  - intros a Ha. exists 11. split; [|done].
    repeat (apply elem_of_cons in Ha as [->|Ha]; [by vm_compute|]).
    by apply elem_of_nil in Ha.
  - intros a Ha. apply Hdom.
    repeat (apply elem_of_cons in Ha as [->|Ha]; [tauto|]).
    by apply elem_of_nil in Ha.
  - intros a n Ha Hn. apply Hdom. simpl in Ha.
    destruct (decide (a = 21)) as [->|H1].
    { rewrite lookup_insert_eq in Ha. injection Ha as <-. tauto. }
    rewrite lookup_insert_ne in Ha by done.
    destruct (decide (a = 22)) as [->|H2].
    { rewrite lookup_insert_eq in Ha. injection Ha as <-. tauto. }
    rewrite lookup_insert_ne in Ha by done.
    destruct (decide (a = 23)) as [->|H3].
    { rewrite lookup_insert_eq in Ha. by injection Ha as <-. }
    rewrite lookup_insert_ne in Ha by done. by rewrite lookup_empty in Ha.
Qed.

(** Advisor 22 leaves the array and is disposed, and advisor 23, which
    follows it, is still run: its propagator 11 is scheduled. *)
Lemma advise_var5_run :
  ∃ w, advise cost4 (advise_by react5) space5 var5 ME_GEN_ASSIGNED = Some (true, w) ∧
       slots w.2 = [11; 21; 23; 23] ∧ entries w.2 = 3 ∧
       l_prev w.1 !! 22 = Some NULL ∧ queue w.1 !! 4%nat = Some [11].
Proof. eexists. split; [by vm_compute|]. by vm_compute. Qed.

Lemma advise_forward_witness :
  ∃ b w,
    advise cost4 (advise_by react5) space5 var5 ME_GEN_ASSIGNED = Some (b, w) ∧
    advise_spec cost4 (advise_by react5) (advisors var5) ME_GEN_ASSIGNED
      (mkDelta ME_GEN_ASSIGNED) (space5, var5) (b, w) ∧
    (b = false ↔
     ∃ a p, a ∈ advisors var5 ∧ propagator space5 a = Some p ∧
            react5 p a (mkDelta ME_GEN_ASSIGNED) = RFailed).
Proof.
  apply (advise_forward cost4 react5).
  - unfold cost4, PC_MAX. lia.
  - exact var5_well_formed.
  - unfold small. vm_compute. done.
  - vm_compute. done.
  - change (advisors var5) with [21; 22; 23].
    apply (bool_decide_unpack _). by vm_compute.
  - exact space5_links_ok.
  - reflexivity.
Defined.

End AdviseExamples.

(** ** Shared handles: the use counter *)

Section HandleCounting.
Import SharedHandle.

Lemma count_split (hs : gmap Z Z) (h o : Z) :
  size (filter (λ kv : Z * Z, kv.2 = o) hs) =
  (others hs h o +
   match hs !! h with Some v => if decide (v = o) then 1 else 0 | None => 0 end)%nat.
Proof.
  unfold others. destruct (hs !! h) as [v|] eqn:Hh.
  - rewrite <- (insert_delete_id hs h v Hh) at 1.
    case_decide as Hv.
    + rewrite map_filter_insert_True by done.
      rewrite map_size_insert_None; [lia|].
      apply map_lookup_filter_None. left. apply lookup_delete_eq.
    + rewrite map_filter_insert_False by done.
      rewrite delete_delete_eq. lia.
  - rewrite delete_id by done. lia.
Qed.

Lemma others_insert (hs : gmap Z Z) (h v o : Z) :
  others (<[h := v]> hs) h o = others hs h o.
Proof. unfold others. by rewrite delete_insert_eq. Qed.

Lemma others_delete (hs : gmap Z Z) (h o : Z) :
  size (filter (λ kv : Z * Z, kv.2 = o) (delete h hs)) = others hs h o.
Proof. done. Qed.

Lemma others_pos (hs : gmap Z Z) (h h' o : Z) :
  h' ≠ h → hs !! h' = Some o → (0 < others hs h o)%nat.
Proof.
  intros Hne Hh'. unfold others.
  rewrite (count_split (delete h hs) h' o).
  rewrite lookup_delete_ne by done. rewrite Hh'.
  rewrite decide_True by done. lia.
Qed.

Lemma referring_le_size (hp : Heap) (o : Z) :
  (referring hp o ≤ size (handles hp))%nat.
Proof. unfold referring. apply map_subseteq_size, map_filter_subseteq. Qed.

Lemma referring_put (hp : Heap) (h v o : Z) :
  referring (put_object hp h v) o = (others (handles hp) h o + if decide (v = o) then 1 else 0)%nat.
Proof.
  unfold referring. simpl. rewrite (count_split _ h o).
  rewrite lookup_insert_eq. by rewrite others_insert.
Qed.

Lemma referring_at (hp : Heap) (h o : Z) :
  referring hp o =
  (others (handles hp) h o +
   match handles hp !! h with Some v => if decide (v = o) then 1 else 0 | None => 0 end)%nat.
Proof. apply count_split. Qed.

Lemma referring_none (hp : Heap) (o : Z) :
  (∀ h, handles hp !! h ≠ Some o) → referring hp o = 0%nat.
Proof.
  intros Hno. unfold referring. apply map_size_empty_iff.
  apply map_eq. intros h. rewrite lookup_empty.
  apply map_lookup_filter_None. right. intros v Hv Heq. simpl in Heq. subst v.
  by apply (Hno h).
Qed.

Lemma counted_unreferenced (hp : Heap) (o : Z) :
  counted hp → o ≠ NULL → objects hp !! o = None → referring hp o = 0%nat.
Proof.
  intros [_ Hd] Hnn Hno. apply referring_none. intros h Hh.
  destruct (Hd h o Hh Hnn) as [ob Hob]. congruence.
Qed.

(** Cancelling the subscription of a handle. *)
Lemma cancel_counted (hp : Heap) (h o1 : Z) :
  counted hp → handles hp !! h = Some o1 →
  Z.of_nat (size (handles hp)) < 2 ^ 32 →
  ∃ hp1,
    cancel hp h = Some hp1 ∧ counted hp1 ∧
    handles hp1 = <[h := NULL]> (handles hp) ∧
    ∀ o, objects hp1 !! o = None ↔
         objects hp !! o = None ∨ (o = o1 ∧ o ≠ NULL ∧ others (handles hp) h o = 0%nat).
Proof.
  intros Hc Hh Hsz. pose proof Hc as [Hcnt Hd].
  unfold cancel. rewrite Hh. simpl.
  destruct (Z.eqb_spec o1 NULL) as [->|Hnn].
  - (* the handle refers to no object *)
    simpl. eexists. split; [done|]. split; [|split; [done|]].
    + split.
      * intros o ob Hob. destruct (Hcnt o ob Hob) as [Ho Hu]. split; [done|].
        rewrite Hu. f_equal. rewrite referring_put, (referring_at hp h o), Hh.
        done.
      * intros h' o Hh' Ho. simpl in Hh'.
        destruct (decide (h' = h)) as [->|Hne].
        -- rewrite lookup_insert_eq in Hh'. congruence.
        -- rewrite lookup_insert_ne in Hh' by done. by apply (Hd h').
    + intros o. simpl. split; [by left|]. intros [Hn|(-> & Hn & _)]; done.
  - destruct (Hd h o1 Hh Hnn) as [ob Hob]. rewrite Hob. simpl.
    destruct (Hcnt o1 ob Hob) as [_ Hu].
    assert (Hr : referring hp o1 = S (others (handles hp) h o1)).
    { rewrite (referring_at hp h o1), Hh. rewrite decide_True by done. lia. }
    pose proof (referring_le_size hp o1) as Hle.
    assert (Hu32 : u32 (use_cnt ob - 1) = Z.of_nat (others (handles hp) h o1)).
    { rewrite Hu, Hr. unfold u32. rewrite Z.mod_small; lia. }
    rewrite Hu32.
    assert (Hother : ∀ o ob', o ≠ o1 → objects hp !! o = Some ob' →
              o ≠ NULL ∧ use_cnt ob' = Z.of_nat (others (handles hp) h o + if decide (NULL = o) then 1 else 0)).
    { intros o ob' Hne Hob'. destruct (Hcnt o ob' Hob') as [Ho Hu']. split; [done|].
      rewrite Hu'. f_equal. rewrite (referring_at hp h o), Hh.
      rewrite decide_False by done. rewrite decide_False by done. done. }
    assert (Hdang : ∀ h' o, <[h := NULL]> (handles hp) !! h' = Some o → o ≠ NULL →
              h' ≠ h ∧ handles hp !! h' = Some o).
    { intros h' o Hh' Ho. destruct (decide (h' = h)) as [->|Hne].
      - rewrite lookup_insert_eq in Hh'. congruence.
      - rewrite lookup_insert_ne in Hh' by done. done. }
    destruct (Z.eqb_spec (Z.of_nat (others (handles hp) h o1)) 0) as [Hz|Hnz].
    + (* the last handle: the object is deleted *)
      simpl. eexists. split; [done|]. split; [|split; [done|]].
      * split.
        -- intros o ob' Hob'. simpl in Hob'.
           destruct (decide (o = o1)) as [->|Hne].
           ++ by rewrite lookup_delete_eq in Hob'.
           ++ rewrite lookup_delete_ne in Hob' by done.
              rewrite referring_put. cbn [handles set_objects]. by apply Hother.
        -- intros h' o Hh' Ho. simpl in *.
           destruct (Hdang h' o Hh' Ho) as [Hne Hh''].
           destruct (decide (o = o1)) as [->|Hno].
           ++ pose proof (others_pos (handles hp) h h' o1 Hne Hh''). lia.
           ++ rewrite lookup_delete_ne by done. by apply (Hd h').
      * intros o. simpl. destruct (decide (o = o1)) as [->|Hne].
        -- rewrite lookup_delete_eq. split; [|done]. intros _. right.
           split; [done|]. split; [done|]. lia.
        -- rewrite lookup_delete_ne by done. split; [by left|].
           intros [Hn|(-> & _)]; done.
    + simpl. eexists. split; [done|]. split; [|split; [done|]].
      * split.
        -- intros o ob' Hob'. simpl in Hob'.
           destruct (decide (o = o1)) as [->|Hne].
           ++ rewrite lookup_insert_eq in Hob'. inversion Hob'; subst ob'. simpl.
              split; [done|]. rewrite referring_put. cbn [handles set_objects].
              rewrite decide_False by done. f_equal. lia.
           ++ rewrite lookup_insert_ne in Hob' by done.
              rewrite referring_put. cbn [handles set_objects]. by apply Hother.
        -- intros h' o Hh' Ho. simpl in *.
           destruct (Hdang h' o Hh' Ho) as [Hne Hh''].
           destruct (decide (o = o1)) as [->|Hno].
           ++ by rewrite lookup_insert_eq.
           ++ rewrite lookup_insert_ne by done. by apply (Hd h').
      * intros o. simpl. destruct (decide (o = o1)) as [->|Hne].
        -- rewrite lookup_insert_eq. split; [done|].
           intros [Hn|(_ & _ & Hz)]; [congruence|lia].
        -- rewrite lookup_insert_ne by done. split; [by left|].
           intros [Hn|(-> & _)]; done.
Qed.

(** Pointing a handle that refers to no object to an object, and
    subscribing it. *)
Lemma attach_counted (hp : Heap) (h v : Z) :
  counted hp →
  (handles hp !! h = None ∨ handles hp !! h = Some NULL) →
  (v = NULL ∨ is_Some (objects hp !! v)) →
  Z.of_nat (size (handles hp)) + 1 < 2 ^ 32 →
  ∃ hp1,
    subscribe (put_object hp h v) h = Some hp1 ∧ counted hp1 ∧
    handles hp1 = <[h := v]> (handles hp) ∧
    ∀ o, objects hp1 !! o = None ↔ objects hp !! o = None.
Proof.
  intros Hc Hh Hv Hsz. pose proof Hc as [Hcnt Hd].
  assert (Hsame : ∀ o, o ≠ NULL → referring hp o = others (handles hp) h o).
  { intros o Ho. rewrite (referring_at hp h o).
    destruct Hh as [->| ->]; [lia|]. rewrite decide_False by done. lia. }
  assert (Hdang : ∀ h' o, <[h := v]> (handles hp) !! h' = Some o → o ≠ NULL →
            is_Some (objects hp !! o)).
  { intros h' o Hh' Ho. destruct (decide (h' = h)) as [->|Hne].
    - rewrite lookup_insert_eq in Hh'. inversion Hh'; subst o.
      destruct Hv as [->|Hv]; done.
    - rewrite lookup_insert_ne in Hh' by done. by apply (Hd h'). }
  unfold subscribe. simpl. rewrite lookup_insert_eq. simpl.
  destruct (Z.eqb_spec v NULL) as [->|Hnn].
  - eexists. split; [done|]. split; [|split; [done|done]].
    split.
    + intros o ob Hob. simpl in Hob. destruct (Hcnt o ob Hob) as [Ho Hu]. split; [done|].
      rewrite Hu. f_equal. rewrite referring_put, Hsame by done.
      rewrite decide_False by done. lia.
    + intros h' o Hh' Ho. simpl in *. by apply (Hdang h').
  - destruct Hv as [->|[ob Hob]]; [done|]. rewrite Hob. simpl.
    destruct (Hcnt v ob Hob) as [_ Hu].
    pose proof (referring_le_size hp v) as Hle. rewrite Hsame in Hle by done.
    eexists. split; [done|]. split; [|split; [done|]].
    + split.
      * intros o ob' Hob'. simpl in Hob'.
        destruct (decide (o = v)) as [->|Hne].
        -- rewrite lookup_insert_eq in Hob'. inversion Hob'; subst ob'. simpl.
           split; [done|]. unfold referring. simpl.
           rewrite (count_split _ h v). rewrite lookup_insert_eq, others_insert.
           rewrite decide_True by done. rewrite Hu, Hsame by done.
           unfold u32. rewrite Z.mod_small; lia.
        -- rewrite lookup_insert_ne in Hob' by done.
           destruct (Hcnt o ob' Hob') as [Ho Hu']. split; [done|].
           rewrite Hu'. f_equal. unfold referring at 2. simpl.
           rewrite (count_split _ h o). rewrite lookup_insert_eq, others_insert.
           rewrite decide_False by done. rewrite Hsame by done. lia.
      * intros h' o Hh' Ho. simpl in *.
        destruct (decide (o = v)) as [->|Hne].
        -- by rewrite lookup_insert_eq.
        -- rewrite lookup_insert_ne by done. by apply (Hdang h').
    + intros o. simpl. destruct (decide (o = v)) as [->|Hne].
      * rewrite lookup_insert_eq. split; [done|]. congruence.
      * by rewrite lookup_insert_ne by done.
Qed.

End HandleCounting.

Section HandleSteps.
Import SharedHandle.

Lemma step_ok_refl (hp : Heap) : counted hp → step_ok hp hp.
Proof.
  intros Hc. split; [done|]. split; [lia|].
  intros o [ob Hob]. unfold released. split; [congruence|lia].
Qed.

Lemma attach_step (hp : Heap) (h v : Z) (hp1 : Heap) :
  counted hp →
  (handles hp !! h = None ∨ handles hp !! h = Some NULL) →
  Z.of_nat (size (handles hp)) + 1 < 2 ^ 32 →
  subscribe (put_object hp h v) h = Some hp1 →
  step_ok hp hp1.
Proof.
  intros Hc Hh Hsz Hsub.
  assert (Hv : v = NULL ∨ is_Some (objects hp !! v)).
  { revert Hsub. unfold subscribe. simpl. rewrite lookup_insert_eq. simpl.
    destruct (Z.eqb_spec v NULL); [by left|].
    destruct (objects hp !! v); [by right; eexists|done]. }
  destruct (attach_counted hp h v Hc Hh Hv Hsz) as (hp1' & Hsub' & Hc1 & Hhs & Hobj).
  rewrite Hsub in Hsub'. inversion Hsub'; subst hp1'. clear Hsub'.
  split; [done|]. split.
  - rewrite Hhs. pose proof (map_size_insert h v (handles hp)) as Hms.
    destruct (handles hp !! h); simpl in Hms; lia.
  - intros o [ob Hob]. rewrite Hobj. unfold released. split; [congruence|].
    intros [Hpos Hz]. exfalso.
    destruct Hc as [Hcnt _]. destruct (Hcnt o ob Hob) as [Ho _].
    unfold referring in Hz. rewrite Hhs in Hz.
    rewrite (count_split _ h o), lookup_insert_eq, others_insert in Hz.
    rewrite (referring_at hp h o) in Hpos.
    destruct Hh as [Hh|Hh]; rewrite Hh in Hpos; [lia|].
    rewrite decide_False in Hpos by done. lia.
Qed.

Lemma drop_null_handle (hp : Heap) (h : Z) :
  counted hp → handles hp !! h = Some NULL →
  counted (mkHeap (objects hp) (delete h (handles hp)) (copied hp)).
Proof.
  intros [Hcnt Hd] Hh. split.
  - intros o ob Hob. simpl in Hob. destruct (Hcnt o ob Hob) as [Ho Hu]. split; [done|].
    rewrite Hu. f_equal. unfold referring at 2. simpl. rewrite others_delete.
    rewrite (referring_at hp h o), Hh. rewrite decide_False by done. lia.
  - intros h' o Hh' Ho. simpl in *.
    apply lookup_delete_Some in Hh' as [_ Hh']. by apply (Hd h').
Qed.

Lemma destroy_step (hp : Heap) (h : Z) (hp1 : Heap) :
  counted hp → Z.of_nat (size (handles hp)) + 1 < 2 ^ 32 →
  destroy hp h = Some hp1 → step_ok hp hp1.
Proof.
  intros Hc Hsz Hrun. unfold destroy in Hrun.
  destruct (handles hp !! h) as [o1|] eqn:Hh.
  2:{ unfold cancel in Hrun. rewrite Hh in Hrun. done. }
  destruct (cancel_counted hp h o1 Hc Hh) as (hp' & Hcan & Hc' & Hhs & Hobj); [lia|].
  rewrite Hcan in Hrun. simpl in Hrun. inversion Hrun; subst hp1. clear Hrun.
  assert (Hh' : handles hp' !! h = Some NULL) by (by rewrite Hhs, lookup_insert_eq).
  split; [by apply drop_null_handle|]. split.
  - simpl. rewrite Hhs. rewrite delete_insert_eq.
    pose proof (map_size_delete h (handles hp)) as Hms.
    destruct (handles hp !! h); simpl in Hms; lia.
  - intros o [ob Hob]. simpl. rewrite Hobj. unfold released.
    destruct Hc as [Hcnt _]. destruct (Hcnt o ob Hob) as [Ho _].
    unfold referring at 2. simpl. rewrite Hhs, delete_insert_eq, others_delete.
    rewrite (referring_at hp h o), Hh.
    split.
    + intros [Hn|(-> & _ & Hz)]; [congruence|].
      rewrite decide_True by done. lia.
    + intros [Hpos Hz]. right. rewrite Hz in Hpos.
      destruct (decide (o1 = o)) as [->|]; [done|lia].
Qed.

Lemma assign_step (hp : Heap) (h sh : Z) (hp1 : Heap) :
  counted hp → Z.of_nat (size (handles hp)) + 1 < 2 ^ 32 →
  assign hp h sh = Some hp1 → step_ok hp hp1.
Proof.
  intros Hc Hsz Hrun. unfold assign in Hrun.
  destruct (handles hp !! h) as [o1|] eqn:Hh; [|done]. simpl in Hrun.
  destruct (handles hp !! sh) as [o2|] eqn:Hsh; [|done]. simpl in Hrun.
  destruct (Z.eqb_spec sh h) as [->|Hne]; simpl in Hrun.
  { inversion Hrun; subst hp1. by apply step_ok_refl. }
  destruct (cancel_counted hp h o1 Hc Hh) as (hp' & Hcan & Hc' & Hhs & Hobj); [lia|].
  rewrite Hcan in Hrun. simpl in Hrun.
  assert (Hsh' : handles hp' !! sh = Some o2) by (by rewrite Hhs, lookup_insert_ne).
  rewrite Hsh' in Hrun. simpl in Hrun.
  assert (Hh' : handles hp' !! h = Some NULL) by (by rewrite Hhs, lookup_insert_eq).
  assert (Hsz' : size (handles hp') = size (handles hp)).
  { rewrite Hhs. pose proof (map_size_insert h NULL (handles hp)) as Hms.
    rewrite Hh in Hms. done. }
  destruct (attach_step hp' h o2 hp1 Hc' (or_intror Hh')) as (Hc1 & Hs1 & Hdel1);
    [lia|done|].
  revert Hrun. unfold subscribe. simpl. rewrite lookup_insert_eq. simpl. intros Hrun.
  assert (Hhs1 : handles hp1 = <[h := o2]> (handles hp)).
  { destruct (o2 =? NULL).
    - inversion Hrun. simpl. by rewrite Hhs, insert_insert_eq.
    - destruct (objects hp' !! o2); [|done]. inversion Hrun. simpl.
      by rewrite Hhs, insert_insert_eq. }
  assert (Hobj1 : ∀ o, objects hp1 !! o = None ↔ objects hp' !! o = None).
  { intros o. destruct (o2 =? NULL).
    - inversion Hrun. done.
    - destruct (objects hp' !! o2) as [ob2|] eqn:Hob2; [|done]. inversion Hrun. simpl.
      destruct (decide (o = o2)) as [->|Hno].
      + rewrite lookup_insert_eq, Hob2. done.
      + by rewrite lookup_insert_ne. }
  split; [done|]. split; [lia|].
  intros o [ob Hob]. rewrite Hobj1, Hobj. unfold released.
  destruct Hc as [Hcnt _]. destruct (Hcnt o ob Hob) as [Ho _].
  unfold referring at 2. rewrite Hhs1.
  rewrite (count_split _ h o), lookup_insert_eq, others_insert.
  rewrite (referring_at hp h o), Hh.
  split.
  - intros [Hn|(-> & _ & Hz)]; [congruence|].
    rewrite decide_True by done. split; [lia|].
    rewrite Hz. destruct (decide (o2 = o1)) as [->|]; [|lia].
    pose proof (others_pos (handles hp) h sh o1 Hne Hsh). lia.
  - intros [Hpos Hz]. right.
    assert (Hoz : others (handles hp) h o = 0%nat) by lia.
    rewrite Hoz in Hpos.
    destruct (decide (o1 = o)) as [->|]; [done|lia].
Qed.

Lemma step_counted (Object_copy : Heap → Z → option (Z * Heap))
    (hp : Heap) (op : Op) (hp1 : Heap) :
  counted hp → admissible hp op →
  step Object_copy hp op = Some hp1 → step_ok hp hp1.
Proof.
  intros Hc [Hsz Hadm] Hrun. destruct op as [o|h|h so|h sh|h sh|h share sh|h]; simpl in *.
  - (* a new object *)
    unfold new_object in Hrun.
    destruct (Z.eqb_spec o NULL) as [|Hnn]; [done|]. simpl in Hrun.
    case_bool_decide as Hlive; [done|]. inversion Hrun; subst hp1. clear Hrun.
    assert (Hno : objects hp !! o = None).
    { destruct (objects hp !! o); [exfalso; apply Hlive; by eexists|done]. }
    pose proof (counted_unreferenced hp o Hc Hnn Hno) as Hz.
    destruct Hc as [Hcnt Hd].
    split; [split|split].
    + intros o' ob Hob. simpl in Hob.
      destruct (decide (o' = o)) as [->|Hne].
      * rewrite lookup_insert_eq in Hob. inversion Hob; subst ob. simpl.
        split; [done|]. unfold referring in *. simpl. lia.
      * rewrite lookup_insert_ne in Hob by done. by apply Hcnt.
    + intros h' o' Hh' Ho'. simpl in *.
      destruct (decide (o' = o)) as [->|Hne].
      * by rewrite lookup_insert_eq.
      * rewrite lookup_insert_ne by done. by apply (Hd h').
    + simpl. lia.
    + intros o' [ob Hob]. simpl.
      assert (o' ≠ o) by congruence.
      rewrite lookup_insert_ne by done. unfold released, referring. simpl.
      split; [congruence|lia].
  - (* a handle without object *)
    unfold construct in Hrun. case_bool_decide as Hlive; [done|].
    assert (Hno : handles hp !! h = None).
    { destruct (handles hp !! h); [exfalso; apply Hlive; by eexists|done]. }
    inversion Hrun; subst hp1.
    apply (attach_step hp h NULL); [done|by left|done|].
    unfold subscribe. simpl. by rewrite lookup_insert_eq.
  - (* a handle for an object *)
    unfold construct_from in Hrun. case_bool_decide as Hlive; [done|].
    assert (Hno : handles hp !! h = None).
    { destruct (handles hp !! h); [exfalso; apply Hlive; by eexists|done]. }
    apply (attach_step hp h so); [done|by left|done|done].
  - (* a copy of a handle *)
    unfold copy_construct in Hrun. case_bool_decide as Hlive; [done|].
    assert (Hno : handles hp !! h = None).
    { destruct (handles hp !! h); [exfalso; apply Hlive; by eexists|done]. }
    destruct (handles hp !! sh) as [o|]; [|done]. simpl in Hrun.
    apply (attach_step hp h o); [done|by left|done|done].
  - by apply (assign_step hp h sh).
  - (* an update with sharing *)
    destruct Hadm as [-> Hh]. unfold update in Hrun. rewrite Hh in Hrun. simpl in Hrun.
    destruct (handles hp !! sh) as [o|]; [|done]. simpl in Hrun.
    destruct (decide (o = NULL)) as [Heq|Hnn].
    + subst o. simpl in Hrun. inversion Hrun; subst hp1.
      apply (attach_step hp h NULL); [done|by right|done|].
      unfold subscribe. simpl. by rewrite lookup_insert_eq.
    + destruct (Z.eqb_spec o NULL); [done|].
      apply (attach_step hp h o); [done|by right|done|done].
  - by apply (destroy_step hp h).
Qed.

End HandleSteps.

Section HandleRuns.
Import SharedHandle.
Variable Object_copy : Heap → Z → option (Z * Heap).

Lemma run_counted (ops : list Op) :
  ∀ hp, counted hp → admissible_run Object_copy hp ops →
  ∃ hp1, run Object_copy hp ops = Some hp1 ∧ counted hp1.
Proof.
  induction ops as [|op ops IH]; intros hp Hc Hadm.
  - by exists hp.
  - simpl in Hadm. destruct Hadm as [Ha Hrest].
    destruct (step Object_copy hp op) as [hp'|] eqn:Hstep; [|done].
    destruct (step_counted Object_copy hp op hp' Hc Ha Hstep) as (Hc' & _ & _).
    destruct (IH hp' Hc' Hrest) as (hp1 & Hrun & Hc1).
    exists hp1. simpl. rewrite Hstep. simpl. by split.
Qed.

Lemma assign_self (hp : Heap) (h : Z) (hp1 : Heap) :
  assign hp h h = Some hp1 → hp1 = hp.
Proof.
  unfold assign. destruct (handles hp !! h); [|done]. simpl.
  rewrite Z.eqb_refl. simpl. congruence.
Qed.

(** X25: over a sequence of constructions, copy constructions,
    assignments, updates with sharing and destructions, in which every
    update is run on a handle that refers to no object and, at every
    operation, fewer than [2^32 - 1] handles are alive, the use counter of
    every object is the number of live handles that refer to it; an object
    is deleted by a step exactly when its last handle releases it; an
    assignment of a handle to itself changes nothing. *)
Theorem use_count_invariant (hp : Heap) (ops : list Op) :
  counted hp → admissible_run Object_copy hp ops →
  (∃ hp1, run Object_copy hp ops = Some hp1 ∧ counted hp1) ∧
  (∀ ops1 op ops2, ops = ops1 ++ op :: ops2 →
   ∃ hpA hpB,
     run Object_copy hp ops1 = Some hpA ∧ step Object_copy hpA op = Some hpB ∧
     counted hpA ∧ counted hpB ∧
     (∀ o, is_Some (objects hpA !! o) → (objects hpB !! o = None ↔ released hpA hpB o)) ∧
     (∀ h, op = Assign h h → hpB = hpA)).
Proof.
  intros Hc Hadm. split.
  - exact (run_counted ops hp Hc Hadm).
  - intros ops1. revert hp ops Hc Hadm.
    induction ops1 as [|a ops1 IH]; intros hp ops Hc Hadm op ops2 ->.
    + simpl in Hadm. destruct Hadm as [Ha Hrest].
      destruct (step Object_copy hp op) as [hpB|] eqn:Hstep; [|done].
      destruct (step_counted Object_copy hp op hpB Hc Ha Hstep) as (HcB & _ & Hdel).
      exists hp, hpB. repeat (split; [done|]).
      intros h ->. simpl in Hstep. by apply (assign_self hp h).
    + simpl in Hadm. destruct Hadm as [Ha Hrest].
      destruct (step Object_copy hp a) as [hp'|] eqn:Hstep; [|done].
      destruct (step_counted Object_copy hp a hp' Hc Ha Hstep) as (Hc' & _ & _).
      destruct (IH hp' (ops1 ++ op :: ops2) Hc' Hrest) with (op := op) (ops2 := ops2)
        as (hpA & hpB & Hrun & Hrest'); [done|].
      exists hpA, hpB. split; [|done]. simpl. rewrite Hstep. done.
Qed.

Lemma empty_heap_counted : counted empty_heap.
Proof. split; intros ? ? Hl; simpl in Hl; by rewrite lookup_empty in Hl. Qed.

End HandleRuns.

Section HandleRunExamples.
Import SharedHandle.


(** The same handles with an assignment in place of the update: the
    object at 100 is deleted, and the counters are right. *)
Lemma assign_releases :
  ∃ hp1,
    run (copy_at 900) empty_heap
      [NewObject 100; NewObject 200; ConstructFrom 1 100; ConstructFrom 2 200;
       Assign 1 2] = Some hp1 ∧
    objects hp1 !! 100 = None ∧ use_cnt <$> objects hp1 !! 200 = Some 2.
Proof. eexists. split; [by vm_compute|]. split; by vm_compute. Qed.

Lemma use_count_invariant_witness :
  ∃ hp1,
    run (copy_at 900) empty_heap
      [NewObject 100; ConstructFrom 1 100; CopyConstruct 2 1; Assign 2 2;
       Destroy 1; Destroy 2] = Some hp1 ∧ counted hp1.
Proof.
  apply (use_count_invariant (copy_at 900) empty_heap
           [NewObject 100; ConstructFrom 1 100; CopyConstruct 2 1; Assign 2 2;
            Destroy 1; Destroy 2] empty_heap_counted).
  vm_compute. repeat split; done.
Defined.

End HandleRunExamples.

(** ** Cancelling what has been subscribed *)

Lemma rotr_rot (l : list Z) : rotr (rot l) = l.
Proof. destruct l as [|a t]; [done|]. simpl. by rewrite rotr_snoc. Qed.

Lemma rotr_rot_map (hi : list (list Z)) : rotr <$> (rot <$> hi) = hi.
Proof.
  induction hi as [|b hi IH]; [done|].
  rewrite !fmap_cons, rotr_rot. by rewrite IH.
Qed.

Section RoundTrips.
Context {PF : Platform} {VIC : VarImpConf} {M : Type} {MM : MemoryManagerOps M}.

Lemma roomy_small (x : VarImp) : 0 <= free_bits → roomy x → small x.
Proof.
  unfold roomy, small. intros Hfb Hr.
  assert (0 < 2 ^ free_bits) by (apply Z.pow_pos_nonneg; lia).
  pose proof (len_nonneg (slots x)). nia.
Qed.

Lemma roomy_grown (x x1 : VarImp) :
  0 <= free_bits → roomy x → len (slots x1) <= 2 * len (slots x) + 4 → small x1.
Proof.
  unfold roomy, small. intros Hfb Hr Hl.
  assert (0 < 2 ^ free_bits) by (apply Z.pow_pos_nonneg; lia).
  pose proof (len_nonneg (slots x)). pose proof (len_nonneg (slots x1)). nia.
Qed.

Lemma store_length (x x1 : VarImp) (i v : Z) :
  store x i v = Some x1 → length (slots x1) = length (slots x).
Proof.
  unfold store. destruct (_ && _); [|done]. intros [= <-]. simpl.
  by rewrite length_insert.
Qed.

(** Making room adds at most a resize to the array. *)
Lemma make_room_length (home home1 : Space M) (x x1 : VarImp) bs adv fr :
  layout x bs adv [] fr → small x → fresh_ok home →
  make_room home x = Some (home1, x1) →
  len (slots x1) <= 2 * len (slots x) + 4.
Proof.
  intros Hlay Hsm Hfresh. unfold make_room.
  pose proof (len_nonneg (slots x)).
  destruct (Z.eqb_spec (Z.shiftr (free_and_bits x) free_bits) 0) as [Hz|Hnz].
  - assert (fr = []) as ->.
    { pose proof (lay_free _ _ _ _ _ Hlay) as Hf. unfold free_slots in Hf.
      rewrite Hz in Hf. destruct fr; [done|]. rewrite len_cons in Hf.
      pose proof (len_nonneg fr). lia. }
    destruct (resize_spec (set_n_sub home (u32 (n_sub home + 1))) x bs adv Hlay Hsm Hfresh)
      as (h' & x' & Hr & _ & _ & _ & _ & _ & _ & _ & _ & _ & _ & Hl).
    rewrite Hr. simpl. intros [= _ <-]. done.
  - simpl. intros [= _ <-]. simpl. lia.
Qed.

(** X1: a propagator that subscribes with propagation condition [pc] and
    then cancels that subscription leaves every bucket and the advisors
    exactly as they were, in contents and in order, and the degree and the
    number of subscriptions of the space are the old ones; this holds also
    when the subscription had to resize the array. *)
Theorem subscribe_cancel_restores (home : Space M) (x : VarImp) (p pc : Z) :
  well_formed x → roomy x → fresh_ok home →
  0 <= pc <= pc_max → 0 <= n_sub home < 2 ^ 32 →
  ∃ home1 x1 home2 x2,
    enter home x p pc = Some (home1, x1) ∧
    remove home1 x1 p pc = Some (home2, x2) ∧
    (∀ j, 0 <= j <= pc_max → bucket x2 j = bucket x j) ∧
    advisors x2 = advisors x ∧
    entries x2 = entries x ∧
    n_sub home2 = n_sub home ∧
    well_formed x2.
Proof.
  intros (bs & adv & fr & Hlay) Hroomy Hfresh Hpc Hn.
  pose proof (lay_conf _ _ _ _ _ Hlay) as [Hpm Hfb].
  pose proof (roomy_small x Hfb Hroomy) as Hsm.
  destruct (layout_split x bs adv [] fr pc Hlay Hpc) as (lo & B & hi & -> & Hlo).
  destruct (make_room_spec home x _ _ _ Hlay Hsm Hfresh)
    as (home1 & x1 & f & fr' & Hroom & Hlay1 & Hsz & Hns & Hqu).
  pose proof (make_room_length home home1 x x1 _ _ _ Hlay Hsm Hfresh Hroom) as Hlen1.
  destruct (enter_body home home1 x x1 p pc lo hi B adv fr' f Hroom Hlay1 (eq_sym Hlo) Hsz)
    as (x' & Henter & Hlay' & _ & _).
  assert (Hlen' : len (slots x') = len (slots x1)).
  { rewrite (lay_slots _ _ _ _ _ Hlay'), (lay_slots _ _ _ _ _ Hlay1).
    unfold len. rewrite !length_app, concat_enter_length, rot_length. simpl. lia. }
  assert (Hsm' : small x').
  { apply (roomy_grown x x' Hfb Hroomy). lia. }
  destruct (remove_layout home1 x' p pc lo [] (rot B) (rot <$> hi) (rot adv) fr')
    as (x2 & h & Hrem & Hlay2 & _ & _); [done|done|apply not_elem_of_nil|lia|].
  simpl in Hlay2. rewrite rotr_rot, rotr_rot_map, rotr_rot in Hlay2.
  exists home1, x', (set_n_sub home1 (u32 (n_sub home1 - 1))), x2.
  split; [done|]. split; [done|].
  split; [|split; [|split; [|split]]].
  - intros j Hj. apply (same_buckets x x2 _ _ _ _ _ _ _ j Hlay Hlay2 Hj).
  - rewrite (layout_advisors _ _ _ _ _ Hlay2), (layout_advisors _ _ _ _ _ Hlay). done.
  - rewrite (lay_entries _ _ _ _ _ Hlay2), (lay_entries _ _ _ _ _ Hlay). done.
  - simpl. rewrite Hns. unfold u32.
    rewrite Zminus_mod_idemp_l. replace (n_sub home + 1 - 1) with (n_sub home) by lia.
    apply Z.mod_small. lia.
  - by exists (lo ++ B :: hi), adv, (h :: fr').
Qed.

Lemma enter_advisor_length (home home1 : Space M) (x x1 : VarImp) (a : Z) :
  enter_advisor home x a = Some (home1, x1) →
  ∃ home' x', make_room home x = Some (home', x') ∧
              length (slots x1) = length (slots x').
Proof.
  unfold enter_advisor.
  destruct (make_room home x) as [[home' x']|]; [|done]. simpl.
  destruct (actorNonZero x' (pc_max + 1)) as [s|]; [|done]. simpl.
  destruct (load x' s) as [v|]; [|done]. simpl.
  destruct (store x' (entries x') v) as [x2|] eqn:Hst1; [|done]. simpl.
  destruct (actorNonZero _ (pc_max + 1)) as [t|]; [|done]. simpl.
  destruct (store _ t a) as [x4|] eqn:Hst2; [|done]. simpl.
  intros [= _ <-]. exists home', x'. split; [done|].
  rewrite (store_length _ _ _ _ Hst2). simpl.
  by rewrite (store_length _ _ _ _ Hst1).
Qed.

(** X2: an advisor that subscribes and then cancels its subscription leaves
    the advisors and every bucket exactly as they were, and the degree and
    the number of subscriptions of the space are the old ones. *)
Theorem subscribe_cancel_advisor_restores (home : Space M) (x : VarImp) (a : Z) :
  well_formed x → roomy x → fresh_ok home → 0 <= n_sub home < 2 ^ 32 →
  ∃ home1 x1 home2 x2,
    subscribe_advisor home x a false = Some (home1, x1) ∧
    cancel_advisor home1 x1 a false = Some (home2, x2) ∧
    advisors x2 = advisors x ∧
    (∀ j, 0 <= j <= pc_max → bucket x2 j = bucket x j) ∧
    entries x2 = entries x ∧
    n_sub home2 = n_sub home ∧
    well_formed x2.
Proof.
  intros (bs & adv & fr & Hlay) Hroomy Hfresh Hn.
  pose proof (lay_conf _ _ _ _ _ Hlay) as [Hpm Hfb].
  pose proof (roomy_small x Hfb Hroomy) as Hsm.
  destruct (enter_advisor_layout home x a bs adv fr Hlay Hsm Hfresh)
    as (home1 & x1 & fr' & Henter & Hlay1 & Hns & Hqu).
  destruct (enter_advisor_length _ _ _ _ _ Henter) as (home' & x' & Hroom & Hlen).
  pose proof (make_room_length home home' x x' _ _ _ Hlay Hsm Hfresh Hroom) as Hlen'.
  assert (Hsm1 : small x1).
  { apply (roomy_grown x x1 Hfb Hroomy). unfold len in *. lia. }
  destruct (remove_advisor_layout home1 x1 a bs [] (rot adv) fr')
    as (x2 & h & Hrem & Hlay2); [done|done|apply not_elem_of_nil|].
  simpl in Hlay2. rewrite rotr_rot in Hlay2.
  exists home1, x1, (set_n_sub home1 (u32 (n_sub home1 - 1))), x2.
  split; [done|]. split; [done|].
  split; [|split; [|split; [|split]]].
  - rewrite (layout_advisors _ _ _ _ _ Hlay2), (layout_advisors _ _ _ _ _ Hlay). done.
  - intros j Hj. apply (same_buckets x x2 _ _ _ _ _ _ _ j Hlay Hlay2 Hj).
  - rewrite (lay_entries _ _ _ _ _ Hlay2), (lay_entries _ _ _ _ _ Hlay). done.
  - simpl. rewrite Hns. unfold u32.
    rewrite Zminus_mod_idemp_l. replace (n_sub home + 1 - 1) with (n_sub home) by lia.
    apply Z.mod_small. lia.
  - by exists bs, adv, (h :: fr').
Qed.

(** X3: cancelling all subscriptions of a variable implementation at once
    gives back to the memory manager the whole array, used and free slots
    alike, lowers the number of subscriptions of the space by the degree,
    and leaves a variable implementation without array and of degree
    zero. *)
Theorem cancel_all_frees_array (home : Space M) (x : VarImp) :
  well_formed x → small x →
  len (slots x) * ptr_bytes < 2 ^ (8 * ptr_bytes) →
  ∃ home1 x1,
    cancel_all home x = Some (home1, x1) ∧
    mm home1 = mm_reuse (mm home) (base x) (len (slots x) * ptr_bytes) ∧
    n_sub home1 = u32 (n_sub home - entries x) ∧
    base x1 = NULL ∧ degree x1 = Some 0 ∧
    free_and_bits x1 = free_and_bits x ∧ u x1 = u x.
Proof.
  intros (bs & adv & fr & Hlay) Hsm Hfit.
  pose proof Hlay as [[Hpm Hfb] Hbk Hw Hsl Hidx Hent Hfree Hbits [Hcop Hbase]].
  unfold cancel_all, degree. rewrite Hcop. simpl.
  eexists _, _. split; [reflexivity|]. simpl.
  split; [|done].
  unfold free_slots in Hfree. rewrite Hfree, Hent.
  assert (Hcap : len fr + len (concat bs ++ adv) = len (slots x)).
  { rewrite Hsl. simpl. rewrite !len_app. lia. }
  rewrite Hcap.
  pose proof (len_nonneg (slots x)).
  assert (Hlt : len (slots x) < 2 ^ 32).
  { unfold small in Hsm. assert (0 < 2 ^ free_bits) by (apply Z.pow_pos_nonneg; lia). nia. }
  rewrite u32_small by lia.
  unfold usize. rewrite Z.mod_small; [done|].
  destruct ptr_bytes_ok as [Hp|Hp]; rewrite Hp in *; lia.
Qed.

End RoundTrips.

Section RoundTripExamples.
#[local] Existing Instance ExampleConf.

Lemma var1_roomy : roomy var1.
Proof. reflexivity. Qed.

Lemma var3_roomy : roomy var3.
Proof. reflexivity. Qed.

Lemma subscribe_cancel_restores_witness :
  ∃ home1 x1 home2 x2,
    enter space1 var1 12 1 = Some (home1, x1) ∧
    remove home1 x1 12 1 = Some (home2, x2) ∧
    bucket x2 0 = bucket var1 0 ∧ entries x2 = entries var1.
Proof.
  destruct (subscribe_cancel_restores space1 var1 12 1
              var1_well_formed var1_roomy space1_fresh_ok)
    as (home1 & x1 & home2 & x2 & He & Hr & Hb & _ & Hent & _).
  - simpl. lia.
  - simpl. lia.
  - exists home1, x1, home2, x2. repeat split; try done. apply Hb. simpl. lia.
Defined.

Lemma subscribe_cancel_advisor_restores_witness :
  ∃ home1 x1 home2 x2,
    subscribe_advisor space1 var3 22 false = Some (home1, x1) ∧
    cancel_advisor home1 x1 22 false = Some (home2, x2) ∧
    advisors x2 = advisors var3.
Proof.
  destruct (subscribe_cancel_advisor_restores space1 var3 22
              var3_well_formed var3_roomy space1_fresh_ok)
    as (home1 & x1 & home2 & x2 & He & Hr & Ha & _).
  - simpl. lia.
  - by exists home1, x1, home2, x2.
Defined.

Lemma cancel_all_frees_array_witness :
  ∃ home1 x1,
    cancel_all space2 var3 = Some (home1, x1) ∧
    mm home1 = mm_reuse (mm space2) 1000 32 ∧ n_sub home1 = 0.
Proof.
  destruct (cancel_all_frees_array space2 var3 var3_well_formed var3_small)
    as (home1 & x1 & Hc & Hmm & Hn & _).
  - reflexivity.
  - exists home1, x1. split; [done|]. split; [exact Hmm|exact Hn].
Defined.

End RoundTripExamples.

(** ** Cloning: the subscriptions of the clone *)

(** The unrolled copying loop of [update] takes the forwarding pointer of
    every actor, one after the other. *)
Lemma update_slots_mapM (links : gmap Z Z) (n : nat) :
  ∀ f : list Z, (length f ≤ n)%nat →
  update_slots links f = mapM (λ a, links !! a) f.
Proof.
  induction n as [|n IH]; intros f Hn.
  - destruct f; [done|simpl in Hn; lia].
  - destruct f as [|f0 [|f1 [|f2 [|f3 r]]]]; [done| | | |].
    1-3: by (simpl; repeat (destruct (links !! _); simpl; try done)).
    cbn [update_slots]. rewrite (IH r) by (simpl in Hn; lia).
    simpl. repeat (destruct (links !! _); simpl; try done).
    by destruct (mapM _ r).
Qed.

Lemma slice_of_take {A} (l : list A) (lo k n : nat) :
  (lo + k ≤ n)%nat → take k (drop lo (take n l)) = take k (drop lo l).
Proof.
  intros Hn. apply list_eq. intros i.
  destruct (decide (i < k)%nat) as [Hi|Hi].
  - rewrite !lookup_take_lt by done. rewrite !lookup_drop.
    by rewrite lookup_take_lt by lia.
  - by rewrite !lookup_take_ge by lia.
Qed.

Section CloneSubscriptions.
Context {PF : Platform} {VIC : VarImpConf}.

(** The cloning constructor followed by [update]: what the clone holds. *)
Lemma clone_run (this : Z) (raw : list Z) (regs : CloneRegs) (x_addr : Z)
    (x : VarImp) (links : gmap Z Z) (sub : Z) bs adv fr :
  layout x bs adv [] fr → marked this = false → len raw = u_words →
  (base x ≠ NULL → 0 <= idx_c < len (vars_u regs)) →
  (∀ a, a ∈ take (Z.to_nat (entries x)) (slots x) → is_Some (links !! a)) →
  ∃ c x1 regs1 c2 x2 t,
    VarImp_copy this raw regs x_addr x = Some (c, x1, regs1) ∧
    update links c x1 sub = Some (c2, x2, sub + entries x * ptr_bytes) ∧
    base c2 = sub ∧ slots c2 = t ∧ entries c2 = entries x ∧
    free_and_bits c2 = Z.land (free_and_bits x) (Z.shiftl 1 free_bits - 1) ∧
    (∀ k : nat, (k ≤ Z.to_nat pc_max)%nat → u c2 !! k = u x !! k) ∧
    mapM (λ a, links !! a) (take (Z.to_nat (entries x)) (slots x)) = Some t.
Proof.
  intros [[Hpm Hfb] Hbk Hw Hsl Hidx Hent Hfree Hbits [Hcop Hnull]]
    Hthis Hraw Hreg Hlinks.
  assert (Huw : pc_max + 1 <= u_words) by (unfold u_words; lia).
  assert (Hel : 0 <= entries x <= len (slots x)).
  { rewrite Hent, Hsl. unfold len. rewrite !length_app. lia. }
  destruct (copy_idx_spec (Z.to_nat (pc_max + 1)) 1 x
              (mkVarImp (base x) (slots x) (entries x)
                 (Z.land (free_and_bits x) (Z.shiftl 1 free_bits - 1)) raw))
    as (w & Hcp & Hwl & Hwk); simpl; try lia.
  assert (Hwx : ∀ k : nat, (k ≤ Z.to_nat pc_max)%nat → w !! k = u x !! k).
  { intros k Hk. rewrite Hwk. simpl. by rewrite decide_True by lia. }
  assert (H0 : is_Some (u x !! 0%nat)).
  { apply lookup_lt_is_Some_2. unfold len in Hw. lia. }
  destruct H0 as [v0 Hv0].
  set (c := set_u _ w) in Hcp.
  assert (Hctor : ∃ r regs1,
    VarImp_copy this raw regs x_addr x
    = Some (c, set_next (set_base x (mark this)) r, regs1)).
  { unfold VarImp_copy.
    destruct (Z.eqb_spec (base x) NULL) as [Hb|Hb].
    - unfold degree. rewrite Hcop. simpl.
      assert (Hez : entries x = 0).
      { rewrite (Hnull Hb) in Hel. unfold len in Hel. simpl in Hel. lia. }
      destruct (Z.eqb_spec (entries x) 0); [|lia].
      simpl. rewrite Hcp. simpl. by eexists _, _.
    - simpl. rewrite Hcp. simpl. specialize (Hreg Hb).
      destruct (Z.leb_spec 0 idx_c); [|lia].
      assert (Hlt : (Z.to_nat idx_c < length (vars_u regs))%nat) by (unfold len in Hreg; lia).
      destruct (lookup_lt_is_Some_2 _ _ Hlt) as [r Hr]. rewrite Hr. simpl.
      by eexists _, _. }
  destruct Hctor as (r & regs1 & Hctor).
  assert (Hcb : base c = base x) by done.
  assert (Hcu : u c = w) by done.
  assert (Hce : entries c = entries x) by done.
  assert (Hcf : free_and_bits c = Z.land (free_and_bits x) (Z.shiftl 1 free_bits - 1)) by done.
  clearbody c.
  destruct (set_next_fields (set_base x (mark this)) r)
    as (Hb1 & He1 & Hs1 & Hl1 & Hk1 & Hp4).
  change (base (set_base x (mark this))) with (mark this) in Hb1.
  change (entries (set_base x (mark this))) with (entries x) in He1.
  change (slots (set_base x (mark this))) with (slots x) in Hs1.
  change (u (set_base x (mark this))) with (u x) in Hl1, Hk1, Hp4.
  set (x1 := set_next (set_base x (mark this)) r) in *.
  clearbody x1.
  exists c, x1, regs1.
  assert (Hrun : ∃ x3 t,
    update links c x1 sub
    = Some (mkVarImp sub t (entries c) (free_and_bits c) (u c), x3,
            sub + entries x * ptr_bytes) ∧
    mapM (λ a, links !! a) (take (Z.to_nat (entries x)) (slots x)) = Some t).
  { unfold update.
  assert (Hc0 : u c !! 0%nat = Some v0) by (rewrite Hcu, Hwx by lia; done).
  rewrite Hc0. simpl.
  set (x2 := set_u (set_base x1 (base c)) (<[0%nat := v0]> (u x1))).
  assert (Hb2 : base x2 = base x) by done.
  assert (He2 : entries x2 = entries x) by done.
  assert (Hs2 : slots x2 = slots x) by done.
  clearbody x2.
  assert (Hx3 : ∃ x3,
    (if (0 <? pc_max) && (4 <? ptr_bytes)
     then w1 ← u c !! 1%nat; Some (set_u x2 (<[1%nat := w1]> (<[0%nat := v0]> (u x1))))
     else Some x2) = Some x3 ∧
    base x3 = base x ∧ entries x3 = entries x ∧ slots x3 = slots x).
  { destruct (Z.ltb_spec 0 pc_max) as [Hpos|Hzero];
      destruct (Z.ltb_spec 4 ptr_bytes) as [Hp8|Hp4']; simpl;
      try (by exists x2).
    assert (H1 : is_Some (u x !! 1%nat)).
    { apply lookup_lt_is_Some_2. unfold len in Hw. lia. }
    destruct H1 as [v1 Hv1].
    assert (Hc1 : u c !! 1%nat = Some v1) by (rewrite Hcu, Hwx by lia; done).
    rewrite Hc1. simpl. by eexists. }
  destruct Hx3 as (x3 & -> & Hb3 & He3 & Hs3). simpl.
  unfold degree, copied. rewrite Hb3, He3, Hs3.
  unfold copied in Hcop. rewrite Hcop. simpl.
  fold (len (slots x)).
  destruct (Z.leb_spec (entries x) (len (slots x))); [|lia].
  destruct (update_slots_total links (length (take (Z.to_nat (entries x)) (slots x)))
              (take (Z.to_nat (entries x)) (slots x))) as (t & Ht & _); [done|done|].
  rewrite Ht. simpl.
  exists x3, t. split; [done|].
  rewrite <- Ht. symmetry. by apply (update_slots_mapM links _ _ (le_n _)). }
  destruct Hrun as (x3 & t & Hrun & Ht).
  eexists _, x3, t.
  split; [done|]. split; [exact Hrun|]. simpl.
  split; [done|]. split; [done|]. split; [done|]. split; [done|].
  split; [|done].
  intros k Hk. rewrite Hcu. by apply Hwx.
Qed.

(** X4: once a variable implementation has been cloned (the cloning
    constructor, then [update] on the clone), the clone is subscribed by
    the copies of the actors subscribed to the original: every bucket and
    the advisors of the clone hold, in the same order, the forwarding
    pointers of the actors of the original. The array of the clone starts
    at [sub], is exactly as long as the degree and has no free slot, and
    [sub] moves on by the degree. *)
Theorem clone_subscriptions (this : Z) (raw : list Z) (regs : CloneRegs) (x_addr : Z)
    (x : VarImp) (links : gmap Z Z) (sub : Z) :
  well_formed x → marked this = false → len raw = u_words →
  (base x ≠ NULL → 0 <= idx_c < len (vars_u regs)) →
  (∀ a, a ∈ take (Z.to_nat (entries x)) (slots x) → is_Some (links !! a)) →
  ∃ c x1 regs1 c2 x2,
    VarImp_copy this raw regs x_addr x = Some (c, x1, regs1) ∧
    update links c x1 sub = Some (c2, x2, sub + entries x * ptr_bytes) ∧
    base c2 = sub ∧ entries c2 = entries x ∧ len (slots c2) = entries x ∧
    free_slots c2 = 0 ∧
    (∀ pc, 0 <= pc <= pc_max →
       Forall2 (λ a t, links !! a = Some t) (bucket x pc) (bucket c2 pc)) ∧
    Forall2 (λ a t, links !! a = Some t) (advisors x) (advisors c2).
Proof.
  intros (bs & adv & fr & Hlay) Hthis Hraw Hreg Hlinks.
  destruct (clone_run this raw regs x_addr x links sub bs adv fr Hlay Hthis Hraw Hreg Hlinks)
    as (c & x1 & regs1 & c2 & x2 & t & Hcopy & Hupd & Hb & Hs & He & Hf & Hu & Ht).
  pose proof Hlay as [[Hpm Hfb] Hbk Hw Hsl Hidx Hent Hfree Hbits [Hcop Hnull]].
  exists c, x1, regs1, c2, x2.
  split; [done|]. split; [done|]. split; [done|]. split; [done|].
  apply mapM_Some in Ht.
  assert (Hel : 0 <= entries x <= len (slots x)).
  { rewrite Hent, Hsl. unfold len. rewrite !length_app. lia. }
  assert (Hbd : ∀ pc, 0 <= pc <= pc_max + 1 → bound c2 pc = bound x pc).
  { intros pc Hpc. unfold bound. destruct (Z.eqb_spec pc 0); [done|].
    by rewrite Hu by lia. }
  assert (Hle : ∀ pc, 0 <= pc <= pc_max + 1 → 0 <= bound x pc <= entries x).
  { intros pc Hpc. rewrite (layout_bound x _ _ _ _ pc Hlay) by lia.
    rewrite Hent. unfold len. rewrite length_app.
    pose proof (concat_take_all bs (Z.to_nat pc)). lia. }
  assert (Hsl2 : ∀ lo hi, 0 <= lo → hi <= entries x →
            Forall2 (λ a t, links !! a = Some t) (slice x lo hi) (slice c2 lo hi)).
  { intros lo hi Hlo Hhi. unfold slice. rewrite Hs.
    destruct (Z.le_gt_cases hi lo) as [Hc|Hc].
    { replace (Z.to_nat (hi - lo)) with 0%nat by lia. constructor. }
    rewrite <- (slice_of_take (slots x) (Z.to_nat lo) (Z.to_nat (hi - lo))
                  (Z.to_nat (entries x))) by lia.
    apply Forall2_take, Forall2_drop. done. }
  split; [|split; [|split]].
  - rewrite Hs. apply Forall2_length in Ht. unfold len in *. rewrite <- Ht.
    rewrite length_take. lia.
  - unfold free_slots. rewrite Hf.
    assert (Hp : 0 < 2 ^ free_bits) by (apply Z.pow_pos_nonneg; lia).
    rewrite shiftl_pow by done. rewrite Z.mul_1_l.
    replace (2 ^ free_bits - 1) with (Z.ones free_bits)
      by (rewrite Z.ones_equiv; lia).
    rewrite Z.land_ones by done. rewrite shiftr_pow by done.
    apply Z.div_small. apply Z.mod_pos_bound. done.
  - intros pc Hpc. unfold bucket. rewrite !Hbd by lia.
    apply Hsl2; [apply Hle; lia|apply Hle; lia].
  - unfold advisors. rewrite Hbd by lia. rewrite He.
    apply Hsl2; [apply Hle; lia|lia].
Qed.

End CloneSubscriptions.

Section CloneSubscriptionsExamples.
#[local] Existing Instance ExampleConf.

Lemma clone_subscriptions_witness :
  ∃ c x1 regs1 c2 x2,
    VarImp_copy 2000 [7; 7; 7] (mkCloneRegs [0] 0) 3000 var3 = Some (c, x1, regs1) ∧
    update {[ 11 := 4000; 21 := 4100 ]} c x1 6000 = Some (c2, x2, 6016) ∧
    slots c2 = [4000; 4100].
Proof.
  destruct (clone_subscriptions 2000 [7; 7; 7] (mkCloneRegs [0] 0) 3000 var3
              {[ 11 := 4000; 21 := 4100 ]} 6000 var3_well_formed)
    as (c & x1 & regs1 & c2 & x2 & Hc & Hu & _).
  - reflexivity.
  - reflexivity.
  - intros _. simpl. unfold len. simpl. lia.
  - intros a Ha. change (take (Z.to_nat (entries var3)) (slots var3)) with [11; 21] in Ha.
    apply elem_of_cons in Ha as [->|Ha]; [by eexists|].
    apply list_elem_of_singleton in Ha. subst a. by eexists.
  - exists c, x1, regs1, c2, x2. split; [done|]. split; [exact Hu|].
    vm_compute in Hc. injection Hc as <- <- <-.
    vm_compute in Hu. by injection Hu as <- _.
Defined.

End CloneSubscriptionsExamples.

(** ** Modification events and deltas *)

Section Events.
Context {PF : Platform} {VIC : VarImpConf}.

(** X5: the modification event of a variable type read out of the
    modification event delta made for an event is that event cut to the
    bits of the mask, also after the delta has been merged with the deltas
    of other variable types, whose bits lie outside of the mask. It is the
    event itself when the delta made for it lies inside the mask; for an
    event such as [ME_GEN_FAILED] under a mask of finitely many bits it is
    another one. *)
Theorem me_of_med (me other : Z) :
  0 <= med_fst →
  Z.land other med_mask = 0 →
  VarImp_me (Z.lor (VarImp_med me) other) = Z.land me (Z.shiftr med_mask med_fst) ∧
  (Z.land (VarImp_med me) med_mask = VarImp_med me →
   VarImp_me (Z.lor (VarImp_med me) other) = me).
Proof.
  intros Hfst Hout. unfold VarImp_me, VarImp_med.
  rewrite Z.land_lor_distr_l, Hout, Z.lor_0_r.
  assert (Hback : Z.shiftr (Z.shiftl me med_fst) med_fst = me).
  { rewrite Z.shiftr_shiftl_l by lia. by rewrite Z.sub_diag, Z.shiftl_0_r. }
  split.
  - by rewrite Z.shiftr_land, Hback.
  - intros ->. exact Hback.
Qed.

End Events.

Section EventsExamples.
#[local] Existing Instance ExampleConf.

(** With the mask 7, the event 2 is read back from its delta merged with
    the delta 8 of another variable type; [ME_GEN_FAILED] is read back as
    7. *)
Lemma me_of_med_witness :
  VarImp_me (Z.lor (VarImp_med 2) 8) = 2 ∧
  VarImp_me (Z.lor (VarImp_med ME_GEN_FAILED) 8) = 7.
Proof.
  split.
  - apply (me_of_med 2 8); [simpl; lia|reflexivity|reflexivity].
  - destruct (me_of_med ME_GEN_FAILED 8) as [Hcut _]; [simpl; lia|reflexivity|exact Hcut].
Defined.

End EventsExamples.

(** ** A fresh variable implementation *)

Section Fresh.
Context {PF : Platform} {VIC : VarImpConf} {M : Type} {MM : MemoryManagerOps M}.

Lemma zero_idx_spec (n : nat) :
  ∀ (pc : Z) (x : VarImp),
  0 < pc → pc + Z.of_nat n <= pc_max + 2 → pc - 1 + Z.of_nat n <= len (u x) →
  ∃ w,
    zero_idx n pc x = Some (set_u x w) ∧ length w = length (u x) ∧
    ∀ k : nat, w !! k =
      if decide (Z.to_nat (pc - 1) ≤ k < Z.to_nat (pc - 1) + n)%nat
      then Some 0 else u x !! k.
Proof.
  induction n as [|n IH]; intros pc x Hpc Hmax Hx.
  - exists (u x). split; [by destruct x|]. split; [done|].
    intros k. case_decide; [lia|done].
  - cbn [zero_idx]. rewrite set_idx_eq by lia. simpl.
    destruct (IH (pc + 1) (set_u x (<[Z.to_nat (pc - 1) := 0]> (u x))))
      as (w & Hrun & Hwl & Hw); try lia.
    { simpl. unfold len in *. rewrite length_insert. lia. }
    exists w. split; [|split].
    + rewrite Hrun. done.
    + rewrite Hwl. simpl. apply length_insert.
    + intros k. rewrite Hw. simpl.
      replace (Z.to_nat (pc + 1 - 1)) with (S (Z.to_nat (pc - 1))) by lia.
      destruct (decide (k = Z.to_nat (pc - 1))) as [->|Hne].
      * rewrite decide_False by lia. rewrite decide_True by lia.
        rewrite list_lookup_insert_eq by (unfold len in Hx; lia). done.
      * rewrite list_lookup_insert_ne by lia.
        repeat case_decide; try done; lia.
Qed.

Lemma concat_replicate_nil (n m : nat) :
  concat (take m (replicate n (@nil Z))) = [].
Proof.
  revert m. induction n as [|n IH]; intros m; simpl.
  - by rewrite take_nil.
  - destruct m; [done|]. simpl. apply IH.
Qed.

Lemma VarImp_new_layout (raw : list Z) :
  0 <= pc_max → 0 <= free_bits → len raw = u_words →
  ∃ x, VarImp_new raw = Some x ∧
       layout x (replicate (Z.to_nat (pc_max + 1)) []) [] [] [].
Proof.
  intros Hpm Hfb Hraw.
  assert (Huw : pc_max + 1 <= u_words) by (unfold u_words; lia).
  destruct (zero_idx_spec (Z.to_nat (pc_max + 1)) 1 (mkVarImp NULL [] 0 0 raw))
    as (w & Hrun & Hwl & Hw); simpl; try lia.
  unfold VarImp_new. rewrite Hrun. simpl. eexists. split; [reflexivity|].
  constructor; simpl; try done.
  - unfold len. rewrite length_replicate. lia.
  - simpl in Hwl. unfold len in *. lia.
  - pose proof (concat_replicate_nil (Z.to_nat (pc_max + 1)) (Z.to_nat (pc_max + 1))) as Hc.
    rewrite take_ge in Hc by (rewrite length_replicate; lia). by rewrite Hc.
  - intros k Hk. rewrite length_replicate in Hk.
    rewrite Hw. rewrite decide_True by (simpl; lia).
    by rewrite concat_replicate_nil.
  - pose proof (concat_replicate_nil (Z.to_nat (pc_max + 1)) (Z.to_nat (pc_max + 1))) as Hc.
    rewrite take_ge in Hc by (rewrite length_replicate; lia). by rewrite Hc.
  - unfold free_slots. simpl. by rewrite Z.shiftr_0_l.
Qed.

(** X6: a freshly constructed variable implementation is well formed, has
    degree zero, no array, and no subscriber under any propagation
    condition; the first propagator that subscribes is then the only
    entry of its bucket. *)
Theorem VarImp_new_empty (raw : list Z) (home : Space M) (p pc : Z) :
  0 <= pc_max → 0 <= free_bits → free_bits <= 28 → len raw = u_words →
  fresh_ok home → 0 <= pc <= pc_max →
  ∃ x, VarImp_new raw = Some x ∧
       well_formed x ∧ base x = NULL ∧ degree x = Some 0 ∧
       (∀ j, 0 <= j <= pc_max → bucket x j = []) ∧ advisors x = [] ∧
       ∃ home1 x1, enter home x p pc = Some (home1, x1) ∧
         bucket x1 pc = [p] ∧ entries x1 = 1 ∧
         (∀ j, 0 <= j <= pc_max → j ≠ pc → bucket x1 j = []).
Proof.
  intros Hpm Hfb Hfb28 Hraw Hfresh Hpc.
  destruct (VarImp_new_layout raw Hpm Hfb Hraw) as (x & Hnew & Hlay).
  exists x. split; [done|].
  assert (Hwf : well_formed x) by (by eexists _, _, _).
  pose proof Hlay as [_ Hbk Hw Hsl Hidx Hent Hfree Hbits [Hcop Hnull]].
  assert (Hc : concat (replicate (Z.to_nat (pc_max + 1)) (@nil Z)) = []).
  { pose proof (concat_replicate_nil (Z.to_nat (pc_max + 1)) (Z.to_nat (pc_max + 1))) as Hc.
    rewrite take_ge in Hc by (rewrite length_replicate; lia). done. }
  rewrite Hc in Hent, Hsl. simpl in Hent, Hsl.
  assert (Hb : base x = NULL).
  { unfold VarImp_new in Hnew. destruct (zero_idx _ _ _) as [x0|] eqn:Hz; [|done].
    injection Hnew as <-. simpl.
    destruct (zero_idx_spec (Z.to_nat (pc_max + 1)) 1 (mkVarImp NULL [] 0 0 raw))
      as (w & Hrun & _); simpl; try lia.
    { unfold u_words in Hraw. lia. }
    rewrite Hrun in Hz. by injection Hz as <-. }
  assert (Hbuckets : ∀ j, 0 <= j <= pc_max → bucket x j = []).
  { intros j Hj.
    pose proof (layout_bucket_at x _ _ _ _ j Hlay Hj) as Hl.
    apply lookup_replicate in Hl as [Hl _]. done. }
  split; [done|]. split; [done|].
  split. { unfold degree. by rewrite Hcop, Hent. }
  split; [done|].
  split. { by rewrite (layout_advisors _ _ _ _ _ Hlay). }
  assert (Hsm : small x).
  { unfold small. rewrite Hsl. unfold len. simpl.
    assert (2 ^ free_bits <= 2 ^ 28) by (apply Z.pow_le_mono_r; lia). lia. }
  destruct (layout_split x _ _ _ _ pc Hlay Hpc) as (lo & B & hi & Hsplit & Hlo).
  assert (HB : B = []).
  { pose proof (layout_bucket_at x _ _ _ _ pc Hlay Hpc) as Hl.
    rewrite Hsplit in Hl. rewrite <- Hlo, to_nat_len in Hl.
    rewrite list_lookup_middle in Hl by done.
    injection Hl as ->. apply Hbuckets. lia. }
  subst B. clear Hent Hsl. rewrite Hsplit in Hlay.
  destruct (enter_layout home x p pc lo [] hi [] [] Hlay Hsm Hfresh (eq_sym Hlo))
    as (home1 & x1 & fr' & Henter & Hlay1 & _).
  exists home1, x1. split; [done|]. simpl in Hlay1.
  split; [|split].
  - rewrite <- Hlo. apply (layout_bucket x1 lo [p] (rot <$> hi) [] [] fr' Hlay1).
  - rewrite (lay_entries _ _ _ _ _ Hlay1).
    rewrite app_nil_r. unfold len.
    pose proof (concat_enter_length lo hi [] p) as Hcl. simpl in Hcl.
    rewrite Hcl, <- Hsplit, Hc. done.
  - intros j Hj Hne.
    assert (Hperm : bucket x1 j ≡ₚ bucket x j).
    { apply (layout_other_bucket x x1 lo [] [p] hi (rot <$> hi) [] [] [] [] [] fr' rot j);
        try done; [apply rot_perm|lia]. }
    rewrite Hbuckets in Hperm by done. by apply Permutation_nil_r in Hperm.
Qed.

End Fresh.

(** ** Scheduling *)

Section Scheduling.
Context {PF : Platform} {VIC : VarImpConf} {M : Type} {MM : MemoryManagerOps M}.
Variable cost : Z → Space M → Z → Z.
Hypothesis cost_range : ∀ q h m, 0 <= cost q h m <= PC_MAX.

(** X7: scheduling a propagator whose modification event delta changes
    puts it at the tail of the queue for its cost, behind the propagators
    that were in that queue, and takes it out of every other chain of the
    space, and the space is not stable afterwards; the cost is the one the
    propagator reports for its updated delta once it has left its chain. A
    propagator whose delta does not change stays where it is. *)
Theorem schedule_queues (home : Space M) (p me m' : Z) (changed : bool) :
  len (queue home) = PC_MAX + 1 →
  med_update (default 0 (med home !! p)) me = (m', changed) →
  ∃ home1,
    schedule cost home p me = Some home1 ∧
    med home1 !! p = Some m' ∧
    (changed = false →
       queue home1 = queue home ∧ a_actors home1 = a_actors home ∧
       active home1 = active home) ∧
    (changed = true →
       let c := cost p (unlink (set_med home (<[p := m']> (med home))) p) m' in
       (∃ q0, queue home !! Z.to_nat c = Some q0 ∧
              queue home1 !! Z.to_nat c = Some (filter (λ a, a ≠ p) q0 ++ [p])) ∧
       (∀ k r, queue home1 !! k = Some r → p ∈ r → k = Z.to_nat c) ∧
       (p ∉ a_actors home1) ∧
       stable home1 = false).
Proof.
  intros Hq Hmu. unfold schedule. rewrite Hmu.
  destruct changed.
  2:{ eexists. split; [reflexivity|]. simpl. rewrite lookup_insert_eq.
      split; [done|]. split; [done|]. done. }
  unfold enqueue.
  set (home0 := set_med home (<[p:=m']> (med home))).
  set (home1 := unlink home0 p).
  assert (Hm : default 0 (med home1 !! p) = m').
  { unfold home1, home0. simpl. by rewrite lookup_insert_eq. }
  rewrite Hm.
  pose proof (cost_range p home1 m') as Hc.
  set (c := cost p home1 m') in *.
  assert (Hl : (Z.to_nat c < length (queue home))%nat) by (unfold len in Hq; lia).
  destruct (lookup_lt_is_Some_2 _ _ Hl) as [q0 Hq0].
  assert (Hlk : queue home1 !! Z.to_nat c = Some (filter (λ a, a ≠ p) q0)).
  { unfold home1. simpl. by rewrite list_lookup_fmap, Hq0. }
  destruct (Z.leb_spec 0 c); [|lia].
  destruct (Z.leb_spec c PC_MAX); [|lia].
  cbn [andb]. rewrite Hlk. cbn [mbind option_bind].
  set (home2 := set_chains home1 (a_actors home1)
                  (<[Z.to_nat c:=filter (λ a, a ≠ p) q0 ++ [p]]> (queue home1))).
  assert (Hfacts :
    ∀ h : Space M, queue h = queue home2 → a_actors h = a_actors home2 →
      med h = med home2 → queue_addr h c <= active h → queue_base h = queue_base home →
      med h !! p = Some m' ∧
      (true = false →
         queue h = queue home ∧ a_actors h = a_actors home ∧ active h = active home) ∧
      (true = true →
         (∃ q0, queue home !! Z.to_nat c = Some q0 ∧
                queue h !! Z.to_nat c = Some (filter (λ a, a ≠ p) q0 ++ [p])) ∧
         (∀ k r, queue h !! k = Some r → p ∈ r → k = Z.to_nat c) ∧
         (p ∉ a_actors h) ∧ stable h = false)).
  { intros h Hhq Hha Hhm Hact Hbase.
    split. { rewrite Hhm. simpl. by rewrite lookup_insert_eq. }
    split; [done|]. intros _.
    rewrite Hhq, Hha. simpl.
    split. { exists q0. split; [done|].
             by rewrite list_lookup_insert_eq by (rewrite length_map; lia). }
    split; [|split].
    - intros k r Hk Hin.
      destruct (decide (k = Z.to_nat c)) as [|Hne]; [done|].
      rewrite list_lookup_insert_ne in Hk by done.
      rewrite list_lookup_fmap in Hk.
      destruct (queue home !! k) as [q1|]; [|done].
      injection Hk as <-. apply list_elem_of_filter in Hin as [Hn _]. done.
    - intros Hin. apply list_elem_of_filter in Hin as [Hn _]. done.
    - unfold stable. apply Z.ltb_ge.
      unfold queue_addr in *. unfold sizeof_ActorLink in *.
      destruct ptr_bytes_ok as [Hp|Hp]; rewrite Hp in *; lia. }
  destruct (queue_addr home2 c >? active home2) eqn:Hgt.
  - eexists. split; [reflexivity|]. apply Hfacts; done.
  - eexists. split; [reflexivity|]. apply Hfacts; try done.
    rewrite Z.gtb_ltb in Hgt. apply Z.ltb_ge in Hgt. done.
Qed.

Lemma schedule_med_other (home home1 : Space M) (p me q : Z) :
  schedule cost home p me = Some home1 → q ≠ p → med home1 !! q = med home !! q.
Proof.
  unfold schedule.
  destruct (med_update (default 0 (med home !! p)) me) as [m changed].
  destruct changed.
  - unfold enqueue.
    set (home0 := unlink _ p). set (c := cost p home0 _).
    destruct (_ && _); [|done].
    destruct (queue home0 !! Z.to_nat c) as [r|]; [|done]. simpl.
    destruct (_ >? _); intros [= <-] Hne; simpl; by rewrite lookup_insert_ne.
  - intros [= <-] Hne. simpl. by rewrite lookup_insert_ne.
Qed.

Lemma schedule_all_total (l : list Z) (me : Z) :
  ∀ home, len (queue home) = PC_MAX + 1 →
  ∃ home1, schedule_all cost l me home = Some home1 ∧
           ∀ q, q ∉ l → med home1 !! q = med home !! q.
Proof.
  induction l as [|a l IH]; intros home Hq.
  - by exists home.
  - destruct (schedule_total cost home a me Hq cost_range) as [home1 Hs].
    destruct (schedule_frame cost _ _ _ _ Hs) as (_ & _ & Hl).
    destruct (IH home1) as (home2 & Hrun & Hmed); [by rewrite Hl|].
    exists home2. simpl. rewrite Hs. simpl. split; [done|].
    intros q Hni. apply not_elem_of_cons in Hni as [Hne Hni].
    rewrite (Hmed q Hni). by apply (schedule_med_other home home1 a me).
Qed.

Lemma slice_snoc (x : VarImp) (b p a : Z) :
  0 <= b < p → slots x !! Z.to_nat (p - 1) = Some a →
  slice x b p = slice x b (p - 1) ++ [a].
Proof.
  intros Hb Ha. unfold slice.
  replace (Z.to_nat (p - b)) with (S (Z.to_nat (p - 1 - b))) by lia.
  apply take_S_r. rewrite lookup_drop.
  replace (Z.to_nat b + Z.to_nat (p - 1 - b))%nat with (Z.to_nat (p - 1)) by lia. done.
Qed.

Lemma schedule_loop_spec (x : VarImp) (b me : Z) (n : nat) :
  ∀ p home, 0 <= b → Z.of_nat n = p - b → p <= len (slots x) →
  schedule_loop cost n x b p me home
  = schedule_all cost (reverse (slice x b p)) me home.
Proof.
  induction n as [|n IH]; intros p home Hb Hn Hp.
  - assert (p = b) as -> by lia. simpl.
    destruct (Z.gtb_spec b b); [lia|].
    unfold slice. by rewrite Z.sub_diag.
  - cbn [schedule_loop]. destruct (Z.gtb_spec p b); [|lia].
    assert (Hlt : (Z.to_nat (p - 1) < length (slots x))%nat) by (unfold len in Hp; lia).
    destruct (lookup_lt_is_Some_2 _ _ Hlt) as [a Ha].
    rewrite load_eq by lia. rewrite Ha. cbn [mbind option_bind].
    rewrite (slice_snoc x b p a) by (done || lia).
    rewrite reverse_snoc. cbn [schedule_all].
    destruct (schedule cost home a me) as [home1|]; [|done]. cbn [mbind option_bind].
    apply IH; lia.
Qed.

(** X8: scheduling for the propagation conditions [pc1] to [pc2] schedules
    the propagators of the buckets for [pc1] up to [pc2], each once per
    subscription, from the last slot down to the first, and leaves the
    modification event delta of every propagator outside of these buckets
    as it is. *)
Theorem schedule_range_spec (home : Space M) (x : VarImp) (pc1 pc2 me : Z) :
  well_formed x → 0 <= pc1 <= pc2 + 1 → 0 <= pc2 <= pc_max →
  len (queue home) = PC_MAX + 1 →
  ∃ home1,
    schedule_range cost home x pc1 pc2 me = Some home1 ∧
    schedule_all cost (reverse (slice x (bound x pc1) (bound x (pc2 + 1)))) me home
      = Some home1 ∧
    ∀ q, q ∉ slice x (bound x pc1) (bound x (pc2 + 1)) →
         med home1 !! q = med home !! q.
Proof.
  intros (bs & adv & fr & Hlay) Hpc1 Hpc2 Hq.
  pose proof Hlay as [[Hpm Hfb] Hbk Hw Hsl Hidx Hent Hfree Hbits Hbase].
  set (lo := bound x pc1). set (hi := bound x (pc2 + 1)).
  assert (Hlo : lo = len (concat (take (Z.to_nat pc1) bs))).
  { apply (layout_bound x _ _ _ _ pc1 Hlay). lia. }
  assert (Hhi : hi = len (concat (take (Z.to_nat (pc2 + 1)) bs))).
  { apply (layout_bound x _ _ _ _ (pc2 + 1) Hlay). lia. }
  assert (Hle : 0 <= lo <= hi).
  { rewrite Hlo, Hhi. unfold len.
    pose proof (concat_take_le bs (Z.to_nat pc1) (Z.to_nat (pc2 + 1))). lia. }
  assert (Hhl : hi <= len (slots x)).
  { rewrite Hhi, Hsl. unfold len. rewrite !length_app.
    pose proof (concat_take_all bs (Z.to_nat (pc2 + 1))). lia. }
  destruct (schedule_all_total (reverse (slice x lo hi)) me home Hq) as (home1 & Hall & Hmed).
  exists home1. split; [|split; [done|]].
  - unfold schedule_range.
    assert (Hact : actor x pc1 = Some lo).
    { destruct (actor_eq x pc1) as [Ha|(Hne & _ & Hnone)]; [lia|done|].
      rewrite Hidx in Hnone by (unfold len in *; lia). done. }
    rewrite Hact. cbn [mbind option_bind].
    rewrite actorNonZero_eq by lia.
    replace (pc2 + 1 - 1) with pc2 by lia.
    rewrite Hidx by (unfold len in *; lia). cbn [mbind option_bind].
    replace (S (Z.to_nat pc2)) with (Z.to_nat (pc2 + 1)) by lia. rewrite <- Hhi.
    rewrite schedule_loop_spec by lia. done.
  - intros q Hni. apply Hmed. rewrite elem_of_reverse. exact Hni.
Qed.

End Scheduling.

Section SchedulingExamples.
#[local] Existing Instance ExampleConf.

Lemma schedule_queues_witness :
  ∃ home1, schedule cost4 space1 11 2 = Some home1 ∧
           queue home1 !! 4%nat = Some [11] ∧ stable home1 = false.
Proof.
  destruct (schedule_queues cost4 (λ _ _ _, ltac:(unfold cost4, PC_MAX; lia))
              space1 11 2 2 true)
    as (home1 & Hs & _ & _ & Hch); [reflexivity|by vm_compute|].
  exists home1. split; [done|].
  destruct (Hch eq_refl) as ((q0 & Hq0 & Hq1) & _ & _ & Hst).
  split; [|done].
  vm_compute in Hq0. injection Hq0 as <-. exact Hq1.
Defined.

Lemma schedule_range_spec_witness :
  ∃ home1, schedule_range cost4 space1 var1 0 2 2 = Some home1.
Proof.
  destruct (schedule_range_spec cost4 (λ _ _ _, ltac:(unfold cost4, PC_MAX; lia))
              space1 var1 0 2 2 var1_well_formed)
    as (home1 & Hs & _).
  - lia.
  - simpl. lia.
  - reflexivity.
  - by exists home1.
Defined.

Lemma VarImp_new_empty_witness :
  ∃ x, VarImp_new [7; 7; 7] = Some x ∧ degree x = Some 0.
Proof.
  destruct (VarImp_new_empty [7; 7; 7] space0 11 1) as (x & Hn & _ & _ & Hd & _).
  - simpl. lia.
  - simpl. lia.
  - simpl. lia.
  - reflexivity.
  - exact space0_fresh_ok.
  - simpl. lia.
  - by exists x.
Defined.

End SchedulingExamples.

(** ** Shared handles: setting, temporary copies, copying *)

Section HandleMore.
Import SharedHandle.

(** X9: making a handle refer to another object keeps every use counter
    equal to the number of handles that refer to the object; the object
    the handle referred to before is deleted exactly when no other handle
    refers to it, and nothing happens when the handle refers to the new
    object already. *)
Theorem object_set_counted (hp : Heap) (h o n : Z) :
  counted hp → handles hp !! h = Some o →
  n = NULL ∨ is_Some (objects hp !! n) →
  Z.of_nat (size (handles hp)) + 1 < 2 ^ 32 →
  ∃ hp1,
    SharedHandle_object hp h n = Some hp1 ∧ counted hp1 ∧
    handles hp1 = <[h := n]> (handles hp) ∧
    (n = o → hp1 = hp) ∧
    (n ≠ o → o ≠ NULL →
       (objects hp1 !! o = None ↔ others (handles hp) h o = 0%nat)).
Proof.
  intros Hc Hh Hn Hsz. unfold SharedHandle_object. rewrite Hh. simpl.
  destruct (Z.eqb_spec n o) as [->|Hne]; simpl.
  - exists hp. split; [done|]. split; [done|].
    split; [by rewrite insert_id|]. split; [done|]. done.
  - destruct (cancel_counted hp h o Hc Hh) as (hp1 & Hcan & Hc1 & Hh1 & Ho1); [lia|].
    rewrite Hcan. simpl.
    assert (Hsize : size (handles hp1) = size (handles hp)).
    { rewrite Hh1. rewrite map_size_insert_Some; [done|]. by eexists. }
    destruct (attach_counted hp1 h n Hc1) as (hp2 & Hsub & Hc2 & Hh2 & Ho2).
    { right. rewrite Hh1. by rewrite lookup_insert_eq. }
    { destruct Hn as [->|Hn]; [by left|right].
      destruct (objects hp1 !! n) eqn:Hl; [by eexists|].
      apply Ho1 in Hl as [Hl|(Heq & _)]; [|done].
      rewrite Hl in Hn. by destruct Hn. }
    { lia. }
    exists hp2. split; [done|]. split; [done|].
    split. { rewrite Hh2, Hh1. by rewrite insert_insert_eq. }
    split; [done|].
    intros _ Hon. rewrite Ho2, Ho1. split.
    + intros [Hnone|(_ & _ & Hoth)]; [|done].
      destruct Hc as [_ Hlive]. destruct (Hlive h o Hh Hon) as [ob Hob]. congruence.
    + intros Hoth. right. done.
Qed.

(** X10: a copy of a handle that is constructed and destroyed again leaves
    the heap exactly as it was: the use counter is back at its value and
    the object is still alive. *)
Theorem temporary_copy (hp : Heap) (h sh o : Z) :
  counted hp → handles hp !! h = None → handles hp !! sh = Some o →
  Z.of_nat (size (handles hp)) + 1 < 2 ^ 32 →
  ∃ hp1,
    copy_construct hp h sh = Some hp1 ∧
    handles hp1 !! h = Some o ∧
    destroy hp1 h = Some hp.
Proof.
  intros [Hcnt Hlive] Hh Hsh Hsz.
  unfold copy_construct.
  rewrite bool_decide_eq_false_2 by (by rewrite Hh; intros [? ?]).
  rewrite Hsh. simpl. unfold subscribe. simpl. rewrite lookup_insert_eq. simpl.
  assert (Hdel : delete h (<[h:=NULL]> (<[h:=o]> (handles hp))) = handles hp).
  { rewrite insert_insert_eq. rewrite delete_insert_eq. by apply delete_id. }
  destruct (Z.eqb_spec o NULL) as [->|Hon].
  - eexists. split; [reflexivity|]. simpl. split; [by rewrite lookup_insert_eq|].
    unfold destroy, cancel. simpl. rewrite lookup_insert_eq. simpl.
    rewrite Hdel. by destruct hp.
  - destruct (Hlive sh o Hsh Hon) as [ob Hob]. rewrite Hob. simpl.
    eexists. split; [reflexivity|]. simpl. split; [by rewrite lookup_insert_eq|].
    unfold destroy, cancel. simpl. rewrite lookup_insert_eq. simpl.
    destruct (Z.eqb_spec o NULL); [done|].
    rewrite lookup_insert_eq. simpl.
    destruct (Hcnt o ob Hob) as [_ Huse].
    assert (Hpos : (0 < referring hp o)%nat).
    { rewrite (referring_at hp sh o), Hsh. rewrite decide_True by done. lia. }
    pose proof (referring_le_size hp o) as Hle.
    assert (Hback : u32 (u32 (use_cnt ob + 1) - 1) = use_cnt ob).
    { unfold u32. rewrite Zminus_mod_idemp_l.
      replace (use_cnt ob + 1 - 1) with (use_cnt ob) by lia.
      apply Z.mod_small. lia. }
    rewrite Hback.
    destruct (Z.eqb_spec (use_cnt ob) 0) as [Hz|_]; [lia|].
    simpl. rewrite Hdel. rewrite insert_insert_eq.
    replace (mkObject (use_cnt ob) (fwd ob) (next ob)) with ob by (by destruct ob).
    rewrite insert_id by done. by destruct hp.
Qed.

(** X11: when a space is copied, two handles that refer to the same object
    are updated to handles that refer to the same copy. The first update
    calls [copy] on the object, which gives a copy and does not touch the
    handles or the object itself; the update records the copy as the
    forwarding pointer of the object and puts the object on the list of
    copied objects. The second update follows the forwarding pointer and
    copies nothing. *)
Theorem copied_update_shares (Object_copy : Heap → Z → option (Z * Heap))
    (hp hpc : Heap) (h1 h2 sh1 sh2 o n : Z) (ob : Object) :
  handles hp !! sh1 = Some o → handles hp !! sh2 = Some o → o ≠ NULL →
  objects hp !! o = Some ob → fwd ob = NULL →
  Object_copy hp o = Some (n, hpc) → n ≠ NULL →
  handles hpc = handles hp → objects hpc !! o = Some ob →
  h1 ≠ sh1 → h1 ≠ sh2 →
  ∃ hp1 hp2,
    copied_update Object_copy hp h1 sh1 = Some hp1 ∧
    copied_update Object_copy hp1 h2 sh2 = Some hp2 ∧
    handles hp2 !! h1 = Some n ∧ handles hp2 !! h2 = Some n ∧
    objects hp2 = objects hp1 ∧
    objects hp1 = <[o := mkObject (use_cnt ob) n (Some (copied hpc))]> (objects hpc) ∧
    copied hp1 = o ∧ copied hp2 = o.
Proof.
  intros Hs1 Hs2 Hon Hob Hfwd Hcopy Hn Hhc Hoc Hne1 Hne2.
  unfold copied_update at 1. rewrite Hs1. simpl.
  destruct (Z.eqb_spec o NULL); [done|].
  rewrite Hob. simpl. rewrite Hfwd. simpl.
  rewrite Hcopy. simpl.
  rewrite lookup_insert_ne by done. rewrite Hhc, Hs1. simpl.
  rewrite Hoc. simpl.
  eexists. eexists. split; [reflexivity|].
  unfold copied_update. simpl.
  rewrite lookup_insert_ne by done. rewrite Hs2. simpl.
  destruct (Z.eqb_spec o NULL); [done|].
  rewrite lookup_insert_eq. simpl.
  destruct (Z.eqb_spec n NULL); [done|]. simpl.
  split; [reflexivity|]. simpl.
  split.
  { destruct (decide (h1 = h2)) as [->|Hh].
    - by rewrite lookup_insert_eq.
    - rewrite lookup_insert_ne by done. by rewrite lookup_insert_eq. }
  split; [by rewrite lookup_insert_eq|].
  done.
Qed.

End HandleMore.

Section HandleMoreExamples.
Import SharedHandle.

(** An object with one handle. *)
Lemma one_handle_counted :
  counted (mkHeap {[ 100 := mkObject 1 NULL None ]} {[ 1 := 100 ]} NULL).
Proof.
  split.
  - intros o ob Ho. simpl in Ho. apply lookup_singleton_Some in Ho as [<- <-].
    split; [done|]. by vm_compute.
  - intros h o Hh Hn. simpl in Hh. apply lookup_singleton_Some in Hh as [<- <-].
    simpl. rewrite lookup_singleton_eq. by eexists.
Qed.

Lemma object_set_counted_witness :
  ∃ hp1, SharedHandle_object
           (mkHeap {[ 100 := mkObject 1 NULL None ]} {[ 1 := 100 ]} NULL) 1 NULL
         = Some hp1 ∧ objects hp1 !! 100 = None.
Proof.
  destruct (object_set_counted _ 1 100 NULL one_handle_counted)
    as (hp1 & Hs & _ & _ & _ & Hdel).
  - reflexivity.
  - by left.
  - by vm_compute.
  - exists hp1. split; [done|]. apply Hdel; [done|done|]. by vm_compute.
Defined.

Lemma temporary_copy_witness :
  ∃ hp1, copy_construct
           (mkHeap {[ 100 := mkObject 1 NULL None ]} {[ 1 := 100 ]} NULL) 2 1
         = Some hp1 ∧
         destroy hp1 2
         = Some (mkHeap {[ 100 := mkObject 1 NULL None ]} {[ 1 := 100 ]} NULL).
Proof.
  destruct (temporary_copy _ 2 1 100 one_handle_counted)
    as (hp1 & Hc & _ & Hd).
  - reflexivity.
  - reflexivity.
  - by vm_compute.
  - by exists hp1.
Defined.

Lemma copied_update_shares_witness :
  ∃ hp1 hp2,
    copied_update (copy_at 500)
      (mkHeap {[ 100 := mkObject 2 NULL None ]} {[ 1 := 100; 2 := 100 ]} NULL)
      11 1 = Some hp1 ∧
    copied_update (copy_at 500) hp1 12 2 = Some hp2 ∧
    handles hp2 !! 11 = Some 500 ∧ handles hp2 !! 12 = Some 500.
Proof.
  destruct (copied_update_shares (copy_at 500)
              (mkHeap {[ 100 := mkObject 2 NULL None ]} {[ 1 := 100; 2 := 100 ]} NULL)
              (mkHeap {[ 100 := mkObject 2 NULL None; 500 := mkObject 0 NULL None ]}
                 {[ 1 := 100; 2 := 100 ]} NULL)
              11 12 1 2 100 500 (mkObject 2 NULL None))
    as (hp1 & hp2 & H1 & H2 & Ha & Hb & _); try done.
  by exists hp1, hp2.
Defined.

End HandleMoreExamples.

(** ** Actor links: chains *)

Section Chains.
Import ActorLink.

Lemma path_snoc (lk : Links) (l : list Z) :
  ∀ a x b, path lk a (l ++ [x]) b ↔ path lk a l x ∧ linked lk x b.
Proof.
  induction l as [|y l IH]; intros a x b; simpl; [done|].
  rewrite IH. tauto.
Qed.

Lemma path_app (lk : Links) (l1 : list Z) :
  ∀ a x l2 b, path lk a (l1 ++ x :: l2) b ↔ path lk a l1 x ∧ path lk x l2 b.
Proof.
  induction l1 as [|y l1 IH]; intros a x l2 b; simpl; [done|].
  rewrite IH. tauto.
Qed.

(** A path does not depend on the members it does not go through. *)
Lemma path_frame (lk lk' : Links) (l : list Z) :
  ∀ a b,
  (∀ x, x ∈ a :: l → next lk' !! x = next lk !! x) →
  (∀ x, x ∈ l ++ [b] → prev lk' !! x = prev lk !! x) →
  path lk a l b → path lk' a l b.
Proof.
  induction l as [|y l IH]; intros a b Hn Hp; simpl.
  - intros [H1 H2]. split.
    + rewrite Hn; [done|]. apply elem_of_cons. by left.
    + rewrite Hp; [done|]. apply elem_of_cons. by left.
  - intros [[H1 H2] Hr]. split; [split|].
    + rewrite Hn; [done|]. apply elem_of_cons. by left.
    + rewrite Hp; [done|]. apply elem_of_cons. by left.
    + apply IH; [| |done].
      * intros x Hx. apply Hn. apply elem_of_cons. by right.
      * intros x Hx. apply Hp. simpl. apply elem_of_cons. by right.
Qed.

Lemma init_ring (lk : Links) (s : Z) :
  s ≠ NULL → ∃ lk1, init lk s = Some lk1 ∧ ring lk1 s [].
Proof.
  intros Hs. unfold init, set_next, set_prev.
  destruct (Z.eqb_spec s NULL); [done|]. simpl.
  eexists. split; [reflexivity|]. split; [|split].
  - apply NoDup_singleton.
  - by apply not_elem_of_cons; split; [|apply not_elem_of_nil].
  - split; simpl; by rewrite lookup_insert_eq.
Qed.

(** [head] puts a link that is not in the chain right behind the
    sentinel. *)
Lemma head_chain (lk : Links) (s a : Z) (l : list Z) :
  ring lk s l → a ≠ NULL → a ∉ s :: l →
  ∃ lk1, head lk s a = Some lk1 ∧ ring lk1 s (a :: l).
Proof.
  intros (Hnd & Hnull & Hpath) Ha Hni.
  apply not_elem_of_cons in Hni as [Has Hal].
  apply NoDup_cons in Hnd as [Hsl Hnd].
  apply not_elem_of_cons in Hnull as [Hs0 Hl0].
  assert (Hring : NoDup (s :: a :: l) ∧ NULL ∉ s :: a :: l).
  { split.
    - apply NoDup_cons. split.
      + apply not_elem_of_cons. split; [by intros ->|done].
      + apply NoDup_cons. by split.
    - apply not_elem_of_cons. split; [done|].
      apply not_elem_of_cons. split; [congruence|done]. }
  unfold head, set_next, set_prev.
  destruct l as [|x r]; simpl in Hpath.
  - destruct Hpath as [Hn Hp]. rewrite Hn. simpl.
    destruct (Z.eqb_spec s NULL); [done|]. simpl.
    destruct (Z.eqb_spec a NULL); [done|]. simpl.
    eexists. split; [reflexivity|].
    split; [apply Hring|]. split; [apply Hring|].
    simpl. unfold linked. simpl.
    rewrite lookup_insert_eq.
    rewrite (lookup_insert_ne _ a s) by done.
    rewrite lookup_insert_eq.
    rewrite (lookup_insert_ne _ s a) by done.
    by rewrite !lookup_insert_eq.
  - destruct Hpath as [[Hn Hp] Hr]. rewrite Hn. simpl.
    apply not_elem_of_cons in Hal as [Hax Har].
    apply not_elem_of_cons in Hsl as [Hsx Hsr].
    apply not_elem_of_cons in Hl0 as [Hx0 Hr0].
    apply NoDup_cons in Hnd as [Hxr Hnd].
    destruct (Z.eqb_spec s NULL); [done|]. simpl.
    destruct (Z.eqb_spec a NULL); [done|]. simpl.
    destruct (Z.eqb_spec x NULL); [done|]. simpl.
    eexists. split; [reflexivity|].
    split; [apply Hring|]. split; [apply Hring|].
    simpl. unfold linked. simpl.
    split; [|split].
    + rewrite (lookup_insert_ne _ a s) by done. rewrite lookup_insert_eq.
      rewrite (lookup_insert_ne _ x a) by (by intros ->). by rewrite lookup_insert_eq.
    + by rewrite !lookup_insert_eq.
    + apply (path_frame lk); [| |done]; simpl.
      * intros y Hy.
        assert (y ≠ a) by (intros ->; apply elem_of_cons in Hy as [?|?]; done).
        assert (y ≠ s) by (intros ->; apply elem_of_cons in Hy as [?|?]; done).
        by rewrite !lookup_insert_ne by done.
      * intros y Hy. apply elem_of_app in Hy as [Hy|Hy].
        -- assert (y ≠ x) by (by intros ->).
           assert (y ≠ a) by (by intros ->).
           by rewrite !lookup_insert_ne by done.
        -- apply list_elem_of_singleton in Hy as ->.
           by rewrite !lookup_insert_ne by done.
Qed.

(** [tail] puts a link that is not in the chain right in front of the
    sentinel. *)
Lemma tail_chain (lk : Links) (s a : Z) (l : list Z) :
  ring lk s l → a ≠ NULL → a ∉ s :: l →
  ∃ lk1, tail lk s a = Some lk1 ∧ ring lk1 s (l ++ [a]).
Proof.
  intros (Hnd & Hnull & Hpath) Ha Hni.
  assert (Hring : NoDup (s :: l ++ [a]) ∧ NULL ∉ s :: l ++ [a]).
  { split.
    - rewrite app_comm_cons. apply NoDup_app. split; [done|]. split.
      + intros x Hx Hxa. apply list_elem_of_singleton in Hxa as ->. done.
      + apply NoDup_singleton.
    - rewrite app_comm_cons. intros Hin. apply elem_of_app in Hin as [Hin|Hin]; [done|].
      apply list_elem_of_singleton in Hin. congruence. }
  apply not_elem_of_cons in Hni as [Has Hal].
  apply NoDup_cons in Hnd as [Hsl Hnd].
  apply not_elem_of_cons in Hnull as [Hs0 Hl0].
  unfold tail, set_next, set_prev.
  destruct l as [|y r _] using rev_ind.
  - destruct Hpath as [Hn Hp]. rewrite Hp. simpl.
    destruct (Z.eqb_spec a NULL); [done|]. simpl.
    destruct (Z.eqb_spec s NULL); [done|]. simpl.
    eexists. split; [reflexivity|].
    split; [apply Hring|]. split; [apply Hring|].
    simpl. unfold linked. simpl.
    rewrite lookup_insert_eq.
    rewrite (lookup_insert_ne _ s a) by done.
    rewrite lookup_insert_eq.
    rewrite (lookup_insert_ne _ a s) by done.
    by rewrite !lookup_insert_eq.
  - apply path_snoc in Hpath as [Hr [Hn Hp]]. rewrite Hp. simpl.
    apply not_elem_of_app in Hal as [Har Hay].
    apply not_elem_of_app in Hsl as [Hsr Hsy].
    apply not_elem_of_app in Hl0 as [Hr0 Hy0].
    apply NoDup_app in Hnd as (Hndr & Hry & _).
    assert (Hya : y ≠ a) by (intros ->; apply Hay, list_elem_of_singleton; done).
    assert (Hys : y ≠ s) by (intros ->; apply Hsy, list_elem_of_singleton; done).
    assert (Hyn : y ≠ NULL) by (intros Heq; apply Hy0, list_elem_of_singleton; done).
    assert (Hyr : y ∉ r) by (intros Hin; apply (Hry y Hin), list_elem_of_singleton; done).
    destruct (Z.eqb_spec a NULL); [done|]. simpl.
    destruct (Z.eqb_spec s NULL); [done|]. simpl.
    destruct (Z.eqb_spec y NULL); [done|]. simpl.
    eexists. split; [reflexivity|].
    split; [apply Hring|]. split; [apply Hring|].
    apply path_snoc. split; [apply path_snoc; split|].
    + apply (path_frame lk); [| |done]; simpl.
      * intros x Hx.
        assert (x ≠ y) by (intros ->; apply elem_of_cons in Hx as [?|?]; done).
        assert (x ≠ a) by (intros ->; apply elem_of_cons in Hx as [?|?]; done).
        by rewrite !lookup_insert_ne by done.
      * intros x Hx.
        assert (x ≠ a).
        { intros ->. apply elem_of_app in Hx as [?|Hx]; [done|].
          apply list_elem_of_singleton in Hx. done. }
        assert (x ≠ s).
        { intros ->. apply elem_of_app in Hx as [?|Hx]; [done|].
          apply list_elem_of_singleton in Hx. done. }
        by rewrite !lookup_insert_ne by done.
    + unfold linked. simpl. by rewrite !lookup_insert_eq.
    + unfold linked. simpl.
      rewrite (lookup_insert_ne _ y a) by done. rewrite lookup_insert_eq.
      rewrite (lookup_insert_ne _ a s) by done. by rewrite lookup_insert_eq.
Qed.

Lemma ring_distinct (s a : Z) (l1 l2 : list Z) :
  NoDup (s :: l1 ++ a :: l2) →
  a ≠ s ∧ (a ∉ l1) ∧ (a ∉ l2) ∧ (s ∉ l1) ∧ (s ∉ l2) ∧
  NoDup l1 ∧ NoDup l2 ∧ ∀ x, x ∈ l1 → x ∉ l2.
Proof.
  intros Hnd. apply NoDup_cons in Hnd as [Hs Hnd].
  apply not_elem_of_app in Hs as [Hs1 Hs2].
  apply not_elem_of_cons in Hs2 as [Hsa Hs2].
  apply NoDup_app in Hnd as (Hn1 & Hsep & Hnd).
  apply NoDup_cons in Hnd as [Ha2 Hn2].
  split; [done|]. split.
  { intros Hin. apply (Hsep a Hin). apply elem_of_cons. by left. }
  split; [done|]. split; [done|]. split; [done|]. split; [done|]. split; [done|].
  intros x Hx Hx2. apply (Hsep x Hx). apply elem_of_cons. by right.
Qed.

(** [unlink] takes a link out of the chain it is in. *)
Lemma unlink_chain (lk : Links) (s a : Z) (l1 l2 : list Z) :
  ring lk s (l1 ++ a :: l2) →
  ∃ lk1, unlink lk a = Some lk1 ∧ ring lk1 s (l1 ++ l2).
Proof.
  intros (Hnd & Hnull & Hpath).
  apply path_app in Hpath as [H1 H2].
  destruct (ring_distinct s a l1 l2 Hnd)
    as (Has & Hal1 & Hal2 & Hsl1 & Hsl2 & Hnd1 & Hnd2 & Hsep).
  assert (Hring : NoDup (s :: l1 ++ l2) ∧ NULL ∉ s :: l1 ++ l2).
  { split.
    - apply NoDup_cons. split.
      + apply not_elem_of_app. by split.
      + apply NoDup_app. by split.
    - intros Hin. apply Hnull. rewrite app_comm_cons in *.
      apply elem_of_app in Hin as [Hin|Hin]; apply elem_of_app; [by left|right].
      apply elem_of_cons. by right. }
  assert (Hs0 : s ≠ NULL).
  { intros Heq. apply Hnull. rewrite Heq. apply elem_of_cons. by left. }
  assert (Hl0 : ∀ x, x ∈ l1 ++ l2 → x ≠ NULL).
  { intros x Hx Heq. apply (proj2 Hring). rewrite <- Heq. apply elem_of_cons. by right. }
  (* what lies before and after the link *)
  assert (Hbefore : ∃ p, linked lk p a ∧ p ≠ NULL ∧
            (p = s ∧ l1 = [] ∨ ∃ r, l1 = r ++ [p] ∧ path lk s r p)).
  { destruct l1 as [|y r _] using rev_ind.
    - exists s. split; [done|]. split; [done|]. by left.
    - apply path_snoc in H1 as [Hr Hl]. exists y. split; [done|]. split.
      + apply Hl0. apply elem_of_app. left. apply elem_of_app. right.
        by apply list_elem_of_singleton.
      + right. by exists r. }
  assert (Hafter : ∃ n, linked lk a n ∧ n ≠ NULL ∧
            (n = s ∧ l2 = [] ∨ ∃ r, l2 = n :: r ∧ path lk n r s)).
  { destruct l2 as [|y r].
    - exists s. split; [done|]. split; [done|]. by left.
    - destruct H2 as [Hl Hr]. exists y. split; [done|]. split.
      + apply Hl0. apply elem_of_app. right. apply elem_of_cons. by left.
      + right. by exists r. }
  destruct Hbefore as (p & [Hpa_n Hpa_p] & Hp0 & Hb).
  destruct Hafter as (n & [Han_n Han_p] & Hn0 & Haf).
  unfold unlink, set_next, set_prev. rewrite Hpa_p, Han_n. simpl.
  destruct (Z.eqb_spec p NULL); [done|]. simpl.
  destruct (Z.eqb_spec n NULL); [done|]. simpl.
  eexists. split; [reflexivity|].
  split; [apply Hring|]. split; [apply Hring|].
  (* the members that are written: [next] of [p] and [prev] of [n] *)
  assert (Hlinked : linked (mkLinks (<[n:=p]> (prev lk)) (<[p:=n]> (next lk))) p n).
  { split; simpl; by rewrite lookup_insert_eq. }
  assert (Hframe : ∀ u l v, path lk u l v → p ∉ u :: l → n ∉ l ++ [v] →
            path (mkLinks (<[n:=p]> (prev lk)) (<[p:=n]> (next lk))) u l v).
  { intros u l v Hp Hpn Hnn. apply (path_frame lk); [| |done]; simpl.
    - intros x Hx. assert (x ≠ p) by (by intros ->).
      by rewrite lookup_insert_ne by done.
    - intros x Hx. assert (x ≠ n) by (by intros ->).
      by rewrite lookup_insert_ne by done. }
  destruct Hb as [[-> ->]|(r1 & -> & Hp1)];
    destruct Haf as [[-> ->]|(r2 & -> & Hp2)]; simpl.
  - (* the link is the only one *)
    done.
  - (* the link is the first one *)
    split; [done|]. apply Hframe; [done|done|].
    apply NoDup_cons in Hnd2 as [Hnr _].
    apply not_elem_of_cons in Hsl2 as [Hsn _].
    apply not_elem_of_app. split; [done|].
    by apply not_elem_of_cons; split; [|apply not_elem_of_nil].
  - (* the link is the last one *)
    rewrite app_nil_r. apply path_snoc. split; [|done].
    apply not_elem_of_app in Hsl1 as [Hsr Hsp].
    apply NoDup_app in Hnd1 as (_ & Hrp & _).
    apply Hframe; [done| |].
    + apply not_elem_of_cons. split.
      * intros ->. apply Hsp. by apply list_elem_of_singleton.
      * intros Hin. apply (Hrp p Hin). by apply list_elem_of_singleton.
    + apply not_elem_of_app. split; [done|]. done.
  - (* the link is in the middle *)
    rewrite <- app_assoc. apply path_app. simpl.
    apply not_elem_of_app in Hsl1 as [Hsr Hsp].
    apply NoDup_app in Hnd1 as (_ & Hrp & _).
    apply NoDup_cons in Hnd2 as [Hnr _].
    apply not_elem_of_cons in Hsl2 as [Hsn Hsr2].
    assert (Hpl1 : p ∈ r1 ++ [p]).
    { apply elem_of_app. right. by apply list_elem_of_singleton. }
    assert (Hnl2 : n ∈ n :: r2) by (apply elem_of_cons; by left).
    split; [|split; [done|]].
    + apply Hframe; [done| |].
      * apply not_elem_of_cons. split.
        -- intros ->. apply Hsp. by apply list_elem_of_singleton.
        -- intros Hin. apply (Hrp p Hin). by apply list_elem_of_singleton.
      * intros Hin. apply (Hsep n); [|done].
        apply elem_of_app in Hin as [Hin|Hin]; apply elem_of_app; [by left|by right].
    + apply Hframe; [done| |].
      * intros Hin. by apply (Hsep p Hpl1).
      * apply not_elem_of_app. split; [done|].
        by apply not_elem_of_cons; split; [|apply not_elem_of_nil].
Qed.

(** X12: in a chain of actor links, [head] puts a link that is not in the
    chain right behind the sentinel, in front of all the links of the
    chain, whose order it keeps; unlinking the link again gives the chain
    back. *)
Theorem head_ring (lk : Links) (s a : Z) (l : list Z) :
  ring lk s l → a ≠ NULL → a ∉ s :: l →
  ∃ lk1 lk2,
    head lk s a = Some lk1 ∧ ring lk1 s (a :: l) ∧
    unlink lk1 a = Some lk2 ∧ ring lk2 s l.
Proof.
  intros Hr Ha Hni.
  destruct (head_chain lk s a l Hr Ha Hni) as (lk1 & Hh & Hr1).
  destruct (unlink_chain lk1 s a [] l Hr1) as (lk2 & Hu & Hr2).
  by exists lk1, lk2.
Qed.

(** X13: [tail] puts a link that is not in the chain right in front of the
    sentinel, behind all the links of the chain, whose order it keeps;
    unlinking the link again gives the chain back. *)
Theorem tail_ring (lk : Links) (s a : Z) (l : list Z) :
  ring lk s l → a ≠ NULL → a ∉ s :: l →
  ∃ lk1 lk2,
    tail lk s a = Some lk1 ∧ ring lk1 s (l ++ [a]) ∧
    unlink lk1 a = Some lk2 ∧ ring lk2 s l.
Proof.
  intros Hr Ha Hni.
  destruct (tail_chain lk s a l Hr Ha Hni) as (lk1 & Ht & Hr1).
  destruct (unlink_chain lk1 s a l [] Hr1) as (lk2 & Hu & Hr2).
  rewrite app_nil_r in Hr2. by exists lk1, lk2.
Qed.

(** X14: [unlink] takes a link out of the chain it is in, wherever it is,
    and keeps the order of the other links; [tail] then puts it behind
    them, which is how a propagator is moved to the end of a queue. *)
Theorem unlink_ring (lk : Links) (s a : Z) (l1 l2 : list Z) :
  ring lk s (l1 ++ a :: l2) →
  ∃ lk1 lk2,
    unlink lk a = Some lk1 ∧ ring lk1 s (l1 ++ l2) ∧
    tail lk1 s a = Some lk2 ∧ ring lk2 s (l1 ++ l2 ++ [a]).
Proof.
  intros Hr. pose proof Hr as (Hnd & Hnull & _).
  destruct (ring_distinct s a l1 l2 Hnd) as (Has & Hal1 & Hal2 & _).
  destruct (unlink_chain lk s a l1 l2 Hr) as (lk1 & Hu & Hr1).
  destruct (tail_chain lk1 s a (l1 ++ l2) Hr1) as (lk2 & Ht & Hr2).
  - intros ->. apply Hnull. apply elem_of_cons. right.
    apply elem_of_app. right. apply elem_of_cons. by left.
  - apply not_elem_of_cons. split; [done|]. apply not_elem_of_app. by split.
  - rewrite <- app_assoc in Hr2. by exists lk1, lk2.
Qed.

End Chains.

Section ChainsExamples.
Import ActorLink.

Lemma chain2_ring : ring chain2 10 [11; 12].
Proof.
  split; [|split].
  - apply (bool_decide_unpack _). by vm_compute.
  - apply (bool_decide_unpack _). by vm_compute.
  - repeat split; by vm_compute.
Qed.

Lemma head_ring_witness :
  ∃ lk1 lk2, head chain2 10 13 = Some lk1 ∧ ring lk1 10 [13; 11; 12] ∧
             unlink lk1 13 = Some lk2 ∧ ring lk2 10 [11; 12].
Proof.
  apply (head_ring chain2 10 13 [11; 12] chain2_ring).
  - done.
  - apply (bool_decide_unpack _). by vm_compute.
Defined.

Lemma tail_ring_witness :
  ∃ lk1 lk2, tail chain2 10 13 = Some lk1 ∧ ring lk1 10 [11; 12; 13] ∧
             unlink lk1 13 = Some lk2 ∧ ring lk2 10 [11; 12].
Proof.
  apply (tail_ring chain2 10 13 [11; 12] chain2_ring).
  - done.
  - apply (bool_decide_unpack _). by vm_compute.
Defined.

Lemma unlink_ring_witness :
  ∃ lk1 lk2, unlink chain2 11 = Some lk1 ∧ ring lk1 10 [12] ∧
             tail lk1 10 11 = Some lk2 ∧ ring lk2 10 [12; 11].
Proof. apply (unlink_ring chain2 10 11 [] [12] chain2_ring). Defined.

End ChainsExamples.

(** ** Councils of advisors *)

Lemma keys_le_size (m : gmap Z Z) (l : list Z) :
  NoDup l → (∀ x, x ∈ l → is_Some (m !! x)) → (length l ≤ size m)%nat.
Proof.
  revert m. induction l as [|x r IH]; intros m Hnd Hdef; simpl; [lia|].
  apply NoDup_cons in Hnd as [Hx Hnd].
  destruct (Hdef x) as [v Hv]; [apply elem_of_cons; by left|].
  assert (Hr : (length r ≤ size (delete x m))%nat).
  { apply IH; [done|]. intros y Hy.
    rewrite lookup_delete_ne by (intros ->; done).
    apply Hdef. apply elem_of_cons. by right. }
  pose proof (map_size_delete x m) as Hs. rewrite Hv in Hs. simpl in Hs.
  assert (size m ≠ 0%nat).
  { intros Hz. apply map_size_empty_inv in Hz. subst m. by rewrite lookup_empty in Hv. }
  lia.
Qed.

Section CouncilFacts.
Context {PF : Platform} {M : Type} {MM : MemoryManagerOps M}.

Lemma chain_det (home : Space M) (l1 : list Z) :
  ∀ a l2, chain home a l1 → chain home a l2 → l1 = l2.
Proof.
  induction l1 as [|x r IH]; intros a l2 H1 H2.
  - simpl in H1. subst a. destruct l2 as [|y r2]; [done|].
    destruct H2 as (Hy & Hn & _). congruence.
  - destruct H1 as (-> & Hx & _ & n & Hn & Hr).
    destruct l2 as [|y r2]; [simpl in H2; congruence|].
    destruct H2 as (<- & _ & _ & n2 & Hn2 & Hr2).
    rewrite Hn in Hn2. injection Hn2 as <-.
    f_equal. by apply (IH n).
Qed.

Lemma chain_suffix (home : Space M) (l1 : list Z) :
  ∀ a x l2, chain home a (l1 ++ x :: l2) → chain home x (x :: l2).
Proof.
  induction l1 as [|y r IH]; intros a x l2 Hc.
  - destruct Hc as (-> & Hc). by split.
  - destruct Hc as (_ & _ & _ & n & _ & Hr). by apply (IH n).
Qed.

Lemma chain_NoDup (home : Space M) (l : list Z) :
  ∀ a, chain home a l → NoDup l.
Proof.
  induction l as [|x r IH]; intros a Hc; [apply NoDup_nil_2|].
  pose proof Hc as (-> & Hx & _ & n & Hn & Hr).
  apply NoDup_cons. split; [|by apply (IH n)].
  intros Hin. apply list_elem_of_split in Hin as (r1 & r2 & ->).
  pose proof (chain_suffix home r1 n x r2 Hr) as Hs.
  pose proof (chain_det home _ _ _ Hc Hs) as Heq.
  apply (f_equal length) in Heq. simpl in Heq.
  rewrite length_app in Heq. simpl in Heq. lia.
Qed.

Lemma chain_defined (home : Space M) (l : list Z) :
  ∀ a, chain home a l →
  ∀ x, x ∈ l → x ≠ NULL ∧ is_Some (l_prev home !! x) ∧ is_Some (l_next home !! x).
Proof.
  induction l as [|y r IH]; intros a Hc x Hx; [by apply elem_of_nil in Hx|].
  destruct Hc as (-> & Hy & Hp & n & Hn & Hr).
  apply elem_of_cons in Hx as [->|Hx]; [|by apply (IH n)].
  split; [done|]. split; [done|]. by eexists.
Qed.

Lemma chain_rounds (home : Space M) (a : Z) (l : list Z) :
  chain home a l → (length l < rounds home)%nat.
Proof.
  intros Hc. unfold rounds.
  pose proof (keys_le_size (l_next home) l (chain_NoDup home l a Hc)) as Hle.
  assert (length l ≤ size (l_next home))%nat; [|lia].
  apply Hle. intros x Hx. by apply (chain_defined home l a Hc).
Qed.

(** A chain does not depend on the members of other advisors. *)
Lemma chain_frame (home home' : Space M) (l : list Z) :
  ∀ a,
  (∀ x, x ∈ l → l_next home' !! x = l_next home !! x ∧
                (is_Some (l_prev home !! x) → is_Some (l_prev home' !! x))) →
  chain home a l → chain home' a l.
Proof.
  induction l as [|y r IH]; intros a Hsame Hc; [done|].
  destruct Hc as (-> & Hy & Hp & n & Hn & Hr).
  destruct (Hsame y) as [Hny Hpy]; [apply elem_of_cons; by left|].
  split; [done|]. split; [done|]. split; [by apply Hpy|].
  exists n. split; [by rewrite Hny|].
  apply IH; [|done]. intros x Hx. apply Hsame. apply elem_of_cons. by right.
Qed.

Lemma live_cons_dead (home : Space M) (x : Z) (l : list Z) :
  l_prev home !! x = Some NULL → live home (x :: l) = live home l.
Proof. intros Hx. unfold live. by rewrite filter_cons_False by (by intros ?). Qed.

Lemma live_cons_live (home : Space M) (x : Z) (l : list Z) :
  l_prev home !! x ≠ Some NULL → live home (x :: l) = x :: live home l.
Proof. intros Hx. unfold live. by rewrite filter_cons_True. Qed.

(** Skipping the disposed advisors at the front of a chain. *)
Lemma skip_loop_spec (home : Space M) (l : list Z) :
  ∀ fuel a, chain home a l → (length l < fuel)%nat →
  ∃ b l2, skip_loop fuel home a = Some b ∧ chain home b l2 ∧
          l2 `suffix_of` l ∧ live home l2 = live home l ∧
          (b ≠ NULL → l_prev home !! b ≠ Some NULL) ∧
          (b = NULL ↔ live home l = []).
Proof.
  induction l as [|x r IH]; intros fuel a Hc Hf.
  - simpl in Hc. subst a. destruct fuel; [simpl in Hf; lia|].
    exists NULL, []. simpl. done.
  - destruct fuel as [|fuel]; [lia|].
    pose proof Hc as (-> & Hx & [v Hv] & n & Hn & Hr).
    cbn [skip_loop]. destruct (Z.eqb_spec x NULL); [done|].
    unfold disposed. rewrite Hv. cbn [mbind option_bind].
    destruct (Z.eqb_spec v NULL) as [->|Hlive].
    + rewrite Hn. cbn [mbind option_bind].
      destruct (IH fuel n Hr) as (b & l2 & Hs & Hc2 & Hsuf & Hl & Hb & Hnull);
        [simpl in Hf; lia|].
      exists b, l2. split; [done|]. split; [done|].
      split; [by apply suffix_cons_r|].
      rewrite live_cons_dead by done. done.
    + exists x, (x :: r). split; [done|]. split; [done|]. split; [done|].
      split; [done|].
      assert (Hxl : l_prev home !! x ≠ Some NULL) by (rewrite Hv; congruence).
      split; [done|].
      rewrite live_cons_live by done. split; [done|done].
Qed.

Lemma skip_loop_stop (home : Space M) (b : Z) (l : list Z) (fuel : nat) :
  chain home b l → (b ≠ NULL → l_prev home !! b ≠ Some NULL) →
  skip_loop (S fuel) home b = Some b.
Proof.
  intros Hc Hb. cbn [skip_loop].
  destruct (Z.eqb_spec b NULL) as [|Hn]; [done|].
  destruct l as [|x r]; [done|].
  destruct Hc as (-> & _ & [v Hv] & _).
  unfold disposed. rewrite Hv. cbn [mbind option_bind].
  destruct (Z.eqb_spec v NULL) as [->|]; [|done].
  by destruct (Hb Hn).
Qed.

Lemma suffix_length_le (l2 l : list Z) : l2 `suffix_of` l → (length l2 ≤ length l)%nat.
Proof. intros [k ->]. rewrite length_app. lia. Qed.

Lemma Advisors_collect_spec (home : Space M) (n : nat) :
  ∀ l a fuel, (length l ≤ n)%nat → chain home a l →
  (a ≠ NULL → l_prev home !! a ≠ Some NULL) → (n < fuel)%nat →
  Advisors_collect fuel home a = Some (live home l).
Proof.
  induction n as [|n IH]; intros l a fuel Hl Hc Hlive Hf.
  - destruct l; [|simpl in Hl; lia]. simpl in Hc. subst a.
    destruct fuel; [lia|]. done.
  - destruct fuel as [|fuel]; [lia|].
    destruct l as [|x r].
    { simpl in Hc. subst a. done. }
    pose proof Hc as (-> & Hx & _ & m & Hm & Hr).
    cbn [Advisors_collect]. unfold Advisors_valid, Advisors_inc.
    destruct (Z.eqb_spec x NULL); [done|]. cbn [negb].
    rewrite Hm. cbn [mbind option_bind].
    unfold skip_disposed.
    pose proof (chain_rounds home x (x :: r) Hc) as Hrounds.
    destruct (skip_loop_spec home r (rounds home) m Hr) as (b & l2 & Hs & Hc2 & Hsuf & Hl2 & Hb & _).
    { simpl in Hrounds. lia. }
    rewrite Hs. cbn [mbind option_bind].
    rewrite (IH l2 b fuel); [|by (apply suffix_length_le in Hsuf; simpl in Hl; lia)|done|done|lia].
    cbn [mbind option_bind]. rewrite Hl2.
    by rewrite live_cons_live by (by apply Hlive).
Qed.

(** X15: the iterator over the advisors of a council visits the advisors
    of the council that are not disposed, each once, in the order of the
    chain of the council. *)
Theorem Advisors_all_live (home : Space M) (c : Council) (l : list Z) :
  chain home (c_advisors c) l →
  Advisors_all home c = Some (live home l).
Proof.
  intros Hc. unfold Advisors_all, Advisors_init, skip_disposed.
  pose proof (chain_rounds home _ l Hc) as Hrounds.
  destruct (skip_loop_spec home l (rounds home) _ Hc Hrounds)
    as (b & l2 & Hs & Hc2 & Hsuf & Hl2 & Hb & _).
  rewrite Hs. cbn [mbind option_bind]. rewrite <- Hl2.
  apply (Advisors_collect_spec home (length l2)); [done|done|done|].
  apply suffix_length_le in Hsuf. lia.
Qed.

(** X16: a council is empty exactly when all the advisors of its chain are
    disposed; asking moves the council on to its first advisor that is
    not disposed, and the iterator visits the same advisors as before. *)
Theorem Council_empty_spec (home : Space M) (c : Council) (l : list Z) :
  chain home (c_advisors c) l →
  ∃ b c1,
    Council_empty home c = Some (b, c1) ∧
    (b = true ↔ live home l = []) ∧
    c_advisors c1 = default NULL (head (live home l)) ∧
    Advisors_all home c1 = Advisors_all home c.
Proof.
  intros Hc. unfold Council_empty, skip_disposed.
  pose proof (chain_rounds home _ l Hc) as Hrounds.
  destruct (skip_loop_spec home l (rounds home) _ Hc Hrounds)
    as (b & l2 & Hs & Hc2 & Hsuf & Hl2 & Hb & Hnull).
  rewrite Hs. cbn [mbind option_bind]. eexists _, _. split; [reflexivity|].
  split; [|split].
  - rewrite <- Hnull. apply Z.eqb_eq.
  - simpl. rewrite <- Hl2. destruct l2 as [|x r].
    + simpl in Hc2. by subst b.
    + destruct Hc2 as (-> & Hx & _). rewrite live_cons_live by (by apply Hb). done.
  - unfold Advisors_all, Advisors_init, skip_disposed. cbn [c_advisors]. rewrite Hs.
    unfold rounds. by rewrite (skip_loop_stop home b l2 _ Hc2 Hb).
Qed.

Lemma chain_rebuild (home home' : Space M) (s1 s2 l1 : list Z) :
  ∀ a,
  chain home a (l1 ++ s1) →
  (∀ y, y ∈ l1 → l_next home' !! y = l_next home !! y ∧
                 (is_Some (l_prev home !! y) → is_Some (l_prev home' !! y))) →
  (∀ b, chain home b s1 → chain home' b s2) →
  chain home' a (l1 ++ s2).
Proof.
  induction l1 as [|y r IH]; intros a Hc Hsame Hs; [by apply Hs|].
  destruct Hc as (-> & Hy & Hp & n & Hn & Hr).
  destruct (Hsame y) as [Hny Hpy]; [apply elem_of_cons; by left|].
  split; [done|]. split; [done|]. split; [by apply Hpy|].
  exists n. split; [by rewrite Hny|].
  apply IH; [done| |done]. intros x Hx. apply Hsame. apply elem_of_cons. by right.
Qed.

Lemma live_app (home : Space M) (l1 l2 : list Z) :
  live home (l1 ++ l2) = live home l1 ++ live home l2.
Proof. unfold live. apply filter_app. Qed.

Lemma live_same (home home' : Space M) (l : list Z) :
  (∀ y, y ∈ l → l_prev home' !! y = l_prev home !! y) →
  live home' l = live home l.
Proof.
  induction l as [|x r IH]; intros Hsame; [done|].
  assert (Hx : l_prev home' !! x = l_prev home !! x).
  { apply Hsame. apply elem_of_cons. by left. }
  assert (Hr : live home' r = live home r).
  { apply IH. intros y Hy. apply Hsame. apply elem_of_cons. by right. }
  unfold live in *.
  destruct (decide (l_prev home !! x = Some NULL)) as [Hd|Hl].
  - rewrite !filter_cons_False by (intros ?; congruence). done.
  - rewrite !filter_cons_True by congruence. by rewrite Hr.
Qed.

Lemma filter_other (a : Z) (l : list Z) : a ∉ l → filter (λ y, y ≠ a) l = l.
Proof.
  induction l as [|x r IH]; intros Hni; [done|].
  apply not_elem_of_cons in Hni as [Hne Hni].
  rewrite filter_cons_True by done. by rewrite IH.
Qed.

Lemma live_all_dead (home : Space M) (l : list Z) :
  (∀ y, y ∈ l → l_prev home !! y = Some NULL) → live home l = [].
Proof.
  induction l as [|x r IH]; intros Hd; [done|].
  rewrite live_cons_dead by (apply Hd; apply elem_of_cons; by left).
  apply IH. intros y Hy. apply Hd. apply elem_of_cons. by right.
Qed.

Lemma live_subset (home : Space M) (l : list Z) (y : Z) : y ∈ live home l → y ∈ l.
Proof. unfold live. intros Hy. by apply list_elem_of_filter in Hy as [_ Hy]. Qed.

(** [Advisor::dispose] on an advisor of a chain: the advisor stays in the
    chain, and the advisor behind it leaves the chain when it is disposed
    also. *)
Lemma dispose_chain (home : Space M) (c0 x : Z) (l1 l2 : list Z) :
  chain home c0 (l1 ++ x :: l2) → l_prev home !! x ≠ Some NULL →
  ∃ home1 l2',
    Advisor_dispose home x = Some home1 ∧
    l_prev home1 = <[x := NULL]> (l_prev home) ∧
    chain home1 c0 (l1 ++ x :: l2') ∧
    (l2' = l2 ∨ ∃ n, l2 = n :: l2' ∧ l_prev home !! n = Some NULL) ∧
    size (l_next home1) = size (l_next home).
Proof.
  intros Hc Hlive.
  pose proof (chain_NoDup home _ _ Hc) as Hnd.
  apply NoDup_app in Hnd as (Hnd1 & Hsep & Hnd2).
  apply NoDup_cons in Hnd2 as [Hx2 Hnd2].
  assert (Hx1 : x ∉ l1).
  { intros Hin. apply (Hsep x Hin). apply elem_of_cons. by left. }
  pose proof (chain_suffix home l1 c0 x l2 Hc) as (_ & Hx & [v Hv] & n & Hn & Hr).
  assert (Hvn : v ≠ NULL) by (intros ->; done).
  set (home1 := set_l_prev home (<[x:=NULL]> (l_prev home))).
  assert (Hprev1 : ∀ y, is_Some (l_prev home !! y) → is_Some (l_prev home1 !! y)).
  { intros y Hy. unfold home1. simpl.
    destruct (decide (y = x)) as [->|]; [by rewrite lookup_insert_eq|by rewrite lookup_insert_ne]. }
  assert (Hframe1 : ∀ b l, chain home b l → chain home1 b l).
  { intros b l Hb. apply (chain_frame home); [|done]. intros y _. split; [done|apply Hprev1]. }
  unfold Advisor_dispose. rewrite Hv. cbn [mbind option_bind].
  destruct (Z.eqb_spec v NULL); [done|].
  fold home1. change (l_next home1) with (l_next home). rewrite Hn. cbn [mbind option_bind].
  destruct (Z.eqb_spec n NULL) as [->|Hnn].
  { exists home1, l2. split; [done|]. split; [done|]. split; [by apply Hframe1|].
    split; [by left|done]. }
  destruct l2 as [|n' r]; [done|].
  destruct Hr as (-> & _ & [vn Hvn'] & nn & Hnn' & Hrr).
  apply not_elem_of_cons in Hx2 as [Hxn Hxr].
  unfold disposed. unfold home1 at 1. simpl. rewrite lookup_insert_ne by done.
  rewrite Hvn'. cbn [mbind option_bind].
  destruct (Z.eqb_spec vn NULL) as [->|Hvl].
  - rewrite Hnn'. cbn [mbind option_bind].
    eexists _, r. split; [reflexivity|]. split; [done|]. split.
    + apply (chain_rebuild home _ (x :: n' :: r) (x :: r) l1 c0 Hc).
      * intros y Hy. simpl. split.
        -- rewrite lookup_insert_ne; [done|]. intros ->. done.
        -- apply Hprev1.
      * intros b (-> & _ & _ & _). split; [done|]. split; [done|].
        split; [simpl; rewrite lookup_insert_eq; by eexists|].
        exists nn. split; [simpl; by rewrite lookup_insert_eq|].
        apply (chain_frame home); [|done]. intros y Hy. simpl. split.
        -- rewrite lookup_insert_ne; [done|]. intros ->. done.
        -- apply Hprev1.
    + split; [right; by exists n'|].
      simpl. rewrite map_size_insert_Some; [done|]. by eexists.
  - exists home1, (n' :: r). split; [done|]. split; [done|]. split; [by apply Hframe1|].
    split; [by left|done].
Qed.

(** X17: disposing an advisor of a council takes this advisor, and no
    other, out of what the iterator over the council visits, also when the
    chain of the council is shortened on the way; the propagators of the
    other advisors are left as they are. *)
Theorem Advisor_dispose_live (home : Space M) (c : Council) (l : list Z) (a : Z) :
  chain home (c_advisors c) l → a ∈ l → l_prev home !! a ≠ Some NULL →
  ∃ home1,
    Advisor_dispose home a = Some home1 ∧
    disposed home1 a = Some true ∧
    Advisors_all home1 c = Some (filter (λ y, y ≠ a) (live home l)) ∧
    ∀ y, y ≠ a → l_prev home1 !! y = l_prev home !! y.
Proof.
  intros Hc Hin Hlive.
  apply list_elem_of_split in Hin as (l1 & l2 & ->).
  pose proof (chain_NoDup home _ _ Hc) as Hnd.
  apply NoDup_app in Hnd as (Hnd1 & Hsep & Hnd2).
  apply NoDup_cons in Hnd2 as [Ha2 Hnd2].
  assert (Ha1 : a ∉ l1).
  { intros Hin. apply (Hsep a Hin). apply elem_of_cons. by left. }
  destruct (dispose_chain home _ a l1 l2 Hc Hlive)
    as (home1 & l2' & Hd & Hp & Hc1 & Hl2 & _).
  exists home1. split; [done|].
  split. { unfold disposed. rewrite Hp, lookup_insert_eq. done. }
  split; [|intros y Hy; by rewrite Hp, lookup_insert_ne].
  (* what the iterator visits in the new chain *)
  assert (Hall : Advisors_all home1 c = Some (live home1 (l1 ++ a :: l2'))).
  { unfold Advisors_all, Advisors_init, skip_disposed.
    pose proof (chain_rounds home1 _ _ Hc1) as Hrounds.
    destruct (skip_loop_spec home1 _ (rounds home1) _ Hc1 Hrounds)
      as (b & k & Hs & Hck & Hsuf & Hlk & Hb & _).
    rewrite Hs. cbn [mbind option_bind]. rewrite <- Hlk.
    apply (Advisors_collect_spec home1 (length k)); [done|done|done|].
    apply suffix_length_le in Hsuf. lia. }
  rewrite Hall. f_equal.
  assert (Hsame : ∀ k, a ∉ k → live home1 k = live home k).
  { intros k Hk. apply live_same. intros y Hy. rewrite Hp.
    rewrite lookup_insert_ne; [done|]. intros ->. done. }
  assert (Hl2' : (a ∉ l2') ∧ live home l2' = live home l2).
  { destruct Hl2 as [->|(n & -> & Hn)]; [done|].
    apply not_elem_of_cons in Ha2 as [_ Ha2]. split; [done|].
    by rewrite live_cons_dead. }
  destruct Hl2' as [Ha2' Hlive2].
  rewrite !live_app.
  rewrite (live_cons_dead home1 a l2') by (rewrite Hp; by rewrite lookup_insert_eq).
  rewrite (live_cons_live home a l2) by done.
  rewrite !Hsame by done. rewrite Hlive2.
  rewrite filter_app, filter_cons_False by (intros Hne; done).
  rewrite !filter_other; [done| |].
  - intros Hy. apply Ha2. by apply (live_subset home).
  - intros Hy. apply Ha1. by apply (live_subset home).
Qed.

Lemma chain_step (home : Space M) (x : Z) (r : list Z) :
  chain home x (x :: r) → ∃ n, l_next home !! x = Some n ∧ chain home n r.
Proof. intros (_ & _ & _ & n & Hn & Hr). by exists n. Qed.

(** The loop of [Council::dispose], with the advisors [vis] behind it and
    the advisors [r] in front of it. *)
Lemma Council_dispose_loop_spec (c0 : Z) (n : nat) :
  ∀ (r vis : list Z) (a : Z) (home : Space M) (fuel : nat),
  (length r ≤ n)%nat → (n < fuel)%nat →
  chain home c0 (vis ++ r) → chain home a r →
  (∀ y, y ∈ vis → l_prev home !! y = Some NULL) →
  ∃ home1 vis1,
    Council_dispose_loop fuel home a = Some home1 ∧
    chain home1 c0 vis1 ∧
    (∀ y, y ∈ vis1 → l_prev home1 !! y = Some NULL) ∧
    (∀ y, y ∈ vis ++ r → l_prev home1 !! y = Some NULL) ∧
    (∀ y, y ∉ vis ++ r → l_prev home1 !! y = l_prev home !! y).
Proof.
  induction n as [|n IH]; intros r vis a home fuel Hlen Hfuel Hc Ha Hvis.
  - destruct r; [|simpl in Hlen; lia]. simpl in Ha. subst a.
    destruct fuel; [lia|]. rewrite app_nil_r in *.
    exists home, vis. done.
  - destruct fuel as [|fuel]; [lia|].
    destruct r as [|x r].
    { simpl in Ha. subst a. rewrite app_nil_r in *. exists home, vis. done. }
    pose proof Ha as (-> & Hx & [v Hv] & m & Hm & Hr).
    cbn [Council_dispose_loop]. destruct (Z.eqb_spec x NULL); [done|].
    unfold disposed. rewrite Hv. cbn [mbind option_bind].
    destruct (Z.eqb_spec v NULL) as [->|Hlive].
    + cbn [mbind option_bind]. rewrite Hm. cbn [mbind option_bind].
      destruct (IH r (vis ++ [x]) m home fuel) as (home1 & vis1 & Hrun & Hc1 & Hd1 & Hall & Hfr);
        [simpl in Hlen; lia|lia|by rewrite <- app_assoc|done| |].
      { intros y Hy. apply elem_of_app in Hy as [Hy|Hy]; [by apply Hvis|].
        apply list_elem_of_singleton in Hy as ->. done. }
      exists home1, vis1. split; [done|]. split; [done|]. split; [done|].
      rewrite <- app_assoc in Hall, Hfr. done.
    + assert (Hxl : l_prev home !! x ≠ Some NULL) by (rewrite Hv; congruence).
      destruct (dispose_chain home c0 x vis r Hc Hxl)
        as (home' & r' & Hd & Hp & Hc' & Hr' & _).
      rewrite Hd. cbn [mbind option_bind].
      pose proof (chain_suffix home' vis c0 x r' Hc') as Hsuf.
      destruct (chain_step home' x r' Hsuf) as (m' & Hm' & Hcr').
      rewrite Hm'. cbn [mbind option_bind].
      pose proof (chain_NoDup home _ _ Hc) as Hnd.
      apply NoDup_app in Hnd as (_ & Hsep & Hnd2).
      apply NoDup_cons in Hnd2 as [Hxr _].
      assert (Hxv : x ∉ vis).
      { intros Hin. apply (Hsep x Hin). apply elem_of_cons. by left. }
      assert (Hlen' : (length r' ≤ length r)%nat).
      { destruct Hr' as [->|(k & -> & _)]; simpl; lia. }
      destruct (IH r' (vis ++ [x]) m' home' fuel) as (home1 & vis1 & Hrun & Hc1 & Hd1 & Hall & Hfr);
        [simpl in Hlen; lia|lia|by rewrite <- app_assoc|done| |].
      { intros y Hy. rewrite Hp. apply elem_of_app in Hy as [Hy|Hy].
        - rewrite lookup_insert_ne by (intros ->; done). by apply Hvis.
        - apply list_elem_of_singleton in Hy as ->. by rewrite lookup_insert_eq. }
      exists home1, vis1. split; [done|]. split; [done|]. split; [done|].
      rewrite <- app_assoc in Hall, Hfr. simpl in Hall, Hfr.
      split.
      * intros y Hy.
        destruct (decide (y ∈ vis ++ x :: r')) as [Hin|Hout]; [by apply Hall|].
        rewrite (Hfr y Hout).
        (* the advisor that has left the chain *)
        destruct Hr' as [->|(k & -> & Hk)]; [done|].
        assert (y = k) as ->.
        { apply elem_of_app in Hy as [Hy|Hy].
          - exfalso. apply Hout. apply elem_of_app. by left.
          - apply elem_of_cons in Hy as [->|Hy].
            + exfalso. apply Hout. apply elem_of_app. right. apply elem_of_cons. by left.
            + apply elem_of_cons in Hy as [->|Hy]; [done|].
              exfalso. apply Hout. apply elem_of_app. right. apply elem_of_cons. by right. }
        rewrite Hp. apply not_elem_of_cons in Hxr as [Hxk _].
        by rewrite lookup_insert_ne by done.
      * intros y Hy.
        assert (Hout : y ∉ vis ++ x :: r').
        { intros Hin. apply Hy. apply elem_of_app in Hin as [Hin|Hin];
            apply elem_of_app; [by left|right].
          apply elem_of_cons in Hin as [->|Hin]; apply elem_of_cons; [by left|right].
          destruct Hr' as [->|(k & -> & _)]; [done|]. apply elem_of_cons. by right. }
        rewrite (Hfr y Hout). rewrite Hp.
        rewrite lookup_insert_ne; [done|].
        intros ->. apply Hy. apply elem_of_app. right. apply elem_of_cons. by left.
Qed.

(** X18: disposing a council disposes every advisor of its chain that is
    not disposed yet; the council is empty afterwards, and advisors
    outside of the chain keep their propagators. *)
Theorem Council_dispose_all (home : Space M) (c : Council) (l : list Z) :
  chain home (c_advisors c) l →
  ∃ home1,
    Council_dispose home c = Some home1 ∧
    (∀ y, y ∈ l → disposed home1 y = Some true) ∧
    Council_empty home1 c = Some (true, mkCouncil NULL) ∧
    (∀ y, y ∉ l → l_prev home1 !! y = l_prev home !! y).
Proof.
  intros Hc. unfold Council_dispose.
  pose proof (chain_rounds home _ l Hc) as Hrounds.
  destruct (Council_dispose_loop_spec (c_advisors c) (length l) l [] (c_advisors c)
              home (rounds home)) as (home1 & vis1 & Hrun & Hc1 & Hd1 & Hall & Hfr);
    [done|done|done|done|by intros y Hy; apply elem_of_nil in Hy|].
  simpl in Hall, Hfr.
  exists home1. split; [done|]. split; [|split; [|done]].
  - intros y Hy. unfold disposed. by rewrite (Hall y Hy).
  - unfold Council_empty, skip_disposed.
    pose proof (chain_rounds home1 _ vis1 Hc1) as Hrounds1.
    destruct (skip_loop_spec home1 vis1 (rounds home1) _ Hc1 Hrounds1)
      as (b & l2 & Hs & _ & _ & _ & _ & Hnull).
    rewrite Hs. cbn [mbind option_bind].
    assert (Hdead : live home1 vis1 = []).
    { by apply live_all_dead. }
    apply Hnull in Hdead. subst b. done.
Qed.

(** X19: a new advisor is the first of the chain of its council, in front
    of the advisors that were there; it is not disposed, its propagator
    is the one it was created for, and the iterator over the council
    visits it first. *)
Theorem Advisor_new_first (home : Space M) (c : Council) (l : list Z) (a p : Z) :
  chain home (c_advisors c) l → a ≠ NULL → a ∉ l → p ≠ NULL →
  ∃ home1 c1,
    Advisor_new home a p c = (home1, c1) ∧
    chain home1 (c_advisors c1) (a :: l) ∧
    propagator home1 a = Some p ∧ disposed home1 a = Some false ∧
    Advisors_all home1 c1 = Some (a :: live home l).
Proof.
  intros Hc Ha Hal Hp. unfold Advisor_new. eexists _, _. split; [reflexivity|].
  set (home1 := set_l_next _ _).
  assert (Hpa : l_prev home1 !! a = Some p) by (simpl; by rewrite lookup_insert_eq).
  assert (Hc1 : chain home1 a (a :: l)).
  { split; [done|]. split; [done|]. split; [by eexists|].
    exists (c_advisors c). split; [simpl; by rewrite lookup_insert_eq|].
    apply (chain_frame home); [|done]. intros y Hy.
    assert (y ≠ a) by (by intros ->). simpl.
    by rewrite !lookup_insert_ne by done. }
  split; [done|].
  split. { unfold propagator. rewrite Hpa. simpl. by destruct (Z.eqb_spec p NULL). }
  split. { unfold disposed. rewrite Hpa. simpl. by destruct (Z.eqb_spec p NULL). }
  assert (Hlive : l_prev home1 !! a ≠ Some NULL) by (rewrite Hpa; congruence).
  unfold Advisors_all, Advisors_init, skip_disposed. cbn [c_advisors].
  pose proof (chain_rounds home1 _ _ Hc1) as Hrounds.
  destruct (skip_loop_spec home1 _ (rounds home1) _ Hc1 Hrounds)
    as (b & k & Hs & Hck & Hsuf & Hlk & Hb & _).
  rewrite Hs. cbn [mbind option_bind].
  rewrite (Advisors_collect_spec home1 (length k) k b); [|done|done|done|].
  2:{ apply suffix_length_le in Hsuf. lia. }
  rewrite Hlk. rewrite live_cons_live by done. do 2 f_equal.
  apply live_same. intros y Hy. simpl.
  rewrite lookup_insert_ne; [done|]. by intros ->.
Qed.

End CouncilFacts.

Section CouncilExamples.

Lemma space6_chain : chain space6 (c_advisors council6) [21; 22; 23].
Proof.
  split; [done|]. split; [done|]. split; [vm_compute; by eexists|].
  exists 22. split; [by vm_compute|].
  split; [done|]. split; [done|]. split; [vm_compute; by eexists|].
  exists 23. split; [by vm_compute|].
  split; [done|]. split; [done|]. split; [vm_compute; by eexists|].
  exists NULL. split; [by vm_compute|done].
Qed.

Lemma Advisors_all_live_witness :
  Advisors_all space6 council6 = Some (live space6 [21; 22; 23]).
Proof. apply (Advisors_all_live space6 council6 [21; 22; 23] space6_chain). Defined.

Lemma Council_empty_spec_witness :
  ∃ b c1, Council_empty space6 council6 = Some (b, c1) ∧
          (b = true ↔ live space6 [21; 22; 23] = []).
Proof.
  destruct (Council_empty_spec space6 council6 [21; 22; 23] space6_chain)
    as (b & c1 & He & Hb & _).
  by exists b, c1.
Defined.

Lemma Advisor_dispose_live_witness :
  ∃ home1, Advisor_dispose space6 21 = Some home1 ∧
           Advisors_all home1 council6
           = Some (filter (λ y, y ≠ 21) (live space6 [21; 22; 23])).
Proof.
  destruct (Advisor_dispose_live space6 council6 [21; 22; 23] 21 space6_chain)
    as (home1 & Hd & _ & Ha & _).
  - apply elem_of_cons. by left.
  - by vm_compute.
  - by exists home1.
Defined.

Lemma Council_dispose_all_witness :
  ∃ home1, Council_dispose space6 council6 = Some home1 ∧
           Council_empty home1 council6 = Some (true, mkCouncil NULL).
Proof.
  destruct (Council_dispose_all space6 council6 [21; 22; 23] space6_chain)
    as (home1 & Hd & _ & He & _).
  by exists home1.
Defined.

Lemma Advisor_new_first_witness :
  ∃ home1 c1, Advisor_new space6 24 11 council6 = (home1, c1) ∧
              Advisors_all home1 c1 = Some (24 :: live space6 [21; 22; 23]).
Proof.
  destruct (Advisor_new_first space6 council6 [21; 22; 23] 24 11 space6_chain)
    as (home1 & c1 & Hn & _ & _ & _ & Ha); [done| |done|].
  - apply (bool_decide_unpack _). by vm_compute.
  - by exists home1, c1.
Defined.

End CouncilExamples.

(** ** Actor properties *)

Section NoticeFacts.
Variable d_resize : Disposal → Disposal.
Hypothesis d_resize_wmp : ∀ d, n_wmp (d_resize d) = n_wmp d.

Lemma notice_wmp (d d1 : Disposal) (a p : Z) :
  notice d_resize d a p = Some d1 →
  n_wmp d1 = if Z.land p AP_WEAKLY =? 0 then n_wmp d
             else if n_wmp d =? 0 then 2 else u32 (n_wmp d + 1).
Proof.
  unfold notice.
  destruct (Z.land p AP_DISPOSE =? 0); simpl.
  - intros [= <-]. by destruct (Z.land p AP_WEAKLY =? 0).
  - set (d' := if d_cur d =? len (d_arr d) then d_resize d else d).
    assert (Hw : n_wmp d' = n_wmp d).
    { unfold d'. destruct (d_cur d =? len (d_arr d)); [apply d_resize_wmp|done]. }
    destruct (_ && _); [|done]. simpl. intros [= <-].
    destruct (Z.land p AP_WEAKLY =? 0); simpl; by rewrite Hw.
Qed.

Lemma ignore_wmp (d d1 : Disposal) (a p : Z) :
  ignore d a p = Some d1 →
  n_wmp d1 = if Z.land p AP_WEAKLY =? 0 then n_wmp d
             else if n_wmp d =? 2 then 0 else u32 (n_wmp d - 1).
Proof.
  unfold ignore.
  destruct (Z.land p AP_DISPOSE =? 0); simpl.
  - intros [= <-]. by destruct (Z.land p AP_WEAKLY =? 0).
  - destruct (d_fst d =? NULL).
    + simpl. intros [= <-]. by destruct (Z.land p AP_WEAKLY =? 0).
    + destruct (scan a (d_arr d) 0) as [f|]; [|done]. simpl.
      destruct (0 <=? d_cur d - 1); [|done].
      destruct (d_arr d !! _) as [v|]; [|done]. simpl.
      intros [= <-]. by destruct (Z.land p AP_WEAKLY =? 0).
Qed.

(** X20: [notice] and [ignore] of a weakly monotonic actor raise and lower
    by one the number of weakly monotonic propagators that [n_wmp] stands
    for, and for an actor that is not weakly monotonic they leave [n_wmp]
    as it is; without forced disposal both always go through. *)
Theorem weakly_count_kept (d : Disposal) (a p : Z) :
  0 <= n_wmp d < 2 ^ 32 - 1 →
  (∀ d1, notice d_resize d a p = Some d1 →
     if Z.land p AP_WEAKLY =? 0 then n_wmp d1 = n_wmp d
     else weakly_count (n_wmp d1) = weakly_count (n_wmp d) + 1) ∧
  (∀ d1, ignore d a p = Some d1 →
     if Z.land p AP_WEAKLY =? 0 then n_wmp d1 = n_wmp d
     else 0 < weakly_count (n_wmp d) →
          weakly_count (n_wmp d1) = weakly_count (n_wmp d) - 1) ∧
  (Z.land p AP_DISPOSE = 0 →
     is_Some (notice d_resize d a p) ∧ is_Some (ignore d a p)).
Proof.
  intros Hn. split; [|split].
  - intros d1 Hd1. rewrite (notice_wmp d d1 a p Hd1).
    destruct (Z.land p AP_WEAKLY =? 0); [done|].
    unfold weakly_count, u32.
    destruct (Z.eqb_spec (n_wmp d) 0) as [->|Hne]; [done|].
    rewrite Z.mod_small by lia.
    destruct (Z.leb_spec (n_wmp d) 1); destruct (Z.leb_spec (n_wmp d + 1) 1); lia.
  - intros d1 Hd1. rewrite (ignore_wmp d d1 a p Hd1).
    destruct (Z.land p AP_WEAKLY =? 0); [done|].
    unfold weakly_count, u32. intros Hpos.
    destruct (Z.leb_spec (n_wmp d) 1); [lia|].
    destruct (Z.eqb_spec (n_wmp d) 2) as [->|Hne]; [done|].
    rewrite Z.mod_small by lia.
    destruct (Z.leb_spec (n_wmp d - 1) 1); lia.
  - intros Hp. unfold notice, ignore. rewrite Hp. simpl. split; by eexists.
Qed.

Lemma scan_first_at (a : Z) (B1 rest : list Z) :
  a ∉ B1 → scan a (B1 ++ a :: rest) 0 = Some (len B1).
Proof. intros Hni. by rewrite scan_spec by done. Qed.

(** What [ignore] does to the array of the actors for forced disposal. *)
Lemma ignore_array (d : Disposal) (a p : Z) (B1 R2 rest : list Z) :
  Z.land p AP_DISPOSE ≠ 0 → d_fst d ≠ NULL →
  d_arr d = B1 ++ a :: R2 ++ rest → d_cur d = len (B1 ++ a :: R2) → a ∉ B1 →
  ∃ d1, ignore d a p = Some d1 ∧ d_fst d1 = d_fst d ∧
        d_arr d1 = B1 ++ rotr R2 ++ default a (last R2) :: rest ∧
        d_cur d1 = len (B1 ++ rotr R2).
Proof.
  intros Hp Hfst Harr Hcur Hni. unfold ignore.
  destruct (Z.eqb_spec (Z.land p AP_DISPOSE) 0); [done|]. simpl.
  destruct (Z.eqb_spec (d_fst d) NULL); [done|].
  rewrite Harr, scan_first_at by done. simpl.
  assert (Hc1 : d_cur d - 1 = len (B1 ++ R2)).
  { rewrite Hcur. rewrite !len_app, len_cons. lia. }
  rewrite Hc1. pose proof (len_nonneg (B1 ++ R2)).
  destruct (Z.leb_spec 0 (len (B1 ++ R2))); [|lia].
  destruct (hole_down B1 R2 rest a) as [Hrd Hwr].
  rewrite !to_nat_len, Hrd. simpl. rewrite Hwr.
  eexists. split; [reflexivity|].
  assert (Hl : len (B1 ++ R2) = len (B1 ++ rotr R2)).
  { rewrite !len_app. unfold len. by rewrite rotr_length. }
  by destruct (Z.land p AP_WEAKLY =? 0); simpl.
Qed.

(** X21: an actor that is registered for forced disposal and ignores this
    property is taken out of the registered actors once; the other
    registered actors stay registered, and there is one entry less. *)
Theorem ignore_removes (d : Disposal) (a p : Z) :
  Z.land p AP_DISPOSE ≠ 0 → d_fst d ≠ NULL →
  0 <= d_cur d <= len (d_arr d) → a ∈ registered d →
  ∃ d1, ignore d a p = Some d1 ∧
        a :: registered d1 ≡ₚ registered d ∧
        d_cur d1 = d_cur d - 1 ∧ d_fst d1 = d_fst d.
Proof.
  intros Hp Hfst Hcur Hin.
  destruct (split_first (registered d) a Hin) as (B1 & R2 & Hreg & Hni).
  assert (Harr : d_arr d = B1 ++ a :: R2 ++ drop (Z.to_nat (d_cur d)) (d_arr d)).
  { rewrite <- (take_drop (Z.to_nat (d_cur d)) (d_arr d)) at 1.
    fold (registered d). rewrite Hreg. by rewrite <- app_assoc. }
  assert (Hlen : d_cur d = len (B1 ++ a :: R2)).
  { rewrite <- Hreg. unfold registered, len. rewrite length_take. unfold len in Hcur. lia. }
  destruct (ignore_array d a p B1 R2 _ Hp Hfst Harr Hlen Hni)
    as (d1 & Hig & Hf & Ha & Hc).
  exists d1. split; [done|]. split; [|split; [|done]].
  - rewrite Hreg. unfold registered. rewrite Ha, Hc, to_nat_len.
    rewrite app_assoc, take_app_length.
    apply perm_middle_rotr.
  - rewrite Hc, Hlen. rewrite !len_app, len_cons. unfold len. rewrite rotr_length. lia.
Qed.

(** X22: an actor that notices forced disposal and then ignores it again
    leaves the registered actors exactly as they were, when the array of
    the space has a free entry. *)
Theorem notice_ignore_restores (d : Disposal) (a p : Z) :
  Z.land p AP_DISPOSE ≠ 0 → d_fst d ≠ NULL →
  0 <= d_cur d < len (d_arr d) → a ∉ registered d →
  ∃ d1 d2,
    notice d_resize d a p = Some d1 ∧
    registered d1 = registered d ++ [a] ∧
    ignore d1 a p = Some d2 ∧
    registered d2 = registered d ∧ d_cur d2 = d_cur d ∧ d_fst d2 = d_fst d.
Proof.
  intros Hp Hfst Hcur Hni.
  assert (Hsplit : ∃ h rest, d_arr d = registered d ++ h :: rest ∧
                             len (registered d) = d_cur d).
  { assert (Hlt : (Z.to_nat (d_cur d) < length (d_arr d))%nat) by (unfold len in Hcur; lia).
    destruct (lookup_lt_is_Some_2 _ _ Hlt) as [h Hh].
    exists h, (drop (S (Z.to_nat (d_cur d))) (d_arr d)). split.
    - unfold registered. rewrite <- (take_drop (Z.to_nat (d_cur d)) (d_arr d)) at 1.
      f_equal. by apply drop_S.
    - unfold registered, len. rewrite length_take. lia. }
  destruct Hsplit as (h & rest & Harr & Hlen).
  set (R := registered d) in *.
  unfold notice.
  destruct (Z.eqb_spec (Z.land p AP_DISPOSE) 0); [done|]. simpl.
  destruct (Z.eqb_spec (d_cur d) (len (d_arr d))); [lia|].
  destruct (Z.leb_spec 0 (d_cur d)); [|lia].
  destruct (Z.ltb_spec (d_cur d) (len (d_arr d))); [|lia]. simpl.
  set (d1 := if negb (Z.land p AP_WEAKLY =? 0) then _ else _).
  assert (Hf1 : d_fst d1 = d_fst d) by (unfold d1; by destruct (negb _)).
  assert (Ha1 : d_arr d1 = R ++ a :: [] ++ rest).
  { assert (d_arr d1 = <[Z.to_nat (d_cur d) := a]> (d_arr d))
      as -> by (unfold d1; by destruct (negb _)).
    rewrite Harr, <- Hlen, to_nat_len.
    replace (length R) with (length R + 0)%nat at 1 by lia.
    by rewrite insert_app_r. }
  assert (Hc1 : d_cur d1 = len (R ++ [a])).
  { assert (d_cur d1 = d_cur d + 1) as -> by (unfold d1; by destruct (negb _)).
    rewrite len_app, Hlen. unfold len. simpl. lia. }
  clearbody d1.
  destruct (ignore_array d1 a p R [] rest Hp) as (d2 & Hig & Hf2 & Ha2 & Hc2);
    [by rewrite Hf1|done|done|done|].
  exists d1, d2. split; [reflexivity|].
  split. { unfold registered at 1. rewrite Ha1, Hc1, to_nat_len. simpl.
           replace (R ++ a :: rest) with ((R ++ [a]) ++ rest) by (by rewrite <- app_assoc).
           by rewrite take_app_length. }
  split; [done|].
  simpl in Ha2, Hc2. rewrite app_nil_r in Hc2.
  split; [|split].
  - unfold registered at 1. rewrite Ha2, Hc2, to_nat_len. by rewrite take_app_length.
  - by rewrite Hc2.
  - by rewrite Hf2.
Qed.

End NoticeFacts.

Section NoticeExamples.

(** An array of four entries with the actors 31 and 32 registered, and two
    weakly monotonic propagators. *)
Lemma weakly_count_kept_witness :
  ∃ d1, notice (λ d, d) (mkDisposal 7000 [31; 32; 0; 0] 2 3) 33 AP_WEAKLY = Some d1 ∧
        weakly_count (n_wmp d1) = 3.
Proof.
  destruct (weakly_count_kept (λ d, d) (λ _, eq_refl)
              (mkDisposal 7000 [31; 32; 0; 0] 2 3) 33 AP_WEAKLY)
    as (Hn & _ & Ht); [simpl; lia|].
  destruct Ht as [[d1 Hd1] _]; [done|].
  exists d1. split; [done|]. by apply Hn in Hd1.
Defined.

Lemma ignore_removes_witness :
  ∃ d1, ignore (mkDisposal 7000 [31; 32; 0; 0] 2 3) 31 AP_DISPOSE = Some d1 ∧
        d_cur d1 = 1.
Proof.
  destruct (ignore_removes (mkDisposal 7000 [31; 32; 0; 0] 2 3) 31 AP_DISPOSE)
    as (d1 & Hi & _ & Hc & _); [done|done|by vm_compute| |].
  - apply elem_of_cons. by left.
  - by exists d1.
Defined.

Lemma notice_ignore_restores_witness :
  ∃ d1 d2,
    notice (λ d, d) (mkDisposal 7000 [31; 32; 0; 0] 2 3) 33 AP_DISPOSE = Some d1 ∧
    ignore d1 33 AP_DISPOSE = Some d2 ∧ registered d2 = [31; 32].
Proof.
  destruct (notice_ignore_restores (λ d, d)
              (mkDisposal 7000 [31; 32; 0; 0] 2 3) 33 AP_DISPOSE)
    as (d1 & d2 & Hn & _ & Hi & Hr & _); [done|done|by vm_compute| |].
  - apply (bool_decide_unpack _). by vm_compute.
  - by exists d1, d2.
Defined.

End NoticeExamples.

(** ** Typed reallocation *)

Section TypedReallocFacts.
Context {PF : Platform} {M : Type} {MM : MemoryManagerOps M}.

Lemma usize_small (x : Z) : 0 <= x < 2 ^ (8 * ptr_bytes) → usize x = x.
Proof. intros Hx. unfold usize. by rewrite Z.mod_small. Qed.

(** X23: [realloc] for an array of pointers to [T] takes the old array to
    be [n * sizeof(T)] bytes long. When [m] pointers need more than that,
    the block returned is a fresh one of [m] pointers whose first
    [n * sizeof(T)] bytes are those of the old array, no other byte of the
    heap is written, and a block of [n * sizeof(T)] bytes at the old
    address is given back to the memory manager. When [m] pointers do not
    need more than that, the old address is returned, also for [n < m]. *)
Theorem realloc_ptrs_measure (sizeT : Z) (home : Space M) (b n m : Z) :
  0 <= n * sizeT < 2 ^ (8 * ptr_bytes) →
  0 <= m * ptr_bytes < 2 ^ (8 * ptr_bytes) →
  let r := realloc_ptrs sizeT home b n m in
  let p := (mm_alloc (mm home) (m * ptr_bytes)).1 in
  (n * sizeT < m * ptr_bytes →
     r.1 = p ∧
     mm r.2 = mm_reuse (mm_alloc (mm home) (m * ptr_bytes)).2 b (n * sizeT) ∧
     (∀ i, 0 <= i < n * sizeT → bytes r.2 (p + i) = bytes home (b + i)) ∧
     (∀ a, ¬ (p <= a < p + n * sizeT) → bytes r.2 a = bytes home a)) ∧
  (m * ptr_bytes <= n * sizeT → r.1 = b ∧ bytes r.2 = bytes home).
Proof.
  intros Hn Hm. simpl. unfold realloc_ptrs.
  rewrite (usize_small _ Hn), (usize_small _ Hm). split.
  - intros Hlt.
    destruct (rrealloc_grow home b _ _ Hlt) as (Hp & Hmm & Hcopy).
    split; [done|]. split; [done|]. split; [done|].
    intros a Ha. unfold rrealloc, ralloc.
    apply Z.ltb_lt in Hlt as ->.
    destruct (mm_alloc (mm home) (m * ptr_bytes)) as [p m1]. simpl in *.
    unfold memcpy.
    destruct (Z.leb_spec p a); destruct (Z.ltb_spec a (p + n * sizeT)); simpl; try done.
    lia.
  - intros Hle. by rewrite (rrealloc_shrink home b _ _ Hle).
Qed.

End TypedReallocFacts.

(** Four pointers to a type of two bytes, grown to six pointers: the old
    array is taken to be eight bytes long. *)
Lemma realloc_ptrs_measure_witness :
  let r := realloc_ptrs 2 space0 1000 4 6 in
  let p := (mm_alloc (mm space0) (6 * ptr_bytes)).1 in
  (4 * 2 < 6 * ptr_bytes →
     r.1 = p ∧
     mm r.2 = mm_reuse (mm_alloc (mm space0) (6 * ptr_bytes)).2 1000 (4 * 2) ∧
     (∀ i, 0 <= i < 4 * 2 → bytes r.2 (p + i) = bytes space0 (1000 + i)) ∧
     (∀ a, ¬ (p <= a < p + 4 * 2) → bytes r.2 a = bytes space0 a)) ∧
  (6 * ptr_bytes <= 4 * 2 → r.1 = 1000 ∧ bytes r.2 = bytes space0).
Proof.
  apply (realloc_ptrs_measure 2 space0 1000 4 6); by vm_compute.
Defined.

(** ** Creating propagators and branchings *)

Section Creating.
Import ActorLink.

(** The propagators created so far are [P], from the head of the chain,
    and the branchings are [B], up to its tail; [b_status] and [b_commit]
    are the first branching, and the branchings are numbered from [id0]
    on. Creating the actors of [cs] keeps this. *)
Lemma create_spec (s id0 : Z) (cs : list Creation) :
  ∀ (st : Actors) (P B : list Z),
    ac_a_actors st = s →
    ring (ac_links st) s (P ++ B) →
    ac_b_status st = default s (B !! 0%nat) →
    ac_b_commit st = default s (B !! 0%nat) →
    (∀ (i : nat) b, B !! i = Some b → ac_id st !! b = Some (id0 + Z.of_nat i)) →
    ac_branch_id st = id0 + len B → 0 <= id0 →
    id0 + len B + len (branchings_of cs) < 2 ^ 32 →
    NoDup (created <$> cs) →
    (∀ a, a ∈ created <$> cs → a ≠ NULL ∧ a ∉ s :: P ++ B) →
    ∃ st1, create st cs = Some st1 ∧
      ac_a_actors st1 = s ∧
      ring (ac_links st1) s ((propagators_of cs ++ P) ++ (B ++ branchings_of cs)) ∧
      ac_b_status st1 = default s ((B ++ branchings_of cs) !! 0%nat) ∧
      ac_b_commit st1 = default s ((B ++ branchings_of cs) !! 0%nat) ∧
      (∀ (i : nat) b, (B ++ branchings_of cs) !! i = Some b →
         ac_id st1 !! b = Some (id0 + Z.of_nat i)) ∧
      ac_branch_id st1 = id0 + len (B ++ branchings_of cs).
Proof.
  induction cs as [|c cs IH]; intros st P B Hs Hr Hbs Hbc Hid Hbr Hid0 Hlt Hnd Hfresh.
  - exists st. simpl. rewrite !app_nil_r. done.
  - apply NoDup_cons in Hnd as [Hc Hnd].
    destruct (Hfresh (created c)) as [Hnull Hni]; [rewrite fmap_cons; apply elem_of_cons; by left|].
    assert (Hrest : ∀ a' l', (∀ x, x ∈ s :: l' → x = a' ∨ x ∈ s :: P ++ B) →
              created c = a' →
              ∀ a, a ∈ created <$> cs → a ≠ NULL ∧ a ∉ s :: l').
    { intros a' l' Hl' Hca a Ha.
      destruct (Hfresh a) as [Han Hani]; [rewrite fmap_cons; apply elem_of_cons; by right|].
      split; [done|]. intros Hin. destruct (Hl' _ Hin) as [->|Hin']; [|done].
      apply Hc. by rewrite Hca. }
    destruct c as [a|a]; simpl in *.
    + destruct (head_chain _ _ _ _ Hr Hnull Hni) as (lk1 & Hh & Hr1).
      unfold Propagator_new. rewrite Hs, Hh. simpl.
      set (st1 := mkActors _ _ _ _ _ _ _).
      destruct (IH st1 (a :: P) B) as (st2 & Hcr & Hs2 & Hr2 & Hbs2 & Hbc2 & Hid2 & Hbr2);
        try done.
      { apply (Hrest a); [|done]. intros x Hx.
        apply elem_of_cons in Hx as [->|Hx]; [right; apply elem_of_cons; by left|].
        apply elem_of_cons in Hx as [->|Hx]; [by left|].
        right. apply elem_of_cons. by right. }
      exists st2. rewrite Hcr. split; [done|]. split; [done|].
      split; [|done].
      replace ((propagators_of cs ++ [a]) ++ P) with (propagators_of cs ++ a :: P);
        [done|by rewrite <- app_assoc].
    + destruct (tail_chain _ _ _ _ Hr Hnull Hni) as (lk1 & Ht & Hr1).
      unfold Branching_new. rewrite Hs, Ht. simpl.
      set (st1 := mkActors _ _ _ _ _ _ _).
      rewrite len_cons in Hlt.
      assert (Hlen : len (B ++ [a]) = len B + 1).
      { unfold len. rewrite length_app. simpl. lia. }
      assert (HB : 0 <= len B) by (unfold len; lia).
      assert (HB0 : ∀ b0, B !! 0%nat = Some b0 → b0 ≠ s).
      { intros b0 Hb0 ->. destruct Hr as (Hnd0 & _).
        apply NoDup_cons in Hnd0 as [Hnd0 _]. apply Hnd0.
        apply elem_of_app. right. by eapply list_elem_of_lookup_2. }
      assert (Hlb : len (branchings_of cs) >= 0) by (unfold len; lia).
      destruct (IH st1 P (B ++ [a])) as (st2 & Hcr & Hs2 & Hr2 & Hbs2 & Hbc2 & Hid2 & Hbr2);
        try done.
      { by rewrite app_assoc. }
      { subst st1. simpl. rewrite Hbs. destruct B as [|b0 B']; simpl.
        - by rewrite Z.eqb_refl.
        - destruct (Z.eqb_spec b0 s) as [He|_]; [|done].
          by destruct (HB0 b0 eq_refl). }
      { subst st1. simpl. rewrite Hbs, Hbc. destruct B as [|b0 B']; simpl.
        - by rewrite Z.eqb_refl.
        - destruct (Z.eqb_spec b0 s) as [He|_]; [|done].
          by destruct (HB0 b0 eq_refl). }
      { subst st1. simpl. intros i b Hi.
        apply lookup_app_Some in Hi as [Hi|[Hge Hi]].
        - rewrite lookup_insert_ne; [by apply Hid|].
          intros <-. apply Hni. apply elem_of_cons. right.
          apply elem_of_app. right. by eapply list_elem_of_lookup_2.
        - apply list_lookup_singleton_Some in Hi as [Hi ->].
          rewrite lookup_insert_eq. rewrite Hbr. f_equal. unfold len. lia. }
      { subst st1. simpl. rewrite Hbr, Hlen. unfold u32.
        rewrite Z.mod_small; lia. }
      { rewrite Hlen. lia. }
      { apply (Hrest a); [|done]. intros x Hx.
        rewrite app_assoc in Hx.
        apply elem_of_cons in Hx as [->|Hx]; [right; apply elem_of_cons; by left|].
        apply elem_of_app in Hx as [Hx|Hx].
        - right. apply elem_of_cons. by right.
        - left. by apply list_elem_of_singleton in Hx. }
      exists st2. rewrite Hcr. split; [done|].
      rewrite <- !app_assoc in *. simpl in *. done.
Qed.

(** X24: in a space without actors, creating propagators and branchings in
    any order gives a chain of actors that holds the propagators first,
    the one created last at the head, and then the branchings in the order
    of their creation; [b_status] and [b_commit] are the first branching
    created, or the chain itself when there is none; and the branchings
    have the identities from [branch_id] on in the order of their
    creation. *)
Theorem create_ordered (st : Actors) (cs : list Creation) :
  let s := ac_a_actors st in
  ring (ac_links st) s [] →
  ac_b_status st = s → ac_b_commit st = s →
  0 <= ac_branch_id st →
  ac_branch_id st + len (branchings_of cs) < 2 ^ 32 →
  NoDup (created <$> cs) →
  NULL ∉ created <$> cs → (s ∉ created <$> cs) →
  ∃ st1, create st cs = Some st1 ∧
    ring (ac_links st1) s (propagators_of cs ++ branchings_of cs) ∧
    ac_b_status st1 = default s (branchings_of cs !! 0%nat) ∧
    ac_b_commit st1 = default s (branchings_of cs !! 0%nat) ∧
    (∀ (i : nat) b, branchings_of cs !! i = Some b →
       ac_id st1 !! b = Some (ac_branch_id st + Z.of_nat i)) ∧
    ac_branch_id st1 = ac_branch_id st + len (branchings_of cs).
Proof.
  intros s Hr Hbs Hbc Hid0 Hlt Hnd Hnull Hs.
  destruct (create_spec s (ac_branch_id st) cs st [] [])
    as (st1 & Hcr & _ & Hr1 & Hbs1 & Hbc1 & Hid1 & Hbr1); try done.
  - unfold len. simpl. lia.
  - unfold len in *. simpl. lia.
  - intros a Ha. split; [by intros ->|].
    simpl. intros Hin. apply list_elem_of_singleton in Hin as ->. done.
  - exists st1. rewrite app_nil_r in Hr1. simpl in *. done.
Qed.

End Creating.

Lemma actors0_ring : ActorLink.ring (ac_links actors0) 10 [].
Proof.
  split; [apply (bool_decide_unpack _); by vm_compute|].
  split; [apply (bool_decide_unpack _); by vm_compute|].
  split; reflexivity.
Qed.

(** Two propagators and two branchings, created alternately. *)
Lemma create_ordered_witness :
  let cs := [NewPropagator 11; NewBranching 12; NewPropagator 13; NewBranching 14] in
  ∃ st1, create actors0 cs = Some st1 ∧
    ActorLink.ring (ac_links st1) 10 [13; 11; 12; 14] ∧
    ac_b_status st1 = 12 ∧ ac_b_commit st1 = 12 ∧
    (∀ (i : nat) b, [12; 14] !! i = Some b → ac_id st1 !! b = Some (0 + Z.of_nat i)) ∧
    ac_branch_id st1 = 0 + len [12; 14].
Proof.
  apply (create_ordered actors0
           [NewPropagator 11; NewBranching 12; NewPropagator 13; NewBranching 14]
           actors0_ring); try reflexivity; try (by vm_compute);
    apply (bool_decide_unpack _); by vm_compute.
Defined.
